(** * paratrans-actions: the translation queue and the issue reconciler

    A shallow embedding of
      - [scripts/utils/queue.ts]  (addQueue, processQueue, executeTaskWithRetry)
      - [.github/actions/create-untranslated-issues/index.js]  (run)
      - the companion action that closes the tracking issues  (run)
    and the properties of the specification that concern them.

    JavaScript strings are sequences of UTF-16 code units; a code unit is a
    natural number [N], a string a [list N].  Every length and every slice
    of the sources counts code units, and so do the definitions below. *)

From Stdlib Require Import String Ascii List Bool Arith ZArith NArith Lia Sorted
  Permutation.
Import ListNotations.

Set Implicit Arguments.

(* ================================================================== *)
(** ** JavaScript strings *)

Module Js.

Definition char := N.
Definition str := list char.

Definition of_ascii (a : ascii) : char := N_of_ascii a.

(** An ASCII literal of the source as a sequence of code units. *)
Fixpoint lit (s : string) : str :=
  match s with
  | EmptyString => []
  | String a r => of_ascii a :: lit r
  end.

Definition char_eqb (a b : char) : bool := N.eqb a b.

Fixpoint str_eqb (a b : str) : bool :=
  match a, b with
  | [], [] => true
  | x :: a', y :: b' => char_eqb x y && str_eqb a' b'
  | _, _ => false
  end.

(** [s.startsWith(p)] *)
Fixpoint startsWith (p s : str) : bool :=
  match p, s with
  | [], _ => true
  | x :: p', y :: s' => char_eqb x y && startsWith p' s'
  | _ :: _, [] => false
  end.

(** [s.includes(p)] *)
Fixpoint includes (p s : str) : bool :=
  startsWith p s ||
  match s with
  | [] => false
  | _ :: s' => includes p s'
  end.

(** [s] without its longest prefix made of characters of the class. *)
Fixpoint drop_while (cls : char -> bool) (s : str) : str :=
  match s with
  | c :: s' => if cls c then drop_while cls s' else s
  | [] => []
  end.

(** The longest prefix of [s] made of characters of the class. *)
Fixpoint take_while (cls : char -> bool) (s : str) : str :=
  match s with
  | c :: s' => if cls c then c :: take_while cls s' else []
  | [] => []
  end.

(** The number of places of [s] at which [p] occurs. *)
Fixpoint occurrences (p s : str) : nat :=
  (if startsWith p s then 1 else 0)
  + match s with
    | [] => 0
    | _ :: s' => occurrences p s'
    end.

(** [s.slice(0, n)] and [s.slice(n)] for [0 <= n]. *)
Definition slice_to (n : nat) (s : str) : str := firstn n s.
Definition slice_from (n : nat) (s : str) : str := skipn n s.

End Js.

(* ================================================================== *)
(** ** Regular expressions

    The regular expressions of the two actions are sequences of character
    classes, each taken once or under [*], [+] or [*?], with at most one
    capture group around a class, and possibly [$] at the end.  [match_here]
    is the backtracking matcher of JavaScript restricted to these. *)

Module Re.
Import Js.

Inductive quant :=
| One          (* x *)
| Star         (* x*  : as many as possible first *)
| Plus         (* x+ *)
| LazyStar.    (* x*? : as few as possible first *)

Inductive atom :=
| Atom (cls : char -> bool) (q : quant) (captured : bool)
| AtEnd.       (* $, without the m flag *)

Definition regex := list atom.

(** The result of a match: the text of group 1 and the text left. *)
Definition keep (captured : bool) (c : char) (res : option (str * str))
  : option (str * str) :=
  match res with
  | Some (g, rest) => Some (if captured then c :: g else g, rest)
  | None => None
  end.

(** [keep] for a run of characters. *)
Definition keep_run (captured : bool) (run : str) (res : option (str * str))
  : option (str * str) :=
  match res with
  | Some (g, rest) => Some (if captured then run ++ g else g, rest)
  | None => None
  end.

(** [x*] followed by the rest of the expression [k]: the longest run of
    [x] first, then shorter ones. *)
Fixpoint greedy (cls : char -> bool) (cap : bool)
    (k : str -> option (str * str)) (s : str) : option (str * str) :=
  match s with
  | c :: s' =>
      if cls c then
        match keep cap c (greedy cls cap k s') with
        | Some x => Some x
        | None => k s
        end
      else k s
  | [] => k []
  end.

(** [x*?] followed by [k]: the shortest run of [x] first. *)
Fixpoint lazy (cls : char -> bool) (cap : bool)
    (k : str -> option (str * str)) (s : str) : option (str * str) :=
  match k s with
  | Some x => Some x
  | None =>
      match s with
      | c :: s' => if cls c then keep cap c (lazy cls cap k s') else None
      | [] => None
      end
  end.

(** One [x] followed by [k]. *)
Definition once (cls : char -> bool) (cap : bool)
    (k : str -> option (str * str)) (s : str) : option (str * str) :=
  match s with
  | c :: s' => if cls c then keep cap c (k s') else None
  | [] => None
  end.

(** The match of [r] at the start of [s], if any: group 1 and the text
    after the match. *)
Fixpoint match_here (r : regex) : str -> option (str * str) :=
  match r with
  | [] => fun s => Some ([], s)
  | AtEnd :: r' =>
      fun s => match s with [] => match_here r' [] | _ :: _ => None end
  | Atom cls q cap :: r' =>
      let k := match_here r' in
      match q with
      | One => once cls cap k
      | Star => greedy cls cap k
      | Plus => once cls cap (greedy cls cap k)
      | LazyStar => lazy cls cap k
      end
  end.

(** [re.exec(s)] from the start of [s]: the leftmost match, as the text
    before it, group 1, and the text after it. *)
Fixpoint exec (r : regex) (s : str) : option (str * str * str) :=
  match match_here r s with
  | Some (g, rest) => Some ([], g, rest)
  | None =>
      match s with
      | [] => None
      | c :: s' =>
          match exec r s' with
          | Some (pre, g, rest) => Some (c :: pre, g, rest)
          | None => None
          end
      end
  end.

(** [while ((match = re.exec(s)) !== null) out.add(match[1])] for a global
    regex: each search starts where the previous match ended.  [fuel] bounds
    the number of matches; a match of the regexes here is never empty, so
    the length of the text is enough. *)
Fixpoint exec_all_fuel (fuel : nat) (r : regex) (s : str) : list str :=
  match fuel with
  | O => []
  | S fuel' =>
      match exec r s with
      | Some (_, g, rest) => g :: exec_all_fuel fuel' r rest
      | None => []
      end
  end.

Definition exec_all (r : regex) (s : str) : list str :=
  exec_all_fuel (length s) r s.

(** [s.replace(re, '')], [re] without the g flag. *)
Definition replace_first (r : regex) (s : str) : str :=
  match exec r s with
  | Some (pre, _, rest) => pre ++ rest
  | None => s
  end.

(** [s.replace(re, '')], [re] with the g flag. *)
Fixpoint replace_all_fuel (fuel : nat) (r : regex) (s : str) : str :=
  match fuel with
  | O => s
  | S fuel' =>
      match exec r s with
      | Some (pre, _, rest) => pre ++ replace_all_fuel fuel' r rest
      | None => s
      end
  end.

Definition replace_all (r : regex) (s : str) : str :=
  replace_all_fuel (length s) r s.

(** Character classes. *)
Definition only (c : char) : char -> bool := char_eqb c.
Definition except (c : char) : char -> bool := fun x => negb (char_eqb c x).
Definition any : char -> bool := fun _ => true.

(** [\s]: the white space and line terminators of ECMAScript. *)
Definition is_space (c : char) : bool :=
  ((9 <=? c) && (c <=? 13) || (c =? 32) || (c =? 160) || (c =? 5760)
   || (8192 <=? c) && (c <=? 8202) || (c =? 8232) || (c =? 8233)
   || (c =? 8239) || (c =? 8287) || (c =? 12288) || (c =? 65279))%N.

Definition literal (s : str) : regex := map (fun c => Atom (only c) One false) s.

(** An expression whose matches are never empty. *)
Definition progress (r : regex) : Prop :=
  forall s g rest, match_here r s = Some (g, rest) -> length rest < length s.

(** A continuation that only consumes text. *)
Definition consuming (k : str -> option (str * str)) : Prop :=
  forall s g rest, k s = Some (g, rest) -> exists m, s = m ++ rest.

End Re.

(* ================================================================== *)
(** ** scripts/utils/queue.ts *)

Module Queue.

(** A value that a call of [task.queue()] rejects with, or that the executor
    throws: any value, as far as the source looks at it.  It tests
    [error instanceof TranslationRefusedError], reads [(error as Error).message]
    without a check, and tests the message with [if (message)] and
    [message.includes('429 Too Many Requests')].  What the reading and the
    test of the message do: *)
#[local] Unset Elimination Schemes.
Inductive message_read :=
| Text (s : Js.str)
    (* the message is the string s; the empty string also stands for any
       other falsy message: undefined (the value has none), null, 0, false *)
| Unreadable (thrown : JsError)
    (* reading error.message throws thrown: error is undefined or null and
       thrown is the TypeError created then, or message is a getter that
       throws *)
| Other (includes : bool)
    (* the message is truthy and no string, and message.includes(...) gives
       a truthy or a falsy value *)
| Uncallable (thrown : JsError)
    (* the message is truthy and message.includes(...) throws thrown, a
       TypeError when it is no function; or the test gives a falsy value
       and reading error.message again for the warning throws thrown *)
with JsError :=
| mkValue (refused : bool) (message : message_read).
#[local] Set Elimination Schemes.

(** [error instanceof TranslationRefusedError] *)
Definition refused (error : JsError) : bool :=
  match error with mkValue r _ => r end.

Definition message (error : JsError) : message_read :=
  match error with mkValue _ m => m end.

(** An [Error] object with a string message, of class
    [TranslationRefusedError] or not. *)
Definition mkError (refused : bool) (message : Js.str) : JsError :=
  mkValue refused (Text message).

(** What the [catch] block throws before it logs anything: the error of
    reading or testing the message, if any. *)
Definition message_fault (error : JsError) : option JsError :=
  match message error with
  | Unreadable thrown | Uncallable thrown => Some thrown
  | Text _ | Other _ => None
  end.

(** How one call of [task.queue()] settles. *)
Inductive outcome :=
| Fulfilled
| Rejected (e : JsError).

(** [QueueTask].  [queue] is called once per attempt, and only by
    [executeTaskWithRetry]: the settlement of a call is given by the number of
    calls made before it.  [resolve] and [reject] are those of the promise
    [addQueue] returns; [pid] names that promise. *)
Record QueueTask := mkTask {
  key : Js.str;
  queue : nat -> outcome;
  pid : nat
}.

Definition MAX_RETRIES : nat := 5.
Definition RETRY_DELAYS : list Z := [0; 1000; 2000; 8000; 10000; 60000]%Z.

(** What [executeTaskWithRetry] does besides settling. *)
Inductive effect :=
| Call (n : nat)                  (* await task.queue(), the call number n *)
| Delay (ms : Z)                  (* await delay(ms) *)
| LogWarn (k : Js.str) (e : JsError)
                                  (* log.warn('[', key, ']요청 실패:', e.message) *)
| LogDebug (e : JsError)          (* log.debug('\t', error) *)
| LogInfo (n : nat)               (* log.info(`... (${retryCount + 1})`) *)
| LogError (k : Js.str) (e : JsError).

Inductive result :=
| Returned                        (* the promise is fulfilled *)
| Thrown (e : JsError).           (* the promise is rejected with e *)

Definition TOO_MANY : Js.str := Js.lit "429 Too Many Requests".

(** The two logging statements guarded by [if (message)] and
    [if (!message.includes('429 Too Many Requests'))], for an error whose
    message is read and tested without a throw. *)
Definition failure_log (k : Js.str) (e : JsError) : list effect :=
  match message e with
  | Text [] => []
  | Text ((_ :: _) as m) =>
      if negb (Js.includes TOO_MANY m) then [LogWarn k e; LogDebug e] else []
  | Other includes =>
      if negb includes then [LogWarn k e; LogDebug e] else []
  | Unreadable _ | Uncallable _ => []
  end.

(** [RETRY_DELAYS[i]]; every index the function uses is in range. *)
Definition retry_delay (i : nat) : Z := nth i RETRY_DELAYS 0%Z.

(** [executeTaskWithRetry(task, retryCount)].  The recursion of the source is
    on [retryCount], which grows up to [MAX_RETRIES]; [fuel] bounds the number
    of calls left and [None] is returned when it runs out
    ([executeTaskWithRetry_total] shows it never does). *)
Fixpoint executeTaskWithRetry_fuel (fuel : nat) (task : QueueTask)
    (retryCount : nat) : option (result * list effect) :=
  match fuel with
  | O => None
  | S fuel' =>
      match queue task retryCount with
      | Fulfilled => Some (Returned, [Call retryCount])
      | Rejected error =>
          if refused error then Some (Thrown error, [Call retryCount])
          else
            match message_fault error with
            | Some thrown =>     (* the catch block throws *)
                Some (Thrown thrown, [Call retryCount])
            | None =>
                let logged := failure_log (key task) error in
                if retryCount <? MAX_RETRIES then
                  let retryDelay := retry_delay (retryCount + 1) in
                  match executeTaskWithRetry_fuel fuel' task (retryCount + 1) with
                  | None => None
                  | Some (r, effs) =>
                      Some (r, Call retryCount :: logged
                                ++ LogInfo (retryCount + 1) :: Delay retryDelay :: effs)
                  end
                else
                  Some (Thrown error,
                        Call retryCount :: logged ++ [LogError (key task) error])
            end
      end
  end.

Definition executeTaskWithRetry (task : QueueTask) (retryCount : nat)
  : option (result * list effect) :=
  executeTaskWithRetry_fuel (S MAX_RETRIES - retryCount) task retryCount.

(** The calls of [task.queue()] and the delays awaited, in order. *)
Definition calls_of (effs : list effect) : list nat :=
  flat_map (fun e => match e with Call n => [n] | _ => [] end) effs.

Definition delays_of (effs : list effect) : list Z :=
  flat_map (fun e => match e with Delay d => [d] | _ => [] end) effs.


(** *** The processor

    [processQueue] is an async function: it runs until its next [await] and
    is resumed later by the event loop.  A suspended invocation is one of *)
Inductive proc :=
| AwaitDelay (wake : Z)          (* at [await delay(100 - timeSinceLastRequest)] *)
| AwaitExec (task : QueueTask).  (* at [await executeTaskWithRetry(task)] *)

(** A call of a promise's [resolve] or [reject]. *)
Inductive settle :=
| Resolve
| Reject (e : JsError).

(** [new Error('큐 처리가 이전 에러로 인해 중단됨')] *)
Definition ABORT_MESSAGE : Js.str :=
  [53328; 32; 52376; 47532; 44032; 32; 51060; 51204; 32; 50640; 47084; 47196;
   32; 51064; 54644; 32; 51473; 45800; 46120]%N.
Definition queueAborted : JsError := mkError false ABORT_MESSAGE.

(** The module's variables, the suspended invocations of [processQueue], and
    what has been observed so far: the calls of [resolve]/[reject] (by
    promise, in order), and the dispatches (promise and the value stored in
    [lastRequestTime] for it, in order). *)
Record state := mkState {
  translationQueue : list QueueTask;
  lastRequestTime : Z;
  isProcessing : bool;
  procs : list proc;
  settled : list (nat * settle);
  dispatched : list (nat * Z);
  started : list (nat * list effect);  (* runs of executeTaskWithRetry *)
  next_pid : nat
}.

Definition init : state :=
  mkState [] 0 false [] [] [] [] 0.

Definition set_procs (ps : list proc) (st : state) : state :=
  mkState (translationQueue st) (lastRequestTime st) (isProcessing st) ps
          (settled st) (dispatched st) (started st) (next_pid st).

(** From [const task = translationQueue.shift()] to
    [await executeTaskWithRetry(task)]; [t] is the value of the [Date.now()]
    stored in [lastRequestTime].  Returns the state and the invocation's
    continuation ([None]: it has returned). *)
Definition dispatch (t : Z) (st : state) : state * option proc :=
  match translationQueue st with
  | [] =>   (* if (!task) break;  then isProcessing = false *)
      (mkState [] (lastRequestTime st) false (procs st) (settled st)
               (dispatched st) (started st) (next_pid st), None)
  | task :: rest =>
      (mkState rest t (isProcessing st) (procs st) (settled st)
               (dispatched st ++ [(pid task, t)]) (started st) (next_pid st),
       Some (AwaitExec task))
  end.

(** One turn of [while (translationQueue.length > 0)] up to the first
    [await]; [now] and [t] are the values of the two calls of [Date.now()]. *)
Definition loop (now t : Z) (st : state) : state * option proc :=
  match translationQueue st with
  | [] =>   (* the loop ends; isProcessing = false *)
      (mkState [] (lastRequestTime st) false (procs st) (settled st)
               (dispatched st) (started st) (next_pid st), None)
  | _ :: _ =>
      let timeSinceLastRequest := (now - lastRequestTime st)%Z in
      if (timeSinceLastRequest <? 100)%Z
      then (st, Some (AwaitDelay (now + (100 - timeSinceLastRequest))%Z))
      else dispatch t st
  end.

(** [processQueue()], up to its first [await]. *)
Definition processQueue (now t : Z) (st : state) : state * option proc :=
  if isProcessing st then (st, None)
  else
    loop now t
      (mkState (translationQueue st) (lastRequestTime st) true (procs st)
               (settled st) (dispatched st) (started st) (next_pid st)).

(** The [catch] of [processQueue]: reject the task, then every task left in
    the queue, and stop. *)
Definition abort (task : QueueTask) (error : JsError) (st : state) : state :=
  mkState [] (lastRequestTime st) false (procs st)
          (settled st ++ (pid task, Reject error)
             :: map (fun remainingTask => (pid remainingTask, Reject queueAborted))
                    (translationQueue st))
          (dispatched st) (started st) (next_pid st).

Definition add_settled (x : nat * settle) (st : state) : state :=
  mkState (translationQueue st) (lastRequestTime st) (isProcessing st)
          (procs st) (settled st ++ [x]) (dispatched st) (started st) (next_pid st).

Definition add_started (x : nat * list effect) (st : state) : state :=
  mkState (translationQueue st) (lastRequestTime st) (isProcessing st)
          (procs st) (settled st) (dispatched st) (started st ++ [x]) (next_pid st).

(** What the event loop can do next. *)
Inductive event :=
| AddQueue (k : Js.str) (newQueue : nat -> outcome) (now t : Z)
    (* a caller runs addQueue(key, newQueue) *)
| DelayDone (i : nat) (t : Z)
    (* the i-th suspended invocation is resumed after its delay *)
| ExecDone (i : nat) (now t : Z).
    (* the i-th suspended invocation is resumed after executeTaskWithRetry *)

(** Replace the i-th suspended invocation by its continuation. *)
Fixpoint resume (i : nat) (k : option proc) (ps : list proc) : list proc :=
  match ps, i with
  | [], _ => []
  | _ :: ps', O => match k with Some p => p :: ps' | None => ps' end
  | p :: ps', S i' => p :: resume i' k ps'
  end.

Definition spawn (k : option proc) (ps : list proc) : list proc :=
  match k with Some p => ps ++ [p] | None => ps end.

(** One step of the event loop; [None] when the event is not enabled. *)
Definition step (ev : event) (st : state) : option state :=
  match ev with
  | AddQueue k newQueue now t =>
      let task := mkTask k newQueue (next_pid st) in
      let st1 :=
        mkState (translationQueue st ++ [task]) (lastRequestTime st)
                (isProcessing st) (procs st) (settled st) (dispatched st)
                (started st) (S (next_pid st)) in
      let (st2, k) := processQueue now t st1 in
      Some (set_procs (spawn k (procs st2)) st2)
  | DelayDone i t =>
      match nth_error (procs st) i with
      | Some (AwaitDelay wake) =>
          let (st1, k) := dispatch t st in
          Some (set_procs (resume i k (procs st1)) st1)
      | _ => None
      end
  | ExecDone i now t =>
      match nth_error (procs st) i with
      | Some (AwaitExec task) =>
          match executeTaskWithRetry task 0 with
          | None => None
          | Some (Returned, effs) =>     (* task.resolve(), next turn *)
              let st0 := add_started (pid task, effs) st in
              let (st1, k) := loop now t (add_settled (pid task, Resolve) st0) in
              Some (set_procs (resume i k (procs st1)) st1)
          | Some (Thrown error, effs) => (* the catch block; return *)
              let st0 := add_started (pid task, effs) st in
              let st1 := abort task error st0 in
              Some (set_procs (resume i None (procs st1)) st1)
          end
      | _ => None
      end
  end.

(** A run of the event loop from a state. *)
Fixpoint run (evs : list event) (st : state) : option state :=
  match evs with
  | [] => Some st
  | ev :: evs' =>
      match step ev st with
      | Some st' => run evs' st'
      | None => None
      end
  end.

(** What a run of [executeTaskWithRetry] from [retryCount] looks like when it
    makes [k] calls. *)
Record run_shape (task : QueueTask) (retryCount k : nat)
    (r : result) (effs : list effect) : Prop := {
  shape_some : 1 <= k;
  shape_bound : retryCount + k <= S MAX_RETRIES;
  shape_calls : calls_of effs = seq retryCount k;
  shape_delays : delays_of effs = map retry_delay (seq (S retryCount) (k - 1));
  shape_retried : forall j, retryCount <= j < retryCount + k - 1 ->
      exists e, queue task j = Rejected e /\ refused e = false /\
                message_fault e = None;
  shape_last :
    match r with
    | Returned => queue task (retryCount + k - 1) = Fulfilled
    | Thrown e =>
        exists last,
          queue task (retryCount + k - 1) = Rejected last /\
          if refused last then e = last
          else match message_fault last with
               | Some thrown => e = thrown
               | None => e = last /\ retryCount + k - 1 = MAX_RETRIES
               end
    end
}.

(** *** The invariant of the event loop *)

(** The promises whose task is being executed. *)
Definition inflight (st : state) : list nat :=
  flat_map (fun p => match p with AwaitExec task => [pid task] | _ => [] end)
           (procs st).

(** The suspended invocations and the flag agree. *)
Definition shape_ok (st : state) : Prop :=
  match procs st with
  | [] => isProcessing st = false /\ translationQueue st = []
  | [AwaitDelay w] =>
      isProcessing st = true /\ translationQueue st <> [] /\
      w = (lastRequestTime st + 100)%Z
  | [AwaitExec task] =>
      isProcessing st = true /\
      exists d, dispatched st = d ++ [(pid task, lastRequestTime st)]
  | _ => False
  end.

Record Inv (st : state) : Prop := {
  inv_shape : shape_ok st;
  inv_pids :
    map fst (settled st) ++ inflight st ++ map pid (translationQueue st)
    = seq 0 (next_pid st);
  inv_sorted : StronglySorted lt (map fst (dispatched st));
  inv_bound :
    Forall (fun p => p < length (settled st) + length (inflight st))
           (map fst (dispatched st));
  inv_last : lastRequestTime st = last (map snd (dispatched st)) 0%Z
}.

(** The clock and the timer, as far as the processor relies on them: within
    one turn [Date.now()] does not go back, and [await delay(ms)] resumes no
    earlier than [ms] after the reading that preceded it. *)
Definition timed (st : state) (ev : event) : Prop :=
  match ev with
  | AddQueue _ _ now t => (now <= t)%Z
  | DelayDone i t =>
      forall wake, nth_error (procs st) i = Some (AwaitDelay wake) -> (wake <= t)%Z
  | ExecDone _ now t => (now <= t)%Z
  end.

Fixpoint timed_run (evs : list event) (st : state) : Prop :=
  match evs with
  | [] => True
  | ev :: evs' =>
      timed st ev /\
      match step ev st with
      | Some st' => timed_run evs' st'
      | None => True
      end
  end.

(** Consecutive instants are at least 100 ms apart. *)
Fixpoint spaced (l : list Z) : Prop :=
  match l with
  | a :: (b :: _) as r => (a + 100 <= b)%Z /\ spaced r
  | _ => True
  end.

(** Example runs, used to exercise the theorems below. *)
Definition ok_task : nat -> outcome := fun _ => Fulfilled.


Definition refusal : JsError := mkError true (Js.lit "refused: SAFETY").
Definition refused_task : nat -> outcome := fun _ => Rejected refusal.

Definition scenario_B : list event :=
  [ AddQueue (Js.lit "a") ok_task 1000 1000;
    AddQueue (Js.lit "b") refused_task 1001 1001;
    AddQueue (Js.lit "c") ok_task 1002 1002;
    ExecDone 0 2000 2000 ]%Z.

Definition paced_run : list event :=
  [ AddQueue (Js.lit "a") ok_task 1000 1000;
    AddQueue (Js.lit "b") ok_task 1001 1001;
    ExecDone 0 1050 1050;
    DelayDone 0 1100 ]%Z.

Definition state_after (evs : list event) : state :=
  match run evs init with
  | Some st => st
  | None => init
  end.

(** *** Further notions about the queue *)

(** The events that resume a suspended invocation: no task is added. *)
Definition is_resume (ev : event) : bool :=
  match ev with
  | AddQueue _ _ _ _ => false
  | _ => true
  end.

(** A bound on the resumptions left: two for a queued task and for the task
    that is being executed (the end of its execution, then the delay of the
    next one), one for a delay that is being awaited. *)
Definition remaining (st : state) : nat :=
  2 * length (translationQueue st)
  + list_sum (map (fun p => match p with AwaitDelay _ => 1 | AwaitExec _ => 2 end)
                  (procs st)).

(** The tasks that the calls of [addQueue] of a run create, in order; the
    first one names its promise [n]. *)
Fixpoint submitted_from (n : nat) (evs : list event) : list QueueTask :=
  match evs with
  | [] => []
  | AddQueue k newQueue _ _ :: evs' =>
      mkTask k newQueue n :: submitted_from (S n) evs'
  | _ :: evs' => submitted_from n evs'
  end.

Definition submitted (evs : list event) : list QueueTask := submitted_from 0 evs.

(** The failures that [executeTaskWithRetry] does not warn about: those
    whose message is falsy, or holds '429 Too Many Requests', or for which
    [message.includes(...)] is truthy. *)
Definition quiet_failure (e : JsError) : bool :=
  match message e with
  | Text [] => true
  | Text ((_ :: _) as m) => Js.includes TOO_MANY m
  | Other includes => includes
  | Unreadable _ | Uncallable _ => true
  end.

(** The time awaited by the delays of a run, in ms. *)
Definition total_delay (effs : list effect) : Z :=
  fold_right Z.add 0%Z (delays_of effs).

(** The tasks that are being executed. *)
Definition executing (st : state) : list QueueTask :=
  flat_map (fun p => match p with AwaitExec task => [task] | _ => [] end)
           (procs st).

(** A settlement is right, for the tasks created so far: a promise is
    resolved when the execution of its task returned; it is rejected with
    the error that the execution of its task threw, or, its task never
    executed, with the queue-aborted error after the execution of an earlier
    task threw. *)
Definition settled_right (tasks : list QueueTask) (st : state)
    (x : nat * settle) : Prop :=
  exists task,
    nth_error tasks (fst x) = Some task /\
    match snd x with
    | Resolve =>
        exists effs,
          executeTaskWithRetry task 0 = Some (Returned, effs) /\
          In (fst x, effs) (started st)
    | Reject e =>
        (exists effs,
           executeTaskWithRetry task 0 = Some (Thrown e, effs) /\
           In (fst x, effs) (started st))
        \/
        (e = queueAborted /\ ~ In (fst x) (map fst (started st)) /\
         exists p' task' e' effs',
           p' < fst x /\ nth_error tasks p' = Some task' /\
           executeTaskWithRetry task' 0 = Some (Thrown e', effs') /\
           In (p', Reject e') (settled st))
    end.

(** Two tasks are submitted together. *)
Definition two_tasks : list event :=
  [ AddQueue (Js.lit "a") ok_task 1000 1000;
    AddQueue (Js.lit "b") ok_task 1001 1001 ]%Z.

(** What a run keeps track of, for the tasks created so far: every task
    that is executed or queued is the one created under its promise's
    name, every settlement made is right, and every execution that ended
    was followed by a settlement. *)
Definition tracked (tasks : list QueueTask) (st : state) : Prop :=
  length tasks = next_pid st /\
  Forall (fun task => nth_error tasks (pid task) = Some task)
         (executing st ++ translationQueue st) /\
  Forall (settled_right tasks st) (settled st) /\
  Forall (fun x => In (fst x) (map fst (settled st))) (started st).

(** Three tasks of which the second one is refused: the third one is never
    executed. *)
Definition aborted_run : list event :=
  [ AddQueue (Js.lit "a") ok_task 1000 1000;
    AddQueue (Js.lit "b") refused_task 1001 1001;
    AddQueue (Js.lit "c") ok_task 1002 1002;
    ExecDone 0 2000 2000;
    ExecDone 0 3000 3000 ]%Z.

End Queue.

(* ================================================================== *)
(** ** .github/actions/create-untranslated-issues/index.js *)

Module Issues.
Import Js Re.

(** *** Values read from the report *)

(** A value of [JSON.parse].  Of a number only two things are used: whether
    it is zero (its truthiness) and its text in a template literal.  An
    object is the list of its properties, each name once. *)
#[local] Unset Elimination Schemes.
Inductive json :=
| JNull
| JBool (b : bool)
| JNum (is_zero : bool) (text : str)
| JStr (s : str)
| JArr (elems : list json)
| JObj (props : list (str * json)).
#[local] Set Elimination Schemes.

Fixpoint assoc (A : Type) (name : str) (props : list (str * A)) : option A :=
  match props with
  | [] => None
  | (n, v) :: r => if str_eqb n name then Some v else assoc name r
  end.

(** [v.name] for a [v] that is not null, and a name that no array or string
    has of its own ([items], [mod], [file], [key], [message], [timestamp]);
    [None] is [undefined]. *)
Definition get (v : json) (name : str) : option json :=
  match v with
  | JObj props => assoc name props
  | _ => None
  end.

(** [!v] *)
Definition falsy (v : json) : bool :=
  match v with
  | JNull => true
  | JBool b => negb b
  | JNum z _ => z
  | JStr s => match s with [] => true | _ => false end
  | JArr _ => false
  | JObj _ => false
  end.

Fixpoint join (sep : str) (l : list str) : str :=
  match l with
  | [] => []
  | [x] => x
  | x :: r => x ++ sep ++ join sep r
  end.

(** [`${v}`], for a value whose objects have no property [toString] of
    their own: such an object is printed by [Object.prototype.toString]. *)
Fixpoint text_of (v : json) : str :=
  match v with
  | JNull => lit "null"
  | JBool true => lit "true"
  | JBool false => lit "false"
  | JNum _ t => t
  | JStr s => s
  | JArr l =>
      join (lit ",")
        ((fix elems (l : list json) : list str :=
            match l with
            | [] => []
            | JNull :: r => [] :: elems r
            | x :: r => text_of x :: elems r
            end) l)
  | JObj _ => lit "[object Object]"
  end.

Definition text_of_prop (v : option json) : str :=
  match v with
  | None => lit "undefined"
  | Some x => text_of x
  end.

(** An element of [data.items] that passes the check of the required
    properties. *)
Record Item := mkItem {
  mod_ : str;
  file : str;
  key : str;
  message : str
}.

Definition as_item (item : json) : option Item :=
  if falsy item then None
  else
    match get item (lit "mod"), get item (lit "file"),
          get item (lit "key"), get item (lit "message") with
    | Some (JStr m), Some (JStr f), Some (JStr k), Some (JStr msg) =>
        Some (mkItem m f k msg)
    | _, _, _, _ => None
    end.

(** What the action does, in order: its log and its requests. *)
Inductive effect :=
| SetFailedInput                    (* game or github-token is missing *)
| SetFailedParse                    (* the report is not JSON *)
| SetFailedError                    (* the outer catch *)
| InfoNothing                       (* '번역되지 않은 항목이 없습니다.' *)
| ListIssues (game : str)           (* issues.listForRepo, state open *)
| WarnSkipped (item : json)         (* 'Skipping item with missing ...' *)
| InfoNoNewItems (number : nat)
| WarnNoTable                       (* '테이블을 찾을 수 없습니다' *)
| UpdateIssue (number : nat) (body : str)
| InfoUpdated (number : nat) (added : nat)
| CreateIssue (title : str) (body : str) (labels : list str)
| InfoCreated.

(** *** Grouping by mod *)

(** [itemsByMod[item.mod].push(item)], creating the array when the mod is
    new; the list keeps the order in which the properties were created. *)
Fixpoint push_item (item : Item) (groups : list (str * list Item))
  : list (str * list Item) :=
  match groups with
  | [] => [(mod_ item, [item])]
  | (m, l) :: r =>
      if str_eqb m (mod_ item) then (m, l ++ [item]) :: r
      else (m, l) :: push_item item r
  end.

(** The loop over [data.items]: the groups and the warnings. *)
Fixpoint group_items (items : list json) (groups : list (str * list Item))
  : list (str * list Item) * list effect :=
  match items with
  | [] => (groups, [])
  | item :: r =>
      match as_item item with
      | None =>
          let (g, w) := group_items r groups in (g, WarnSkipped item :: w)
      | Some it => group_items r (push_item it groups)
      end
  end.

(** A property name that is an array index: the canonical decimal text of
    an integer below 2^32 - 1. *)
Definition is_digit (c : char) : bool := ((48 <=? c) && (c <=? 57))%N.

Definition digits_value (s : str) : N :=
  fold_left (fun acc c => (acc * 10 + (c - 48))%N) s 0%N.

Definition array_index (name : str) : option N :=
  match name with
  | [] => None
  | c :: r =>
      if forallb is_digit name
         && (negb (c =? 48)%N || match r with [] => true | _ => false end)
         && (length name <=? 10)
         && (digits_value name <? 4294967295)%N
      then Some (digits_value name)
      else None
  end.

Fixpoint insert_index (A : Type) (x : N * A) (l : list (N * A)) : list (N * A) :=
  match l with
  | [] => [x]
  | y :: r => if (fst x <? fst y)%N then x :: y :: r else y :: insert_index x r
  end.

(** [Object.entries(itemsByMod)]: the array indices in increasing order,
    then the other names in the order of their creation. *)
Definition entries (A : Type) (groups : list (str * A)) : list (str * A) :=
  let indexed :=
    fold_right
      (fun g acc =>
         match array_index (fst g) with
         | Some n => insert_index (n, g) acc
         | None => acc
         end) [] groups in
  map snd indexed
  ++ filter (fun g => match array_index (fst g) with Some _ => false | None => true end)
            groups.

(** *** Text of the issues *)

Definition NL : char := 10%N.
Definition PIPE : char := 124%N.
Definition BACKTICK : char := 96%N.
Definition BACKSLASH : char := 92%N.
Definition SPACE : char := 32%N.

(** '**마지막 업데이트**:' *)
Definition LAST_UPDATE : str :=
  [42; 42; 47560; 51648; 47561; 32; 50629; 45936; 51060; 53944; 42; 42; 58]%N.

(** '] 번역 거부 항목 발생: ' *)
Definition TITLE_MIDDLE : str :=
  [93; 32; 48264; 50669; 32; 44144; 48512; 32; 54637; 47785; 32; 48156;
   49373; 58; 32]%N.

(** '## 번역 거부 항목\n\n' *)
Definition HEADING : str :=
  [35; 35; 32; 48264; 50669; 32; 44144; 48512; 32; 54637; 47785; 10; 10]%N.

(** '**게임**: ', '**모드**: ', '**발생 시간**: ' *)
Definition GAME_LABEL : str := [42; 42; 44172; 51076; 42; 42; 58; 32]%N.
Definition MOD_LABEL : str := [42; 42; 47784; 46300; 42; 42; 58; 32]%N.
Definition TIME_LABEL : str :=
  [42; 42; 48156; 49373; 32; 49884; 44036; 42; 42; 58; 32]%N.

(** '### 항목 목록\n\n' *)
Definition LIST_HEADING : str :=
  [35; 35; 35; 32; 54637; 47785; 32; 47785; 47197; 10; 10]%N.

(** '| 파일 | 키 | 원문 |\n' and '|------|-----|------|\n' *)
Definition TABLE_HEAD : str :=
  [124; 32; 54028; 51068; 32; 124; 32; 53412; 32; 124; 32; 50896; 47928; 32;
   124; 10]%N.
Definition TABLE_RULE : str := lit "|------|-----|------|" ++ [NL].

(** '이 이슈는 자동으로 생성되었습니다. 수동 번역이 필요한 항목입니다.\n' *)
Definition FOOTER : str :=
  [51060; 32; 51060; 49800; 45716; 32; 51088; 46041; 51004; 47196; 32; 49373;
   49457; 46104; 50632; 49845; 45768; 45796; 46; 32; 49688; 46041; 32; 48264;
   50669; 51060; 32; 54596; 50836; 54620; 32; 54637; 47785; 51077; 45768;
   45796; 46; 10]%N.

(** '<details><summary>전체 메시지 보기</summary>\n\n```\n' *)
Definition DETAILS_OPEN : str :=
  lit "<details><summary>"
  ++ [51204; 52404; 32; 47700; 49884; 51648; 32; 48372; 44592]%N
  ++ lit "</summary>" ++ [NL; NL] ++ lit "```" ++ [NL].

(** '\n```\n\n</details>\n' *)
Definition DETAILS_CLOSE : str :=
  [NL] ++ lit "```" ++ [NL; NL] ++ lit "</details>" ++ [NL].

(** [s.replace(/c/g, by)] for a single character [c]. *)
Definition replace_char (c : char) (by_ : str) (s : str) : str :=
  flat_map (fun x => if char_eqb x c then by_ else [x]) s.

(** [rawMessage.replace(/\|/g, '\\|').replace(/\n/g, ' ').replace(/`/g, '\\`')] *)
Definition escapedMessage (rawMessage : str) : str :=
  replace_char BACKTICK [BACKSLASH; BACKTICK]
    (replace_char NL [SPACE]
       (replace_char PIPE [BACKSLASH; PIPE] rawMessage)).

(** [rawMessage.replace(/\|/g, '\\|').replace(/`/g, '\\`')] *)
Definition detailsMessage (rawMessage : str) : str :=
  replace_char BACKTICK [BACKSLASH; BACKTICK]
    (replace_char PIPE [BACKSLASH; PIPE] rawMessage).

(** [rawMessage.length > 100 || rawMessage.includes('\n')] *)
Definition folded (rawMessage : str) : bool :=
  (100 <? length rawMessage) || includes [NL] rawMessage.

(** The row of an item, with its details section when the message is
    folded; the same statements build it in both branches of the source. *)
Definition row (item : Item) : str :=
  let rawMessage := message item in
  let displayMessage :=
    if folded rawMessage
    then slice_to 100 (escapedMessage rawMessage) ++ lit "..."
    else escapedMessage rawMessage in
  let detailsSection :=
    if folded rawMessage
    then DETAILS_OPEN ++ detailsMessage rawMessage ++ DETAILS_CLOSE
    else [] in
  lit "| " ++ file item ++ lit " | `" ++ key item ++ lit "` | "
  ++ displayMessage ++ lit " |" ++ [NL] ++ detailsSection.

Definition rows (items : list Item) : str := flat_map row items.

(** The body of a new issue. *)
Definition new_body (gameDisplayName mod_name timestamp : str)
    (items : list Item) : str :=
  HEADING
  ++ GAME_LABEL ++ gameDisplayName ++ [NL]
  ++ MOD_LABEL ++ mod_name ++ [NL]
  ++ TIME_LABEL ++ timestamp ++ [NL; NL]
  ++ LIST_HEADING
  ++ TABLE_HEAD
  ++ TABLE_RULE
  ++ rows items
  ++ [NL] ++ lit "---" ++ [NL]
  ++ FOOTER.

(** [/\|\s*[^|]+\s*\|\s*`([^`]+)`\s*\|/g] *)
Definition keyRegex : regex :=
  [ Atom (only PIPE) One false;
    Atom is_space Star false;
    Atom (except PIPE) Plus false;
    Atom is_space Star false;
    Atom (only PIPE) One false;
    Atom is_space Star false;
    Atom (only BACKTICK) One false;
    Atom (except BACKTICK) Plus true;
    Atom (only BACKTICK) One false;
    Atom is_space Star false;
    Atom (only PIPE) One false ].

(** The keys an issue body already lists (the members of [existingKeys],
    in the order of their insertion, repetitions included). *)
Definition existingKeys (existingBody : str) : list str :=
  exec_all keyRegex existingBody.

(** [existingKeys.has(k)] *)
Definition has (keys : list str) (k : str) : bool :=
  existsb (str_eqb k) keys.

(** [/\*\*마지막 업데이트\*\*:.*?\n+/s] *)
Definition lastUpdateRegex : regex :=
  literal LAST_UPDATE ++ [Atom any LazyStar false; Atom (only NL) Plus false].

(** [/\n---\n[\s\S]*$/s] *)
Definition footerRegex : regex :=
  literal ([NL] ++ lit "---" ++ [NL]) ++ [Atom any Star false; AtEnd].

(** [s.split('\n')] *)
Fixpoint split_lines (s : str) : list str :=
  match s with
  | [] => [[]]
  | c :: r =>
      if char_eqb c NL then [] :: split_lines r
      else
        match split_lines r with
        | [] => [[c]]
        | l :: ls => (c :: l) :: ls
        end
  end.

(** [s.trim()] *)
Fixpoint trim_start (s : str) : str :=
  match s with
  | c :: r => if is_space c then trim_start r else s
  | [] => []
  end.

Definition trim (s : str) : str := rev (trim_start (rev (trim_start s))).

(** The first [i] with [lines[i].trim().startsWith('|')], from [i0] on. *)
Fixpoint find_table_start (lines : list str) (i0 : nat) : option nat :=
  match lines with
  | [] => None
  | l :: r =>
      if startsWith [PIPE] (trim l) then Some i0
      else find_table_start r (S i0)
  end.

(** The lines a table may go on with. *)
Definition table_line (l : str) : bool :=
  let line := trim l in
  startsWith [PIPE] line || startsWith (lit "<details>") line
  || startsWith (lit "</details>") line
  || match line with [] => true | _ => false end.

(** The loop [for (let i = ...; i < lines.length; i++)] over the lines from
    index [i] on: [tableEndLine] at the [break] or at the end. *)
Fixpoint find_table_end (rest : list str) (i tableEndLine : nat) : nat :=
  match rest with
  | [] => tableEndLine
  | l :: r =>
      if table_line l then find_table_end r (S i) i
      else tableEndLine
  end.

(** *** The update of an existing issue *)

(** From the removal of the last-update line to the new body; [None] when
    no line starts a table ([tableStartLine === -1]). *)
Definition updated_body (existingBody : str) (newItems : list Item)
    (timestamp : str) : option str :=
  let updatedBody := replace_first lastUpdateRegex existingBody in
  let updatedBody := replace_first footerRegex updatedBody in
  let lines := split_lines updatedBody in
  match find_table_start lines 0 with
  | None => None
  | Some tableStartLine =>
      let tableEndLine :=
        find_table_end (skipn (tableStartLine + 2) lines)
                       (tableStartLine + 2) (tableStartLine + 1) in
      let insertPosition :=
        if 0 <? tableEndLine then
          let p := length (join [NL] (firstn (tableEndLine + 1) lines)) in
          if p <? length updatedBody then p + 1 else p
        else length updatedBody in
      let newRows := rows newItems in
      Some (slice_to insertPosition updatedBody ++ newRows
            ++ slice_from insertPosition updatedBody
            ++ [NL] ++ LAST_UPDATE ++ [SPACE] ++ timestamp ++ [NL; NL]
            ++ lit "---" ++ [NL]
            ++ FOOTER)
  end.

(** An open issue as [issues.listForRepo] returns it; [body] may be null. *)
Record Issue := mkIssue {
  number : nat;
  title : str;
  body : option str
}.

(** [existingIssue.body || ''] *)
Definition body_or_empty (issue : Issue) : str :=
  match body issue with
  | Some b => b
  | None => []
  end.

Definition issue_title (gameDisplayName mod_name : str) : str :=
  lit "[" ++ gameDisplayName ++ TITLE_MIDDLE ++ mod_name.

(** The body of the loop over [Object.entries(itemsByMod)]. *)
Definition reconcile_group (game gameDisplayName timestamp : str)
    (existingIssues : list Issue) (group : str * list Item) : list effect :=
  let (mod_name, items) := group in
  let title_ := issue_title gameDisplayName mod_name in
  match find (fun issue => str_eqb (title issue) title_) existingIssues with
  | Some existingIssue =>
      let existingBody := body_or_empty existingIssue in
      let keys := existingKeys existingBody in
      let newItems := filter (fun item => negb (has keys (key item))) items in
      match newItems with
      | [] => [InfoNoNewItems (number existingIssue)]
      | _ :: _ =>
          match updated_body existingBody newItems timestamp with
          | None => [WarnNoTable]
          | Some updatedBody =>
              [UpdateIssue (number existingIssue) updatedBody;
               InfoUpdated (number existingIssue) (length newItems)]
          end
      end
  | None =>
      [CreateIssue title_ (new_body gameDisplayName mod_name timestamp items)
                   [lit "translation-refused"; game];
       InfoCreated]
  end.

(** The report file. *)
Inductive report :=
| Absent                      (* !fs.existsSync(filePath) *)
| Unparsable                  (* JSON.parse throws *)
| Parsed (data : json).

(** The code points of a string, which [for ... of] iterates over. *)
Definition high_surrogate (c : char) : bool := ((55296 <=? c) && (c <=? 56319))%N.
Definition low_surrogate (c : char) : bool := ((56320 <=? c) && (c <=? 57343))%N.

Fixpoint code_points (s : str) : list str :=
  match s with
  | [] => []
  | c :: r =>
      match r with
      | d :: r' =>
          if high_surrogate c && low_surrogate d
          then match code_points r with
               | _ :: ps => [c; d] :: ps
               | [] => [[c; d]]
               end
          else [c] :: code_points r
      | [] => [[c]]
      end
  end.

(** [for (const item of v)]: the elements, or [None] when [v] is not
    iterable. *)
Definition iterate (v : json) : option (list json) :=
  match v with
  | JArr l => Some l
  | JStr s => Some (map JStr (code_points s))
  | _ => None
  end.

(** [v.length === 0] *)
Definition length_is_zero (v : json) : bool :=
  match v with
  | JArr [] => true
  | JStr [] => true
  | JObj props =>
      match assoc (lit "length") props with
      | Some (JNum true _) => true
      | _ => false
      end
  | _ => false
  end.

Definition display_name (game : str) : str :=
  if str_eqb game (lit "ck3") then lit "CK3"
  else if str_eqb game (lit "vic3") then lit "VIC3"
  else if str_eqb game (lit "stellaris") then lit "Stellaris"
  else game.

Record inputs := mkInputs {
  INPUT_GAME : option str;
  INPUT_GITHUB_TOKEN : option str;
  report_file : report;
  open_issues : list Issue        (* the answer of issues.listForRepo *)
}.

(** [!s] for an environment variable *)
Definition missing (v : option str) : bool :=
  match v with
  | None | Some [] => true
  | Some (_ :: _) => false
  end.

(** [run()] of the action that creates and updates the issues; the requests
    to GitHub succeed. *)
Definition run (i : inputs) : list effect :=
  match INPUT_GAME i with
  | None | Some [] => [SetFailedInput]
  | Some game =>
      if missing (INPUT_GITHUB_TOKEN i) then [SetFailedInput]
      else
        let gameDisplayName := display_name game in
        match report_file i with
        | Absent => [InfoNothing]
        | Unparsable => [SetFailedParse]
        | Parsed JNull => [SetFailedError]   (* data.items of null *)
        | Parsed data =>
            match get data (lit "items") with
            | None => [InfoNothing]
            | Some items =>
                if falsy items || length_is_zero items then [InfoNothing]
                else
                  ListIssues game ::
                  match iterate items with
                  | None => [SetFailedError]   (* items is not iterable *)
                  | Some elems =>
                      let (itemsByMod, warnings) := group_items elems [] in
                      let timestamp := text_of_prop (get data (lit "timestamp")) in
                      warnings
                      ++ flat_map
                           (reconcile_group game gameDisplayName timestamp
                                            (open_issues i))
                           (entries itemsByMod)
                  end
            end
        end
  end.

(** *** Notions used to state the properties *)

(** [keyRegex] read from left to right, without search: after the second
    [|], white space, a key between backticks, white space and a [|]. *)
Definition keytail (b : str) : option (str * str) :=
  match drop_while is_space b with
  | c :: t =>
      if char_eqb c BACKTICK then
        match take_while (except BACKTICK) t, drop_while (except BACKTICK) t with
        | (_ :: _) as k, _ :: t' =>
            match drop_while is_space t' with
            | c' :: rest => if char_eqb c' PIPE then Some (k, rest) else None
            | [] => None
            end
        | _, _ => None
        end
      else None
  | [] => None
  end.

(** A [|], a first cell that is not empty, a [|], and [keytail]. *)
Definition match_key (s : str) : option (str * str) :=
  match s with
  | c :: t =>
      if char_eqb c PIPE then
        match take_while (except PIPE) t, drop_while (except PIPE) t with
        | _ :: _, _ :: b => keytail b
        | _, _ => None
        end
      else None
  | [] => None
  end.

(** A reading of a text that tells that no key can be matched in it: after
    a [|] or white space ([Open]) a backtick must be followed by another
    one ([Pending]); [None] when it is not. *)
Inductive gstate := Normal | Open | Pending.

Definition gstep (st : gstate) (c : char) : option gstate :=
  match st with
  | Pending => if char_eqb c BACKTICK then Some Normal else None
  | Open =>
      if char_eqb c BACKTICK then Some Pending
      else if char_eqb c PIPE || is_space c then Some Open else Some Normal
  | Normal =>
      if char_eqb c BACKTICK then Some Normal
      else if char_eqb c PIPE || is_space c then Some Open else Some Normal
  end.

Fixpoint grun (st : gstate) (s : str) : option gstate :=
  match s with
  | [] => Some st
  | c :: r =>
      match gstep st c with
      | Some st' => grun st' r
      | None => None
      end
  end.

(** Every backtick follows a backslash ([after_backslash]: the character
    before the text is one). *)
Fixpoint escaped (after_backslash : bool) (s : str) : bool :=
  match s with
  | [] => true
  | c :: r =>
      (if char_eqb c BACKTICK then after_backslash else true)
      && escaped (char_eqb c BACKSLASH) r
  end.

(** What a row has after the [|] that closes its key cell. *)
Definition after_key (item : Item) : str :=
  let rawMessage := message item in
  [SPACE]
  ++ (if folded rawMessage
      then slice_to 100 (escapedMessage rawMessage) ++ lit "..."
      else escapedMessage rawMessage)
  ++ lit " |" ++ [NL]
  ++ (if folded rawMessage
      then DETAILS_OPEN ++ detailsMessage rawMessage ++ DETAILS_CLOSE
      else []).

Definition has_char (c : char) (s : str) : bool := existsb (char_eqb c) s.

(** The items whose row the key expression reads as it was written: no [|]
    and no backtick in the file name, a key that is not empty and has no
    backtick. *)
Definition table_safe (item : Item) : bool :=
  negb (has_char PIPE (file item)) && negb (has_char BACKTICK (file item))
  && negb (has_char BACKTICK (key item))
  && match key item with [] => false | _ :: _ => true end.

(** The layout of a body.  Its text up to the last row of the table: *)
Definition table_text (gameDisplayName mod_name timestamp : str)
    (items : list Item) : str :=
  HEADING
  ++ GAME_LABEL ++ gameDisplayName ++ [NL]
  ++ MOD_LABEL ++ mod_name ++ [NL]
  ++ TIME_LABEL ++ timestamp ++ [NL; NL]
  ++ LIST_HEADING
  ++ TABLE_HEAD
  ++ TABLE_RULE
  ++ rows items.

(** ['\n---\n'] *)
Definition RULE : str := [NL] ++ lit "---" ++ [NL].

(** The end of a body as [run] creates it, and as an update leaves it. *)
Definition created_end : str := RULE ++ FOOTER.

Definition updated_end (timestamp : str) : str :=
  [NL] ++ LAST_UPDATE ++ [SPACE] ++ timestamp ++ [NL; NL]
  ++ lit "---" ++ [NL]
  ++ FOOTER.

(** Lines, each followed by a line break. *)
Definition unlines (ls : list str) : str := flat_map (fun l => l ++ [NL]) ls.

(** The texts of a header for which the layout is kept by an update: a
    header field has no line break, no [|] and no last-update marker; a
    time of update has no line break and no backtick. *)
Definition plain_field (s : str) : bool :=
  negb (has_char NL s) && negb (has_char PIPE s)
  && negb (includes LAST_UPDATE s).

Definition plain_stamp (s : str) : bool :=
  negb (has_char NL s) && negb (has_char BACKTICK s).

Definition DASH : char := 45%N.

(** A line that an update keeps: it holds no last-update marker and is not
    the rule ['---']. *)
Definition good_line (l : str) : bool :=
  negb (has_char NL l) && negb (includes LAST_UPDATE l)
  && negb (str_eqb l (lit "---")).

(** The lines of [table_text]. *)
Definition header_lines (gameDisplayName mod_name timestamp : str) : list str :=
  [ removelast (removelast HEADING); [];
    GAME_LABEL ++ gameDisplayName;
    MOD_LABEL ++ mod_name;
    TIME_LABEL ++ timestamp; [];
    removelast (removelast LIST_HEADING); [];
    removelast TABLE_HEAD;
    removelast TABLE_RULE ].

(** The line of a row up to the [|] that closes its key cell. *)
Definition row_head (f k : str) : str :=
  lit "| " ++ f ++ lit " | `" ++ k ++ lit "` |".

(** A line of a body: the line of a row, given by its file, its key and
    what follows the key cell, or another line. *)
Inductive line :=
| RowLine (f k w : str)
| TextLine (w : str).

Definition line_text (l : line) : str :=
  match l with
  | RowLine f k w => row_head f k ++ w
  | TextLine w => w
  end.

(** What a line has after its key cell, if it has one. *)
Definition line_rest (l : line) : str :=
  match l with
  | RowLine _ _ w => w
  | TextLine w => w
  end.

Definition line_keys (ls : list line) : list str :=
  flat_map (fun l => match l with RowLine _ k _ => [k] | TextLine _ => [] end) ls.

(** '<details><summary>전체 메시지 보기</summary>' *)
Definition SUMMARY_LINE : str :=
  lit "<details><summary>"
  ++ [51204; 52404; 32; 47700; 49884; 51648; 32; 48372; 44592]%N
  ++ lit "</summary>".

Definition FENCE : str := lit "```".

(** The lines of the row of an item, details included. *)
Definition item_lines (item : Item) : list line :=
  let rawMessage := message item in
  if folded rawMessage then
    RowLine (file item) (key item)
            ([SPACE] ++ (slice_to 100 (escapedMessage rawMessage) ++ lit "...")
             ++ lit " |")
    :: TextLine SUMMARY_LINE :: TextLine [] :: TextLine FENCE
    :: map TextLine (split_lines (detailsMessage rawMessage))
    ++ [TextLine FENCE; TextLine []; TextLine (lit "</details>")]
  else
    [RowLine (file item) (key item)
             ([SPACE] ++ escapedMessage rawMessage ++ lit " |")].

(** The items whose rows the updates keep: a table-safe item, no line of
    whose row has a line break inside (the file and the key have none),
    holds the last-update marker, or is the rule ['---']. *)
Definition tame (item : Item) : bool :=
  table_safe item
  && forallb (fun l => good_line (line_text l)) (item_lines item).

(** The bodies of the issue of a mod that the action has written: created
    for tame items, then updated any number of times with tame items. *)
Inductive written (gameDisplayName mod_name : str) : str -> Prop :=
| written_new (created : str) (items : list Item) :
    plain_field created = true ->
    Forall (fun item => tame item = true) items ->
    written gameDisplayName mod_name
            (new_body gameDisplayName mod_name created items)
| written_update (existingBody timestamp : str) (newItems : list Item)
                 (updatedBody : str) :
    written gameDisplayName mod_name existingBody ->
    plain_stamp timestamp = true ->
    Forall (fun item => tame item = true) newItems ->
    updated_body existingBody newItems timestamp = Some updatedBody ->
    written gameDisplayName mod_name updatedBody.

(** A line in which the keys are read as they were written: what follows
    the key cell, or the whole line, holds no key cell, and the file and the
    key of a row are those of a table-safe item. *)
Definition readable (l : line) : Prop :=
  grun Open (line_rest l ++ [NL]) = Some Open /\
  match l with
  | RowLine f k _ =>
      ~ In PIPE f /\ ~ In BACKTICK f /\ ~ In BACKTICK k /\ k <> []
  | TextLine _ => True
  end.

(** A body in the layout that the action writes and keeps: the header, lines
    that are good and readable, and the end of a body. *)
Inductive laid_out (gameDisplayName mod_name : str) : str -> Prop :=
| laid_out_intro (created : str) (ls : list line) (ending : str) :
    plain_field created = true ->
    Forall (fun l => good_line (line_text l) = true) ls ->
    Forall readable ls ->
    ending = created_end \/
    (exists old, plain_stamp old = true /\ ending = updated_end old) ->
    laid_out gameDisplayName mod_name
             (unlines (header_lines gameDisplayName mod_name created
                       ++ map line_text ls) ++ ending).

(** The elements that pass the check, as items, and those that do not. *)
Definition valid_items (elems : list json) : list Item :=
  flat_map (fun e => match as_item e with Some it => [it] | None => [] end) elems.

Definition skipped (elems : list json) : list json :=
  filter (fun e => match as_item e with Some _ => false | None => true end) elems.

(** Grouping a sequence of items, each pushed in turn. *)
Definition group_all (items : list Item) (groups : list (str * list Item))
  : list (str * list Item) :=
  fold_left (fun g it => push_item it g) items groups.

Definition is_failure (e : effect) : bool :=
  match e with
  | SetFailedInput | SetFailedParse | SetFailedError => true
  | _ => false
  end.

(** The requests that create or change an issue. *)
Definition is_write (e : effect) : bool :=
  match e with
  | UpdateIssue _ _ | CreateIssue _ _ _ => true
  | _ => false
  end.

(** Examples used to exercise the properties. *)
Definition example_item (k : str) (msg : str) : json :=
  JObj [ (lit "mod", JStr (lit "mymod")); (lit "file", JStr (lit "events.yml"));
         (lit "key", JStr k); (lit "message", JStr msg) ].

Definition example_report (elems : list json) : json :=
  JObj [ (lit "timestamp", JStr (lit "2024-05-01T00:00:00.000Z"));
         (lit "items", JArr elems) ].

(** An item of the mod [mymod]. *)
Definition mymod_item (f k msg : string) : Item :=
  mkItem (lit "mymod") (lit f) (lit k) (lit msg).

(** The open issue of the mod, created for EVENT.1. *)
Definition created_issue : Issue :=
  mkIssue 7 (issue_title (lit "CK3") (lit "mymod"))
    (Some (new_body (lit "CK3") (lit "mymod") (lit "2024-05-01")
                    [mymod_item "events.yml" "EVENT.1" "hello"])).

(** An open issue of the mod whose body was rewritten by hand. *)
Definition notes_issue : Issue :=
  mkIssue 7 (issue_title (lit "CK3") (lit "mymod"))
          (Some (lit "hand-written notes")).

Definition example_inputs (elems : list json) (issues : list Issue) : inputs :=
  mkInputs (Some (lit "ck3")) (Some (lit "token"))
           (Parsed (example_report elems)) issues.

(** *** Further notions about the groups and the requests *)

(** The mods of a sequence of items, each once, in the order in which they
    first appear. *)
Fixpoint mods_in_order (items : list Item) : list str :=
  match items with
  | [] => []
  | item :: r =>
      mod_ item :: filter (fun m => negb (str_eqb m (mod_ item))) (mods_in_order r)
  end.

(** The items of a mod, in the order of the sequence. *)
Definition of_mod (m : str) (items : list Item) : list Item :=
  filter (fun item => str_eqb m (mod_ item)) items.

(** The requests sent to GitHub. *)
Definition is_request (e : effect) : bool :=
  match e with
  | ListIssues _ | UpdateIssue _ _ | CreateIssue _ _ _ => true
  | _ => false
  end.

(** The titles of the issues a run creates, in order. *)
Definition created_titles (effs : list effect) : list str :=
  flat_map (fun e => match e with CreateIssue t _ _ => [t] | _ => [] end) effs.

(** The numbers of the issues a run updates, in order. *)
Definition updated_numbers (effs : list effect) : list nat :=
  flat_map (fun e => match e with UpdateIssue n _ => [n] | _ => [] end) effs.

(** A mod name that [Object.entries] does not move: it is no array index. *)
Definition named (m : str) : bool :=
  match array_index m with
  | Some _ => false
  | None => true
  end.


End Issues.

(* ================================================================== *)
(** ** The action that closes the issues *)

Module Close.
Import Js Re Issues.

Inductive effect :=
| SetFailed                          (* the outer catch *)
| ErrorParse                         (* 'Failed to parse untranslated items file' *)
| InfoNothing                        (* '번역되지 않은 항목이 없습니다.' *)
| ListIssues (game : str)
| CloseIssue (number : nat) (body : str)   (* issues.update, state closed *)
| InfoClosed (number : nat).

(** [/\*\*마지막 업데이트\*\*:[^\n]*\n*/g] *)
Definition lastUpdateRegex : regex :=
  literal LAST_UPDATE ++ [Atom (except NL) Star false; Atom (only NL) Star false].

(** '✅ **모든 항목이 성공적으로 번역되었습니다.**\n\n' *)
Definition BANNER : str :=
  [9989; 32; 42; 42; 47784; 46304; 32; 54637; 47785; 51060; 32; 49457; 44277;
   51201; 51004; 47196; 32; 48264; 50669; 46104; 50632; 49845; 45768; 45796;
   46; 42; 42; 10; 10]%N.

(** '이 이슈는 자동으로 생성 및 관리되었습니다.\n' *)
Definition FOOTER : str :=
  [51060; 32; 51060; 49800; 45716; 32; 51088; 46041; 51004; 47196; 32; 49373;
   49457; 32; 48143; 32; 44288; 47532; 46104; 50632; 49845; 45768; 45796; 46;
   10]%N.

(** The immediately invoked function that reads the report: whether there is
    nothing left to translate, and whether the error was logged. *)
Definition hasNoUntranslatedItems (r : report) : bool * list effect :=
  match r with
  | Absent => (true, [])
  | Unparsable => (false, [ErrorParse])
  | Parsed JNull => (false, [ErrorParse])     (* data.items of null throws *)
  | Parsed data =>
      match get data (lit "items") with
      | None => (true, [])
      | Some items => (falsy items || length_is_zero items, [])
      end
  end.

(** The body an issue is closed with. *)
Definition closed_body (issue : Issue) (timestamp : str) : str :=
  let existingBody := body_or_empty issue in
  let existingBody := replace_all lastUpdateRegex existingBody in
  let existingBody := replace_first footerRegex existingBody in
  existingBody ++ [NL; NL]
  ++ lit "---" ++ [NL; NL]
  ++ BANNER
  ++ LAST_UPDATE ++ [SPACE] ++ timestamp ++ [NL; NL]
  ++ lit "---" ++ [NL]
  ++ FOOTER.

Record inputs := mkInputs {
  game : option str;              (* the input 'game', as set *)
  github_token : option str;      (* the input 'github-token', as set *)
  report_file : report;
  open_issues : list Issue;       (* the answer of issues.listForRepo *)
  now : str                       (* new Date().toISOString() *)
}.

(** [core.getInput(name, { required: true })]: an input that is not set or
    is empty makes it throw; the value is returned trimmed. *)
Definition getInput (v : option str) : option str :=
  match v with
  | None | Some [] => None
  | Some ((_ :: _) as value) => Some (trim value)
  end.

(** [run()]; the requests to GitHub succeed.  [github.getOctokit(token)]
    throws when [token] is the empty string, as it is for an input made of
    white space only. *)
Definition run (i : inputs) : list effect :=
  match getInput (game i) with
  | None => [SetFailed]               (* a required input is missing *)
  | Some gameType =>
      match getInput (github_token i) with
      | None => [SetFailed]
      | Some [] => [SetFailed]        (* getOctokit throws *)
      | Some (_ :: _) =>
          let (none_left, logged) := hasNoUntranslatedItems (report_file i) in
          logged ++
          if none_left then
            InfoNothing :: ListIssues gameType ::
            flat_map
              (fun issue =>
                 [CloseIssue (number issue) (closed_body issue (now i));
                  InfoClosed (number issue)])
              (open_issues i)
          else []
      end
  end.

(** *** Notions used to state the properties *)

Definition is_close (e : effect) : bool :=
  match e with
  | CloseIssue _ _ => true
  | _ => false
  end.

(** What [closed_body] appends to the body it has stripped. *)
Definition closing (timestamp : str) : str :=
  [NL; NL] ++ lit "---" ++ [NL; NL]
  ++ BANNER
  ++ LAST_UPDATE ++ [SPACE] ++ timestamp ++ [NL; NL]
  ++ lit "---" ++ [NL]
  ++ FOOTER.

(** The text before the first occurrence of [p] in [s]; all of [s] when
    there is none. *)
Fixpoint before_first (p s : str) {struct s} : str :=
  if startsWith p s then []
  else match s with
       | [] => []
       | c :: s' => c :: before_first p s'
       end.

(** A text without its last-update lines, read from left to right: where
    the marker '**마지막 업데이트**:' starts, the text up to the end of the
    line is left out, and so are the line breaks that follow; the reading
    then goes on with the text after them. *)
Inductive reading :=
| Copying        (* outside a last-update line *)
| InLine         (* after the start of a marker, before the end of its line *)
| LineBreaks.    (* among the line breaks after a last-update line *)

Fixpoint without_updates_from (at_ : reading) (s : str) : str :=
  match s with
  | [] => []
  | c :: s' =>
      let copy :=
        if startsWith LAST_UPDATE s then without_updates_from InLine s'
        else c :: without_updates_from Copying s' in
      match at_ with
      | Copying => copy
      | InLine =>
          if char_eqb NL c then without_updates_from LineBreaks s'
          else without_updates_from InLine s'
      | LineBreaks =>
          if char_eqb NL c then without_updates_from LineBreaks s' else copy
      end
  end.

Definition without_updates (s : str) : str := without_updates_from Copying s.

(** Examples used to exercise the properties. *)
Definition example_issue : Issue :=
  mkIssue 7 (issue_title (lit "CK3") (lit "x"))
    (Some (lit "## notes" ++ updated_end (lit "2024-05-01T00:00:00.000Z"))).

Definition example_inputs (r : report) (issues : list Issue) : inputs :=
  mkInputs (Some (lit "ck3")) (Some (lit "token")) r issues
           (lit "2024-06-01T00:00:00.000Z").

(** The requests sent to GitHub. *)
Definition is_request (e : effect) : bool :=
  match e with
  | ListIssues _ | CloseIssue _ _ => true
  | _ => false
  end.

End Close.
(* ================================================================== *)
(** ** The transliteration migrator

    [scripts/utils/transliteration-migrator.ts].  [parseYaml] and
    [stringifyYaml] are not part of the sources: a translation file is given
    by what reading and parsing it yields, and a write by the value that is
    handed to [stringifyYaml]. *)

Module Migrator.
Import Js Issues.

(** What [readFile] and [parseYaml] make of the translation file. *)
Inductive target_file :=
| Missing                          (* readFile fails with ENOENT *)
| Unreadable                       (* readFile fails otherwise *)
| Content (parsed : option json).  (* [None]: parseYaml throws *)

(** The log of [migrateTranslationFile]. *)
Inductive note :=
| DebugNoFile                      (* '번역 파일 없음' *)
| DebugNoLangKey                   (* '번역 파일에 언어 키 없음' *)
| DebugUpdated                     (* '파일 업데이트 완료' *)
| DebugUnchanged                   (* '변경사항 없음' *)
| ErrorFailed.                     (* '파일 처리 실패' *)

(** What a call does: the number it returns, the value it writes to the
    file, if any, and its log. *)
Record outcome := mkOutcome {
  invalidatedCount : nat;
  written : option json;
  logged : note
}.

(** A property key: an index of an array or of a string, or a name. *)
Inductive pkey :=
| Index (i : nat)
| Name (n : str).

(** [Object.entries(v)]; [None] when it throws, for null. *)
Definition entries_of (v : json) : option (list (pkey * json)) :=
  match v with
  | JNull => None
  | JBool _ | JNum _ _ => Some []
  | JStr s => Some (combine (map Index (seq 0 (length s))) (map (fun c => JStr [c]) s))
  | JArr l => Some (combine (map Index (seq 0 (length l))) l)
  | JObj props => Some (map (fun p => (Name (fst p), snd p)) (entries props))
  end.

(** [Object.keys(v)[0]] when it is a name; an index is no language key. *)
Definition first_name (v : json) : option (option str) :=
  match entries_of v with
  | None => None                         (* Object.keys throws *)
  | Some [] => Some None                 (* undefined *)
  | Some ((Index _, _) :: _) => Some None
  | Some ((Name n, _) :: _) => Some (Some n)
  end.

(** [const [translationValue, translationHash] = v]; [None] when [v] is
    not iterable, and [undefined] for an element that is not there. *)
Definition pair_of (v : json) : option (option json * option json) :=
  match iterate v with
  | None => None
  | Some l => Some (nth_error l 0, nth_error l 1)
  end.

Definition truthy (v : option json) : bool :=
  match v with
  | None => false
  | Some x => negb (falsy x)
  end.

Definition is_empty_string (v : option json) : bool :=
  match v with
  | Some (JStr []) => true
  | _ => false
  end.

(** [translationValue && translationHash && translationHash !== ''] *)
Definition translated (translationValue translationHash : option json) : bool :=
  truthy translationValue && truthy translationHash
  && negb (is_empty_string translationHash).

(** [props[name] = v] for a name the object has. *)
Fixpoint set_prop (name : str) (v : json) (props : list (str * json))
  : list (str * json) :=
  match props with
  | [] => []
  | (n, x) :: r =>
      if str_eqb n name then (n, v) :: r else (n, x) :: set_prop name v r
  end.

Fixpoint set_nth (i : nat) (v : json) (l : list json) : list json :=
  match l, i with
  | [], _ => []
  | _ :: r, O => v :: r
  | x :: r, S i' => x :: set_nth i' v r
  end.

(** [section[key] = v] for a key that [Object.entries(section)] gave. *)
Definition set_entry (k : pkey) (v : json) (section : json) : json :=
  match section, k with
  | JObj props, Name n => JObj (set_prop n v props)
  | JArr l, Index i => JArr (set_nth i v l)
  | _, _ => section
  end.

(** The loop over the entries: the section as it is assigned to, and
    [invalidatedCount]; [None] when destructuring an entry throws. *)
Fixpoint invalidate (es : list (pkey * json)) (section : json) (count : nat)
  : option (json * nat) :=
  match es with
  | [] => Some (section, count)
  | (k, v) :: r =>
      match pair_of v with
      | None => None
      | Some (translationValue, translationHash) =>
          if translated translationValue translationHash then
            match translationValue with
            | Some value =>
                invalidate r (set_entry k (JArr [value; JNull]) section) (S count)
            | None => invalidate r section count     (* not reached *)
            end
          else invalidate r section count
      end
  end.

(** [migrateTranslationFile(modName, targetFilePath)]; [writeFile]
    succeeds. *)
Definition migrateTranslationFile (f : target_file) : outcome :=
  match f with
  | Missing => mkOutcome 0 None DebugNoFile
  | Unreadable => mkOutcome 0 None ErrorFailed
  | Content None => mkOutcome 0 None ErrorFailed
  | Content (Some targetYaml) =>
      match first_name targetYaml with
      | None => mkOutcome 0 None ErrorFailed
      | Some None => mkOutcome 0 None DebugNoLangKey
      | Some (Some targetLangKey) =>
          if negb (startsWith (lit "l_") targetLangKey)
          then mkOutcome 0 None DebugNoLangKey
          else
            match get targetYaml targetLangKey with
            | None => mkOutcome 0 None ErrorFailed   (* not reached *)
            | Some section =>
                match entries_of section with
                | None => mkOutcome 0 None ErrorFailed
                | Some es =>
                    match invalidate es section 0 with
                    | None => mkOutcome 0 None ErrorFailed
                    | Some (_, O) => mkOutcome 0 None DebugUnchanged
                    | Some (section', S n) =>
                        mkOutcome (S n)
                          (Some (set_entry (Name targetLangKey) section' targetYaml))
                          DebugUpdated
                    end
                end
            end
      end
  end.

(** [getLocalizationFolderName(gameType)]; [None] when it throws. *)
Definition getLocalizationFolderName (gameType : str) : option str :=
  if str_eqb gameType (lit "ck3") || str_eqb gameType (lit "vic3")
  then Some (lit "localization")
  else if str_eqb gameType (lit "stellaris") then Some (lit "localisation")
  else None.

(** [s.replace(p, r)] for a string [p] and an [r] without [$]: the first
    occurrence of [p] is replaced. *)
Fixpoint replace_string (p r s : str) : str :=
  if startsWith p s then r ++ skipn (length p) s
  else match s with
       | [] => []
       | c :: s' => c :: replace_string p r s'
       end.

(** [`_l_${sourceLanguage}.yml`] *)
Definition source_suffix (sourceLanguage : str) : str :=
  lit "_l_" ++ sourceLanguage ++ lit ".yml".

(** ['___' + base.replace(`_l_${sourceLanguage}.yml`, '_l_korean.yml')] *)
Definition targetFileName (sourceLanguage base : str) : str :=
  lit "___" ++ replace_string (source_suffix sourceLanguage) (lit "_l_korean.yml") base.

(** [locPath.includes('replace') ? 'korean/replace' : 'korean'] *)
Definition korean_folder (locPath : str) : str :=
  if includes (lit "replace") locPath then lit "korean/replace" else lit "korean".

(** *** Notions used to state the properties *)

(** An entry that the loop invalidates. *)
Definition stale (v : json) : bool :=
  match pair_of v with
  | Some (translationValue, translationHash) =>
      translated translationValue translationHash
  | None => false
  end.

(** The entry once invalidated: the value is kept, the hash is null. *)
Definition invalidated (v : json) : json :=
  match pair_of v with
  | Some (Some value, _) => if stale v then JArr [value; JNull] else v
  | _ => v
  end.

(** The section with the values of its entries replaced. *)
Definition invalidated_section (section : list (str * json)) : list (str * json) :=
  map (fun p => (fst p, invalidated (snd p))) section.

(** An example: one entry translated, one not yet, one invalidated. *)
Definition example_section : list (str * json) :=
  [ (lit "culture_a", JArr [JStr (lit "ga"); JStr (lit "1234")]);
    (lit "culture_b", JArr [JStr []; JStr []]);
    (lit "culture_c", JArr [JStr (lit "da"); JNull]) ].

Definition example_file : json :=
  JObj [(lit "l_korean", JObj example_section)].

End Migrator.

(* ================================================================== *)
(** ** The dictionary sorter: reading and writing the blocks

    The script that sorts the dictionaries reads a TOML file as blocks of
    comments and entries ([parseTomlWithComments]) and writes the blocks
    back ([blocksToToml]).  Its order of the entries is that of
    [localeCompare], which is not part of the sources. *)

Module Sorter.
Import Js Re Issues.

(** *** Regular expressions with alternatives and groups *)

Inductive rx :=
| Eps
| Chr (cls : char -> bool)        (* one character of a class *)
| Cat (a b : rx)
| Alt (a b : rx)                  (* a|b : a first *)
| Rep (a : rx)                    (* a* : as many as possible first *)
| Group (n : nat) (a : rx)        (* the n-th capturing group *)
| Eos.                            (* $, without the m flag *)

Definition Plus (a : rx) : rx := Cat a (Rep a).
Definition Opt (a : rx) : rx := Alt a Eps.

(** The groups captured so far, the latest first. *)
Definition caps := list (nat * str).

Fixpoint group (n : nat) (c : caps) : option str :=
  match c with
  | [] => None
  | (i, g) :: r => if Nat.eqb i n then Some g else group n r
  end.

(** The match of [r] at the start of [s], followed by the rest of the
    expression [k]; backtracking is by failure of [k].  An iteration of [a*]
    that matches the empty string is not tried; [fuel] bounds the iterations
    of one [a*], and the length of the text is enough. *)
Fixpoint m (fuel : nat)
  : rx -> str -> caps -> (str -> caps -> option caps) -> option caps :=
  fix go (r : rx) : str -> caps -> (str -> caps -> option caps) -> option caps :=
    match r with
    | Eps => fun s c k => k s c
    | Chr cls =>
        fun s c k =>
          match s with
          | x :: s' => if cls x then k s' c else None
          | [] => None
          end
    | Cat a b => fun s c k => go a s c (fun s' c' => go b s' c' k)
    | Alt a b =>
        fun s c k =>
          match go a s c k with
          | Some res => Some res
          | None => go b s c k
          end
    | Rep a =>
        fun s c k =>
          match fuel with
          | O => None
          | S fuel' =>
              match go a s c
                      (fun s' c' =>
                         if length s' <? length s then m fuel' (Rep a) s' c' k
                         else None) with
              | Some res => Some res
              | None => k s c
              end
          end
    | Group n a =>
        fun s c k =>
          go a s c (fun s' c' => k s' ((n, firstn (length s - length s') s) :: c'))
    | Eos =>
        fun s c k =>
          match s with
          | [] => k [] c
          | _ :: _ => None
          end
    end.

(** [s.match(r)] for an [r] that starts with [^]: the groups. *)
Definition matched : str -> caps -> option caps := fun _ c => Some c.

Definition match_start (r : rx) (s : str) : option caps :=
  m (S (length s)) r s [] matched.

Definition DQUOTE : char := 34%N.
Definition HASH : char := 35%N.
Definition EQUALS : char := 61%N.

(** [.]: any character but a line terminator. *)
Definition dot (c : char) : bool :=
  negb ((c =? 10) || (c =? 13) || (c =? 8232) || (c =? 8233))%N.

(** A string in quotes, with Q for the quote: [Q(?:[^Q\\]|\\.)*Q] *)
Definition TOKEN : rx :=
  Alt (Chr (fun c => negb (char_eqb c DQUOTE || char_eqb c BACKSLASH)))
      (Cat (Chr (only BACKSLASH)) (Chr dot)).

Definition quoted : rx :=
  Cat (Chr (only DQUOTE)) (Cat (Rep TOKEN) (Chr (only DQUOTE))).

(** The expression of an entry, with Q for the quote and C for the third
    group, a [#] followed by [.*]:
    [/^(Q(?:[^Q\\]|\\.)*Q|[^=]+)\s*=\s*(Q(?:[^Q\\]|\\.)*Q|[^#]+)C?$/] *)
Definition KEY_GROUP : rx := Group 1 (Alt quoted (Plus (Chr (except EQUALS)))).
Definition VALUE_GROUP : rx := Group 2 (Alt quoted (Plus (Chr (except HASH)))).
Definition COMMENT_GROUP : rx :=
  Opt (Group 3 (Cat (Chr (only HASH)) (Rep (Chr dot)))).
Definition SPACES : rx := Rep (Chr is_space).

Definition entryRegex : rx :=
  Cat KEY_GROUP
 (Cat SPACES
 (Cat (Chr (only EQUALS))
 (Cat SPACES
 (Cat VALUE_GROUP
 (Cat COMMENT_GROUP Eos))))).

(** *** The blocks *)

Record DictionaryEntry := mkEntry {
  key : str;
  value : str;
  inlineComment : option str       (* [None]: undefined *)
}.

Record CommentBlock := mkBlock {
  comments : list str;
  entries : list DictionaryEntry
}.

(** [trimmedLine.match(...)] and the entry made of the groups. *)
Definition match_entry (trimmedLine : str) : option DictionaryEntry :=
  match match_start entryRegex trimmedLine with
  | Some c =>
      match group 1 c, group 2 c with
      | Some g1, Some g2 =>
          Some (mkEntry (trim g1) (trim g2) (option_map trim (group 3 c)))
      | _, _ => None                     (* not reached *)
      end
  | None => None
  end.

(** [currentBlock.comments.length > 0 || currentBlock.entries.length > 0] *)
Definition started (b : CommentBlock) : bool :=
  match comments b, entries b with
  | [], [] => false
  | _, _ => true
  end.

Definition no_block : CommentBlock := mkBlock [] [].

(** The loop over the lines, and the block that is added after it. *)
Fixpoint parse_lines (lines : list str) (blocks : list CommentBlock)
    (currentBlock : CommentBlock) : list CommentBlock :=
  match lines with
  | [] => if started currentBlock then blocks ++ [currentBlock] else blocks
  | line :: r =>
      let trimmedLine := trim line in
      match trimmedLine with
      | [] =>
          if started currentBlock
          then parse_lines r (blocks ++ [currentBlock]) no_block
          else parse_lines r blocks currentBlock
      | _ :: _ =>
          if startsWith [HASH] trimmedLine then
            parse_lines r blocks
              (mkBlock (comments currentBlock ++ [line]) (entries currentBlock))
          else
            match match_entry trimmedLine with
            | Some entry =>
                parse_lines r blocks
                  (mkBlock (comments currentBlock) (entries currentBlock ++ [entry]))
            | None => parse_lines r blocks currentBlock
            end
      end
  end.

(** [parseTomlWithComments(content)] *)
Definition parseTomlWithComments (content : str) : list CommentBlock :=
  parse_lines (split_lines content) [] no_block.

(** The line of an entry. *)
Definition entry_line (entry : DictionaryEntry) : str :=
  key entry ++ lit " = " ++ value entry
  ++ match inlineComment entry with
     | Some (c :: r) => SPACE :: c :: r
     | _ => []
     end.

(** The array [result] of [blocksToToml]. *)
Fixpoint result_lines (blocks : list CommentBlock) : list str :=
  match blocks with
  | [] => []
  | block :: r =>
      comments block ++ map entry_line (entries block)
      ++ match r with
         | [] => []
         | _ :: _ => [] :: result_lines r
         end
  end.

(** [blocksToToml(blocks)] *)
Definition blocksToToml (blocks : list CommentBlock) : str :=
  join [NL] (result_lines blocks) ++ [NL].

(** *** Notions used to state the properties *)

(** A line that starts a comment, and a line that is blank. *)
Definition comment_line (line : str) : bool := startsWith [HASH] (trim line).
Definition blank_line (line : str) : bool :=
  match trim line with [] => true | _ :: _ => false end.

(** A line that holds an equals sign. *)
Definition has_equals (line : str) : bool := existsb (char_eqb EQUALS) line.

(** The inside of a quoted string: no quote, and a backslash only before a
    character that is no line terminator. *)
Fixpoint inside_quotes (s : str) : bool :=
  match s with
  | [] => true
  | c :: r =>
      if char_eqb c DQUOTE then false
      else if char_eqb c BACKSLASH then
        match r with
        | d :: r' => dot d && inside_quotes r'
        | [] => false
        end
      else inside_quotes r
  end.

Definition is_quoted (s : str) : Prop :=
  exists inside, s = DQUOTE :: inside ++ [DQUOTE] /\ inside_quotes inside = true.

(** A text without white space at its ends. *)
Definition tight (s : str) : Prop :=
  exists c r, s = c :: r /\ is_space c = false /\ is_space (last s c) = false.

(** A bare key or value: not quoted, and without the character that ends
    it in the expression. *)
Definition bare (stop : char) (s : str) : Prop :=
  tight s /\ ~ In stop s /\ ~ In NL s /\
  match s with c :: _ => c <> DQUOTE /\ c <> HASH | [] => False end.

(** What follows the value in the line of an entry. *)
Definition comment_tail (comment : option str) : str :=
  match comment with
  | Some (c :: r) => SPACE :: c :: r
  | _ => []
  end.

(** The comment of an entry that is written and read back as it is, after
    the value [v]. *)
Definition plain_comment (v : str) (comment : option str) : Prop :=
  match comment with
  | None => True
  | Some cm =>
      ~ In HASH v /\
      exists text, cm = HASH :: text /\ forallb dot text = true /\
                   is_space (last cm HASH) = false
  end.

(** An entry that is written and read back as it is. *)
Definition plain_entry (entry : DictionaryEntry) : Prop :=
  (is_quoted (key entry) \/ bare EQUALS (key entry)) /\
  (is_quoted (value entry) \/ bare HASH (value entry)) /\
  ~ In NL (key entry) /\ ~ In NL (value entry) /\
  plain_comment (value entry) (inlineComment entry).

(** A block that is written and read back as it is. *)
Definition plain_block (block : CommentBlock) : Prop :=
  started block = true /\
  Forall (fun line => comment_line line = true /\ ~ In NL line) (comments block) /\
  Forall plain_entry (entries block).

(** An example. *)
Definition example_blocks : list CommentBlock :=
  [ mkBlock [lit "# names"]
      [ mkEntry (DQUOTE :: lit "Old Gods" ++ [DQUOTE])
                (DQUOTE :: lit "gods" ++ [DQUOTE]) None;
        mkEntry (lit "realm") (DQUOTE :: lit "kingdom" ++ [DQUOTE])
                (Some (lit "# noun")) ];
    mkBlock [] [ mkEntry (lit "earl") (lit "count") None ] ].

End Sorter.



(* ================================================================== *)
(** ** Properties of the queue *)

Module QueueFacts.
Import Queue.

#[local] Arguments Z.add _ _ : simpl never.
#[local] Arguments Z.sub _ _ : simpl never.
#[local] Arguments Z.ltb _ _ : simpl never.

Lemma calls_of_app (a b : list effect) :
  calls_of (a ++ b) = calls_of a ++ calls_of b.
Proof. unfold calls_of. rewrite flat_map_app. reflexivity. Qed.

Lemma delays_of_app (a b : list effect) :
  delays_of (a ++ b) = delays_of a ++ delays_of b.
Proof. unfold delays_of. rewrite flat_map_app. reflexivity. Qed.

Lemma calls_of_failure_log (k : Js.str) (e : JsError) :
  calls_of (failure_log k e) = [].
Proof.
  unfold failure_log. destruct (message e) as [[|c m]|x|b|x]; try reflexivity.
  - destruct (negb _); reflexivity.
  - destruct (negb b); reflexivity.
Qed.

Lemma delays_of_failure_log (k : Js.str) (e : JsError) :
  delays_of (failure_log k e) = [].
Proof.
  unfold failure_log. destruct (message e) as [[|c m]|x|b|x]; try reflexivity.
  - destruct (negb _); reflexivity.
  - destruct (negb b); reflexivity.
Qed.

Lemma executeTaskWithRetry_fuel_shape (task : QueueTask) :
  forall fuel retryCount, fuel + retryCount = S MAX_RETRIES -> 0 < fuel ->
  exists r effs k,
    executeTaskWithRetry_fuel fuel task retryCount = Some (r, effs) /\
    run_shape task retryCount k r effs.
Proof.
  induction fuel as [|fuel IH]; intros rc Hsum Hpos; [lia|].
  assert (Hlast : rc + 1 - 1 = rc) by lia.
  simpl. destruct (queue task rc) as [|error] eqn:Hq.
  - exists Returned, [Call rc], 1. split; [reflexivity|].
    constructor; simpl; try rewrite Hlast; try lia; auto.
  - destruct (refused error) eqn:Href.
    + exists (Thrown error), [Call rc], 1. split; [reflexivity|].
      constructor; simpl; try rewrite Hlast; try lia; auto.
      exists error. rewrite Href. auto.
    + destruct (message_fault error) as [thrown|] eqn:Hfault.
      { exists (Thrown thrown), [Call rc], 1. split; [reflexivity|].
        constructor; simpl; try rewrite Hlast; try lia; auto.
        exists error. rewrite Href, Hfault. auto. }
      destruct (rc <? MAX_RETRIES) eqn:Hlt.
      * apply Nat.ltb_lt in Hlt.
        destruct (IH (rc + 1)) as (r & effs & k & Hex & Hsh);
          [lia | unfold MAX_RETRIES in *; lia|].
        rewrite Hex. eexists r, _, (S k). split; [reflexivity|].
        destruct Hsh as [H1 H2 H3 H4 H5 H6].
        constructor.
        -- lia.
        -- lia.
        -- simpl. rewrite calls_of_app, calls_of_failure_log. simpl.
           rewrite H3. replace (rc + 1) with (S rc) by lia. reflexivity.
        -- simpl. rewrite delays_of_app, delays_of_failure_log. simpl.
           rewrite H4. replace (k - 0) with (S (k - 1)) by lia.
           simpl. replace (rc + 1) with (S rc) by lia. reflexivity.
        -- intros j Hj. destruct (Nat.eq_dec j rc) as [->|Hne].
           ++ exists error. auto.
           ++ apply H5. lia.
        -- replace (rc + S k - 1) with (rc + 1 + k - 1) by lia. exact H6.
      * apply Nat.ltb_ge in Hlt.
        eexists (Thrown error), _, 1. split; [reflexivity|].
        constructor.
        -- lia.
        -- lia.
        -- simpl. rewrite calls_of_app, calls_of_failure_log. reflexivity.
        -- simpl. rewrite delays_of_app, delays_of_failure_log. reflexivity.
        -- intros j Hj; lia.
        -- rewrite Hlast. exists error. rewrite Href, Hfault.
           split; [exact Hq|]. split; [reflexivity|].
           unfold MAX_RETRIES in *. lia.
Qed.

Lemma executeTaskWithRetry_shape (task : QueueTask) (retryCount : nat) :
  retryCount <= MAX_RETRIES ->
  exists r effs k,
    executeTaskWithRetry task retryCount = Some (r, effs) /\
    run_shape task retryCount k r effs.
Proof.
  intros H. unfold executeTaskWithRetry.
  apply executeTaskWithRetry_fuel_shape; unfold MAX_RETRIES in *; lia.
Qed.

(** The function returns: the fuel of the embedding never runs out. *)
Lemma executeTaskWithRetry_total (task : QueueTask) :
  exists r effs, executeTaskWithRetry task 0 = Some (r, effs).
Proof.
  destruct (@executeTaskWithRetry_shape task 0) as (r & effs & k & H & _).
  - unfold MAX_RETRIES; lia.
  - eauto.
Qed.








(** *** Invariants of the event loop *)

Lemma Inv_init : Inv init.
Proof.
  constructor; simpl; auto.
  - split; reflexivity.
  - constructor.
Qed.

Lemma StronglySorted_snoc (l : list nat) (x : nat) :
  StronglySorted lt l -> Forall (fun p => p < x) l ->
  StronglySorted lt (l ++ [x]).
Proof.
  induction l as [|a l IH]; simpl; intros Hs Hf.
  - repeat constructor.
  - inversion Hs; subst. inversion Hf; subst.
    constructor; [auto|].
    apply Forall_app. split; [assumption|]. repeat constructor. assumption.
Qed.

Lemma seq_prefix_eq (a b : list nat) :
  forall s n, a ++ b = seq s n -> a = seq s (length a).
Proof.
  induction a as [|x a IH]; intros s n H; [reflexivity|].
  destruct n as [|n]; [discriminate|].
  simpl in H. inversion H; subst. simpl. f_equal. eapply IH; eassumption.
Qed.

Lemma seq_length_eq (a b : list nat) (n : nat) :
  a ++ b = seq 0 n -> a = seq 0 (length a).
Proof. apply seq_prefix_eq. Qed.

Lemma seq_head_eq (a b : list nat) (x n : nat) :
  a ++ x :: b = seq 0 n -> x = length a.
Proof.
  intros H.
  assert (Hn : nth_error (a ++ x :: b) (length a) = nth_error (seq 0 n) (length a))
    by (rewrite H; reflexivity).
  rewrite nth_error_app2, Nat.sub_diag in Hn by lia. simpl in Hn.
  assert (Hl : length a < n).
  { apply (f_equal (@length nat)) in H.
    rewrite length_app, length_seq in H. simpl in H. lia. }
  rewrite nth_error_seq in Hn.
  destruct (Nat.ltb_spec (length a) n); [|lia].
  inversion Hn. reflexivity.
Qed.

Lemma last_snoc (A : Type) (l : list A) (x d : A) : last (l ++ [x]) d = x.
Proof. apply last_last. Qed.

Lemma Forall_lt_weaken (l : list nat) (n m : nat) :
  n <= m -> Forall (fun p => p < n) l -> Forall (fun p => p < m) l.
Proof.
  intros Hnm H. eapply Forall_impl; [|exact H]. simpl. intros; lia.
Qed.

(** Taking the head of the queue for execution keeps the invariant, when no
    task is in flight. *)
Lemma Inv_dispatch (t : Z) (st : state) (task : QueueTask) (rest : list QueueTask) :
  translationQueue st = task :: rest ->
  isProcessing st = true ->
  map fst (settled st) ++ map pid (translationQueue st) = seq 0 (next_pid st) ->
  StronglySorted lt (map fst (dispatched st)) ->
  Forall (fun p => p < length (settled st)) (map fst (dispatched st)) ->
  Inv (set_procs [AwaitExec task] (fst (dispatch t st))).
Proof.
  intros Hq Hflag Hp Hs Hb. unfold dispatch. rewrite Hq. simpl.
  assert (Hpid : pid task = length (settled st)).
  { rewrite Hq in Hp. simpl in Hp. apply seq_head_eq in Hp.
    rewrite length_map in Hp. exact Hp. }
  constructor; unfold shape_ok, inflight; simpl.
  - split; [exact Hflag|]. eexists; reflexivity.
  - rewrite Hq in Hp. exact Hp.
  - rewrite map_app. simpl. apply StronglySorted_snoc; [exact Hs|].
    rewrite Hpid. exact Hb.
  - rewrite map_app. simpl. apply Forall_app. split.
    + eapply Forall_lt_weaken; [|exact Hb]. lia.
    + repeat constructor. lia.
  - rewrite map_app. simpl. rewrite last_snoc. reflexivity.
Qed.

(** One turn of the loop keeps the invariant, when no task is in flight and
    the flag is set; [k] is the continuation of the invocation. *)
Lemma Inv_loop (now t : Z) (st : state) :
  isProcessing st = true ->
  map fst (settled st) ++ map pid (translationQueue st) = seq 0 (next_pid st) ->
  StronglySorted lt (map fst (dispatched st)) ->
  Forall (fun p => p < length (settled st)) (map fst (dispatched st)) ->
  lastRequestTime st = last (map snd (dispatched st)) 0%Z ->
  Inv (set_procs (spawn (snd (loop now t st)) []) (fst (loop now t st))).
Proof.
  intros Hflag Hp Hs Hb Hl. unfold loop.
  assert (Hb' : Forall (fun p => p < length (settled st) + 0)
                       (map fst (dispatched st)))
    by (eapply Forall_lt_weaken; [|exact Hb]; lia).
  destruct (translationQueue st) as [|task rest] eqn:Hq.
  - simpl. constructor; unfold shape_ok, inflight; simpl;
      rewrite ?app_nil_r in *; auto.
  - destruct (Z.ltb_spec (now - lastRequestTime st) 100).
    + simpl. constructor; unfold shape_ok, inflight; simpl;
        rewrite ?Hq; auto.
      split; [exact Hflag|]. split; [discriminate|lia].
    + assert (Hd := @Inv_dispatch t st task rest Hq Hflag).
      rewrite Hq in Hd. specialize (Hd Hp Hs Hb).
      unfold dispatch in *. rewrite Hq in *. simpl in *. exact Hd.
Qed.

Lemma procs_one (st : state) (i : nat) (p : proc) :
  shape_ok st -> nth_error (procs st) i = Some p -> procs st = [p] /\ i = 0.
Proof.
  unfold shape_ok. intros Hs Hn.
  destruct (procs st) as [|q [|q' ps]].
  - destruct i; discriminate.
  - destruct i as [|i]; simpl in Hn.
    + inversion Hn; auto.
    + destruct i; discriminate.
  - destruct q; contradiction.
Qed.

#[local] Arguments seq _ _ : simpl never.

Lemma inflight_idle (st : state) : procs st = [] -> inflight st = [].
Proof. unfold inflight. intros ->. reflexivity. Qed.

(** Every step of the event loop keeps the invariant. *)
Lemma Inv_step (ev : event) (st st' : state) :
  Inv st -> step ev st = Some st' -> Inv st'.
Proof.
  intros HI Hstep. destruct HI as [Hsh Hp Hs Hb Hl].
  destruct ev as [k newQueue now t | i t | i now t]; simpl in Hstep.
  - (* addQueue *)
    unfold processQueue in Hstep. simpl in Hstep.
    unfold shape_ok in Hsh. unfold inflight in Hp, Hb.
    destruct (procs st) as [|p [|p' ps]] eqn:Hprocs; [| |destruct p; contradiction].
    + destruct Hsh as [Hflag Hq]. rewrite Hflag in Hstep.
      match type of Hstep with
      | (let (_, _) := loop ?n ?t ?s in _) = _ =>
          pose proof (@Inv_loop n t s) as HL; destruct (loop n t s) as [st2 k2] eqn:Hloop
      end.
      simpl in HL. inversion Hstep; subst st'; clear Hstep.
      assert (Hprocs2 : procs st2 = []).
      { unfold loop, dispatch in Hloop. simpl in Hloop. rewrite Hq in Hloop.
        simpl in Hloop.
        destruct (_ <? _)%Z; inversion Hloop; subst; simpl; auto. }
      rewrite Hprocs2. simpl. unfold spawn in HL.
      apply HL; [reflexivity | | exact Hs | | exact Hl].
      * rewrite Hq in *. simpl in *. rewrite app_nil_r in Hp. rewrite Hp.
        rewrite seq_S. reflexivity.
      * simpl in Hb. eapply Forall_lt_weaken; [|exact Hb]. lia.
    + destruct p as [w|task].
      * destruct Hsh as (Hflag & Hq & Hw). rewrite Hflag in Hstep.
        inversion Hstep; subst st'; clear Hstep. simpl.
        constructor; unfold shape_ok, inflight; simpl; rewrite ?Hprocs; simpl; auto.
        -- split; [auto|]. split; [|auto].
           destruct (translationQueue st); discriminate.
        -- simpl in Hp. rewrite map_app, app_assoc, Hp, seq_S. reflexivity.
      * destruct Hsh as (Hflag & d & Hd). rewrite Hflag in Hstep.
        inversion Hstep; subst st'; clear Hstep. simpl.
        constructor; unfold shape_ok, inflight; simpl; rewrite ?Hprocs; simpl; eauto.
        simpl in Hp. rewrite map_app.
        change (pid task :: map pid (translationQueue st) ++ map pid [mkTask k newQueue (next_pid st)])
          with ((pid task :: map pid (translationQueue st)) ++ [next_pid st]).
        rewrite app_assoc, Hp, seq_S. reflexivity.
  - (* the delay is over *)
    destruct (nth_error (procs st) i) as [[w|task]|] eqn:Hn; try discriminate.
    destruct (procs_one _ _ Hsh Hn) as [Hprocs ->].
    unfold shape_ok in Hsh. rewrite Hprocs in Hsh. destruct Hsh as (Hflag & Hq & Hw).
    destruct (translationQueue st) as [|task rest] eqn:Hqq; [contradiction|].
    pose proof (@Inv_dispatch t st task rest Hqq Hflag) as HD.
    unfold inflight in Hp, Hb. rewrite Hprocs in Hp, Hb. simpl in HD, Hp, Hb.
    rewrite Hqq in HD. specialize (HD Hp Hs).
    unfold dispatch in HD, Hstep. rewrite Hqq in HD, Hstep. simpl in HD, Hstep.
    inversion Hstep; subst st'; clear Hstep. rewrite Hprocs. simpl.
    apply HD. eapply Forall_lt_weaken; [|exact Hb]. lia.
  - (* executeTaskWithRetry is over *)
    destruct (nth_error (procs st) i) as [[w|task]|] eqn:Hn; try discriminate.
    destruct (procs_one _ _ Hsh Hn) as [Hprocs ->].
    unfold shape_ok in Hsh. rewrite Hprocs in Hsh. destruct Hsh as (Hflag & d & Hd).
    unfold inflight in Hp, Hb. rewrite Hprocs in Hp, Hb. simpl in Hp, Hb.
    destruct (executeTaskWithRetry task 0) as [[[|error] effs]|]; [| |discriminate].
    + match type of Hstep with
      | (let (_, _) := loop ?n ?t ?s in _) = _ =>
          pose proof (@Inv_loop n t s) as HL; destruct (loop n t s) as [st2 k2] eqn:Hloop
      end.
      simpl in HL. inversion Hstep; subst st'; clear Hstep.
      assert (Hprocs2 : procs st2 = [AwaitExec task]).
      { unfold loop, dispatch in Hloop. simpl in Hloop.
        destruct (translationQueue st); simpl in Hloop.
        - inversion Hloop; subst; simpl; auto.
        - destruct (_ <? _)%Z; inversion Hloop; subst; simpl; auto. }
      rewrite Hprocs2.
      replace (resume 0 k2 [AwaitExec task]) with (spawn k2 [])
        by (destruct k2; reflexivity).
      apply HL; [exact Hflag | | exact Hs | | exact Hl].
      * rewrite map_app. simpl. rewrite <- app_assoc. exact Hp.
      * rewrite length_app. simpl. exact Hb.
    + inversion Hstep; subst st'; clear Hstep. simpl. rewrite Hprocs. simpl.
      constructor; unfold shape_ok, inflight; simpl; auto.
      * rewrite map_app. simpl. rewrite map_map. simpl.
        rewrite app_nil_r. exact Hp.
      * eapply Forall_lt_weaken; [|exact Hb].
        rewrite length_app. simpl. lia.
Qed.

Lemma Inv_run (evs : list event) :
  forall st st', Inv st -> run evs st = Some st' -> Inv st'.
Proof.
  induction evs as [|ev evs IH]; simpl; intros st st' HI Hr.
  - inversion Hr; subst; exact HI.
  - destruct (step ev st) as [st1|] eqn:Hs; [|discriminate].
    eapply IH; [|exact Hr]. eapply Inv_step; eassumption.
Qed.

(** *** The spacing of dispatches *)

Lemma spaced_snoc (l : list Z) (t : Z) :
  spaced l -> (l <> [] -> (last l 0 + 100 <= t)%Z) -> spaced (l ++ [t]).
Proof.
  induction l as [|a l IH]; simpl; intros Hs Hl; [exact I|].
  destruct l as [|b l].
  - simpl. split; [|exact I]. apply Hl. discriminate.
  - destruct Hs as [Hab Hs]. split; [exact Hab|].
    apply IH; [exact Hs|]. intros _. apply Hl. discriminate.
Qed.

(** A step dispatches at most one task, and no earlier than 100 ms after
    the previous dispatch. *)
Lemma step_dispatched (ev : event) (st st' : state) :
  Inv st -> timed st ev -> step ev st = Some st' ->
  dispatched st' = dispatched st \/
  exists p t, dispatched st' = dispatched st ++ [(p, t)] /\
              (lastRequestTime st + 100 <= t)%Z.
Proof.
  intros [Hsh _ _ _ _] Ht Hstep.
  destruct ev as [k newQueue now t | i t | i now t]; simpl in Hstep, Ht.
  - unfold processQueue, loop, dispatch in Hstep. simpl in Hstep.
    destruct (isProcessing st).
    + inversion Hstep; subst; simpl; auto.
    + destruct (translationQueue st ++ _) as [|task rest];
        [inversion Hstep; subst; simpl; auto|].
      destruct (Z.ltb_spec (now - lastRequestTime st) 100).
      * inversion Hstep; subst; simpl; auto.
      * inversion Hstep; subst; simpl. right. do 2 eexists.
        split; [reflexivity|lia].
  - destruct (nth_error (procs st) i) as [[w|task]|] eqn:Hn; try discriminate.
    destruct (procs_one _ _ Hsh Hn) as [Hprocs ->].
    unfold shape_ok in Hsh. rewrite Hprocs in Hsh. destruct Hsh as (_ & _ & Hw).
    specialize (Ht _ eq_refl).
    unfold dispatch in Hstep. destruct (translationQueue st) as [|task rest].
    + inversion Hstep; subst; simpl; auto.
    + inversion Hstep; subst; simpl. right. do 2 eexists.
      split; [reflexivity|lia].
  - destruct (nth_error (procs st) i) as [[w|task]|] eqn:Hn; try discriminate.
    destruct (executeTaskWithRetry task 0) as [[[|error] effs]|]; [| |discriminate].
    + unfold loop, dispatch in Hstep. simpl in Hstep.
      destruct (translationQueue st) as [|task' rest];
        [inversion Hstep; subst; simpl; auto|].
      destruct (Z.ltb_spec (now - lastRequestTime st) 100).
      * inversion Hstep; subst; simpl; auto.
      * inversion Hstep; subst; simpl. right. do 2 eexists.
        split; [reflexivity|lia].
    + inversion Hstep; subst; simpl; auto.
Qed.

Lemma spaced_step (ev : event) (st st' : state) :
  Inv st -> timed st ev -> step ev st = Some st' ->
  spaced (map snd (dispatched st)) -> spaced (map snd (dispatched st')).
Proof.
  intros HI Ht Hstep Hsp.
  destruct (step_dispatched _ HI Ht Hstep) as [-> | (p & t & -> & Hle)];
    [exact Hsp|].
  rewrite map_app. simpl. apply spaced_snoc; [exact Hsp|].
  intros _. rewrite <- (inv_last HI). exact Hle.
Qed.

Lemma spaced_run (evs : list event) :
  forall st st', Inv st -> timed_run evs st -> run evs st = Some st' ->
  spaced (map snd (dispatched st)) -> spaced (map snd (dispatched st')).
Proof.
  induction evs as [|ev evs IH]; simpl; intros st st' HI Ht Hr Hsp.
  - inversion Hr; subst; exact Hsp.
  - destruct Ht as [Ht Hrest].
    destruct (step ev st) as [st1|] eqn:Hs; [|discriminate].
    eapply (IH st1); eauto using Inv_step, spaced_step.
Qed.

Lemma spaced_nth (l : list Z) :
  spaced l -> forall i t1 t2,
  nth_error l i = Some t1 -> nth_error l (S i) = Some t2 -> (t1 + 100 <= t2)%Z.
Proof.
  induction l as [|a l IH]; intros Hs i t1 t2 H1 H2.
  - destruct i; discriminate.
  - destruct l as [|b l]; [destruct i; discriminate|].
    destruct Hs as [Hab Hs]. destruct i as [|i].
    + simpl in H1, H2. inversion H1; inversion H2; subst. exact Hab.
    + simpl in H1. eapply (IH Hs i); [exact H1 | exact H2].
Qed.

Lemma seq_suffix_eq (a b : list nat) :
  forall s n, a ++ b = seq s n -> b = seq (s + length a) (length b).
Proof.
  induction a as [|x a IH]; intros s n H.
  - simpl in *. rewrite Nat.add_0_r.
    assert (Hn : length b = n)
      by (apply (f_equal (@length nat)) in H; rewrite length_seq in H; exact H).
    rewrite Hn. exact H.
  - destruct n as [|n]; [discriminate|].
    rewrite <- cons_seq in H. simpl in H. inversion H; subst.
    simpl. replace (s + S (length a)) with (S s + length a) by lia.
    eapply IH; eassumption.
Qed.

Lemma all_resolved (l : list (nat * settle)) (n : nat) :
  Forall (fun x => snd x = Resolve) l -> map fst l = seq 0 n ->
  l = map (fun p => (p, Resolve)) (seq 0 n).
Proof.
  intros Hall <-. rewrite map_map.
  induction Hall as [|[p x] l Hx _ IH]; simpl; [reflexivity|].
  simpl in Hx. subst x. f_equal. exact IH.
Qed.

(** C6.  In every state the event loop can reach, whatever the order in which
    callers enqueue and awaits complete: at most one invocation of
    processQueue is suspended, and the flag isProcessing is set exactly when
    there is one; at most one task is being executed; the promises settled
    (in the order of their settlement), then the one in flight, then those of
    the queued tasks are exactly the promises created, in the order of their
    creation, so that tasks leave the queue in submission order and no
    promise is settled twice; tasks are dispatched in increasing order of
    submission; and when no invocation is left every promise has been
    settled exactly once. *)
Theorem queue_invariants (evs : list event) (st : state) :
  run evs init = Some st ->
  length (procs st) <= 1 /\
  (isProcessing st = true <-> procs st <> []) /\
  length (inflight st) <= 1 /\
  map fst (settled st) ++ inflight st ++ map pid (translationQueue st)
    = seq 0 (next_pid st) /\
  NoDup (map fst (settled st)) /\
  StronglySorted lt (map fst (dispatched st)) /\
  (procs st = [] -> map fst (settled st) = seq 0 (next_pid st)).
Proof.
  intros Hrun. pose proof (Inv_run _ Inv_init Hrun) as HI.
  destruct HI as [Hsh Hp Hs Hb Hl].
  assert (Hone : length (procs st) <= 1 /\
                 (isProcessing st = true <-> procs st <> []) /\
                 (procs st = [] -> translationQueue st = [])).
  { unfold shape_ok in Hsh.
    destruct (procs st) as [|p [|p' ps]]; [| |destruct p; contradiction].
    - destruct Hsh as [Hf Hq]. rewrite Hf. simpl.
      intuition (try discriminate; try congruence; try lia).
    - destruct p; destruct Hsh as [Hf _]; rewrite Hf; simpl;
        intuition (try discriminate; try congruence; try lia). }
  destruct Hone as (H1 & H2 & H3).
  refine (conj H1 (conj H2 (conj _ (conj Hp (conj _ (conj Hs _)))))).
  - unfold inflight. destruct (procs st) as [|p [|p' ps]]; simpl in *;
      [lia | destruct p; simpl; lia | lia].
  - assert (Hnd : NoDup (seq 0 (next_pid st))) by apply seq_NoDup.
    rewrite <- Hp in Hnd. apply NoDup_app_remove_r in Hnd. exact Hnd.
  - intros Hn. rewrite (inflight_idle _ Hn), (H3 Hn) in Hp. simpl in Hp.
    rewrite app_nil_r in Hp. exact Hp.
Qed.

(** Witness for C6: three tasks enqueued, the first one completed. *)
Lemma queue_invariants_witness :
  let st := state_after scenario_B in
  length (procs st) <= 1 /\
  (isProcessing st = true <-> procs st <> []) /\
  length (inflight st) <= 1 /\
  map fst (settled st) ++ inflight st ++ map pid (translationQueue st)
    = seq 0 (next_pid st) /\
  NoDup (map fst (settled st)) /\
  StronglySorted lt (map fst (dispatched st)) /\
  (procs st = [] -> map fst (settled st) = seq 0 (next_pid st)).
Proof.
  intros st. apply (@queue_invariants scenario_B st).
  vm_compute. reflexivity.
Defined.

(** C8.  Under the clock and timer assumptions of [timed]: any two
    consecutive dispatches are at least 100 ms apart, and while a task is
    being executed lastRequestTime holds the instant of its dispatch, which
    was stored before executeTaskWithRetry was called. *)
Theorem dispatch_spacing (evs : list event) (st : state) :
  timed_run evs init ->
  run evs init = Some st ->
  (forall i p1 t1 p2 t2,
      nth_error (dispatched st) i = Some (p1, t1) ->
      nth_error (dispatched st) (S i) = Some (p2, t2) ->
      (t1 + 100 <= t2)%Z) /\
  (forall i task,
      nth_error (procs st) i = Some (AwaitExec task) ->
      exists d, dispatched st = d ++ [(pid task, lastRequestTime st)]).
Proof.
  intros Ht Hrun. pose proof (Inv_run _ Inv_init Hrun) as HI.
  assert (Hsp : spaced (map snd (dispatched st)))
    by (apply (spaced_run evs Inv_init Ht Hrun); exact I).
  split.
  - intros i p1 t1 p2 t2 H1 H2.
    apply (spaced_nth _ Hsp i); rewrite nth_error_map.
    + rewrite H1. reflexivity.
    + rewrite H2. reflexivity.
  - intros i task Hn. destruct (procs_one _ _ (inv_shape HI) Hn) as [Hp _].
    pose proof (inv_shape HI) as Hsh. unfold shape_ok in Hsh.
    rewrite Hp in Hsh. tauto.
Qed.

(** Witness for C8: the second task waits for its slot. *)
Lemma dispatch_spacing_witness :
  let st := state_after paced_run in
  (forall i p1 t1 p2 t2,
      nth_error (dispatched st) i = Some (p1, t1) ->
      nth_error (dispatched st) (S i) = Some (p2, t2) ->
      (t1 + 100 <= t2)%Z) /\
  (forall i task,
      nth_error (procs st) i = Some (AwaitExec task) ->
      exists d, dispatched st = d ++ [(pid task, lastRequestTime st)]).
Proof.
  intros st. apply (@dispatch_spacing paced_run st).
  - vm_compute. repeat split; try discriminate.
    intros wake H. inversion H. discriminate.
  - vm_compute. reflexivity.
Defined.

(** C1.  Take any reachable state in which every promise settled so far was
    resolved and the task in flight ends in failure: executeTaskWithRetry
    throws [error] (a refusal, or the last error once the retries are
    exhausted).  When the processor resumes, the promises settled are, in
    order: those of the tasks submitted before it, resolved; its own,
    rejected with [error]; those of every task then in the queue, that is of
    every task submitted after it, rejected with the queue-aborted error.
    The queue is empty, no invocation is left and the flag is cleared; and a
    later addQueue starts a processor again, with the new task as its only
    task. *)
Theorem cascade_abort (evs : list event) (st : state) (i : nat)
    (task : QueueTask) (error : JsError) (effs : list effect) (now t : Z) :
  run evs init = Some st ->
  nth_error (procs st) i = Some (AwaitExec task) ->
  Forall (fun x => snd x = Resolve) (settled st) ->
  executeTaskWithRetry task 0 = Some (Thrown error, effs) ->
  exists st',
    step (ExecDone i now t) st = Some st' /\
    settled st' =
      map (fun p => (p, Resolve)) (seq 0 (pid task))
      ++ (pid task, Reject error)
      :: map (fun p => (p, Reject queueAborted))
             (seq (S (pid task)) (length (translationQueue st))) /\
    map pid (translationQueue st)
      = seq (S (pid task)) (length (translationQueue st)) /\
    S (pid task) + length (translationQueue st) = next_pid st /\
    translationQueue st' = [] /\ procs st' = [] /\ isProcessing st' = false /\
    forall k newQueue now' t', exists st'',
      step (AddQueue k newQueue now' t') st' = Some st'' /\
      isProcessing st'' = true /\
      let task' := mkTask k newQueue (next_pid st) in
      (procs st'' = [AwaitExec task'] /\ translationQueue st'' = []) \/
      (exists wake, procs st'' = [AwaitDelay wake] /\
                    translationQueue st'' = [task']).
Proof.
  intros Hrun Hn Hall Hex.
  pose proof (Inv_run _ Inv_init Hrun) as HI.
  destruct (procs_one _ _ (inv_shape HI) Hn) as [Hprocs ->].
  pose proof (inv_pids HI) as Hp. unfold inflight in Hp.
  rewrite Hprocs in Hp. simpl in Hp.
  assert (Hpid : pid task = length (settled st)).
  { apply seq_head_eq in Hp. rewrite length_map in Hp. exact Hp. }
  assert (Hset : settled st = map (fun p => (p, Resolve)) (seq 0 (pid task))).
  { apply all_resolved; [exact Hall|].
    rewrite Hpid, <- (length_map fst). eapply seq_length_eq. exact Hp. }
  assert (Hq : map pid (translationQueue st)
               = seq (S (pid task)) (length (translationQueue st))).
  { change (pid task :: map pid (translationQueue st))
      with ([pid task] ++ map pid (translationQueue st)) in Hp.
    rewrite app_assoc in Hp. apply seq_suffix_eq in Hp.
    rewrite length_app, !length_map in Hp. simpl in Hp.
    rewrite Hp at 1. f_equal. lia. }
  assert (Hnext : S (pid task) + length (translationQueue st) = next_pid st).
  { apply (f_equal (@length nat)) in Hp.
    rewrite length_app, length_seq in Hp. simpl in Hp.
    rewrite !length_map in Hp. lia. }
  eexists. split.
  { unfold step. rewrite Hn, Hex. reflexivity. }
  simpl. rewrite Hprocs. simpl.
  refine (conj _ (conj Hq (conj Hnext (conj eq_refl (conj eq_refl (conj eq_refl _)))))).
  - rewrite Hset at 1. f_equal. f_equal.
    rewrite <- Hq, map_map. reflexivity.
  - intros k newQueue now' t'. unfold processQueue, loop, dispatch. simpl.
    destruct (now' - lastRequestTime st <? 100)%Z; simpl.
    + eexists. split; [reflexivity|]. split; [reflexivity|].
      right. eexists. split; reflexivity.
    + eexists. split; [reflexivity|]. split; [reflexivity|].
      left. split; reflexivity.
Qed.

(** Witness for C1: tasks a, b, c; a has succeeded, b is refused. *)
Lemma cascade_abort_witness :
  let st := state_after scenario_B in
  let task := mkTask (Js.lit "b") refused_task 1 in
  exists st',
    step (ExecDone 0 3000 3000) st = Some st' /\
    settled st' =
      map (fun p => (p, Resolve)) (seq 0 (pid task))
      ++ (pid task, Reject refusal)
      :: map (fun p => (p, Reject queueAborted))
             (seq (S (pid task)) (length (translationQueue st))) /\
    map pid (translationQueue st)
      = seq (S (pid task)) (length (translationQueue st)) /\
    S (pid task) + length (translationQueue st) = next_pid st /\
    translationQueue st' = [] /\ procs st' = [] /\ isProcessing st' = false /\
    forall k newQueue now' t', exists st'',
      step (AddQueue k newQueue now' t') st' = Some st'' /\
      isProcessing st'' = true /\
      let task' := mkTask k newQueue (next_pid st) in
      (procs st'' = [AwaitExec task'] /\ translationQueue st'' = []) \/
      (exists wake, procs st'' = [AwaitDelay wake] /\
                    translationQueue st'' = [task']).
Proof.
  intros st task.
  apply (@cascade_abort scenario_B st 0 task refusal [Call 0] 3000 3000).
  - vm_compute. reflexivity.
  - vm_compute. reflexivity.
  - vm_compute. repeat constructor.
  - vm_compute. reflexivity.
Defined.

(** *** The queue drains *)

(** A suspended invocation can always be resumed. *)
Lemma resume_enabled (st : state) :
  Inv st -> procs st <> [] ->
  exists ev st', is_resume ev = true /\ timed st ev /\ step ev st = Some st'.
Proof.
  intros HI Hne. destruct HI as [Hsh _ _ _ _]. unfold shape_ok in Hsh.
  destruct (procs st) as [|[w|task] [|p ps]] eqn:Hprocs;
    try contradiction.
  - exists (DelayDone 0 w). cbn [step]. rewrite Hprocs. cbn [nth_error].
    destruct (dispatch w st) as [st1 k]. eexists. split; [reflexivity|].
    split; [|reflexivity]. cbn [timed]. rewrite Hprocs. cbn [nth_error].
    intros wake Hw. inversion Hw. lia.
  - exists (ExecDone 0 0 0). cbn [step]. rewrite Hprocs. cbn [nth_error].
    destruct (executeTaskWithRetry_total task) as (r & effs & ->).
    destruct r as [|error].
    + destruct (loop 0 0 _) as [st1 k]. eexists. split; [reflexivity|].
      split; [cbn; lia|reflexivity].
    + eexists. split; [reflexivity|]. split; [cbn; lia|reflexivity].
Qed.

(** Every resumption brings the end nearer, and creates no promise. *)
Lemma resume_decreases (ev : event) (st st' : state) :
  Inv st -> is_resume ev = true -> step ev st = Some st' ->
  remaining st' < remaining st /\ next_pid st' = next_pid st.
Proof.
  intros HI Hr Hstep. destruct HI as [Hsh _ _ _ _].
  destruct ev as [k newQueue now t | i t | i now t]; [discriminate| |];
    cbn [step] in Hstep.
  - destruct (nth_error (procs st) i) as [[w|task]|] eqn:Hn; try discriminate.
    destruct (procs_one _ _ Hsh Hn) as [Hprocs ->].
    unfold shape_ok in Hsh. rewrite Hprocs in Hsh. destruct Hsh as (_ & Hq & _).
    unfold dispatch in Hstep.
    destruct (translationQueue st) as [|task rest] eqn:Hqq; [contradiction|].
    inversion Hstep; subst st'; clear Hstep.
    unfold remaining. cbn. rewrite Hprocs, Hqq. cbn. lia.
  - destruct (nth_error (procs st) i) as [[w|task]|] eqn:Hn; try discriminate.
    destruct (procs_one _ _ Hsh Hn) as [Hprocs ->].
    destruct (executeTaskWithRetry task 0) as [[[|error] effs]|];
      [| |discriminate].
    + unfold loop, dispatch in Hstep. cbn in Hstep.
      destruct (translationQueue st) as [|c rest] eqn:Hqq.
      * inversion Hstep; subst st'; clear Hstep.
        unfold remaining. cbn. rewrite Hprocs, ?Hqq. cbn. lia.
      * destruct (_ <? _)%Z; inversion Hstep; subst st'; clear Hstep;
          unfold remaining; cbn; rewrite Hprocs, ?Hqq; cbn; lia.
    + inversion Hstep; subst st'; clear Hstep.
      unfold remaining. cbn. rewrite Hprocs. cbn. lia.
Qed.

Lemma Forall_resume_app (a b : list event) :
  Forall (fun ev => is_resume ev = true) a ->
  Forall (fun ev => is_resume ev = true) b ->
  Forall (fun ev => is_resume ev = true) (a ++ b).
Proof. intros Ha Hb. apply Forall_app. auto. Qed.

Lemma drains_from (n : nat) :
  forall st, Inv st -> remaining st <= n ->
  exists evs' st',
    Forall (fun ev => is_resume ev = true) evs' /\
    timed_run evs' st /\
    run evs' st = Some st' /\
    procs st' = [] /\ next_pid st' = next_pid st.
Proof.
  induction n as [|n IH]; intros st HI Hn.
  - exists [], st. repeat split; auto.
    unfold remaining in Hn. destruct (procs st) as [|[w|task] ps]; cbn in Hn;
      [reflexivity|lia|lia].
  - destruct (procs st) as [|p ps] eqn:Hprocs.
    + exists [], st. repeat split; auto.
    + destruct (@resume_enabled st HI) as (ev & st1 & Hev & Ht & Hs);
        [rewrite Hprocs; discriminate|].
      destruct (resume_decreases _ HI Hev Hs) as [Hlt Hpid].
      destruct (IH st1 (Inv_step _ HI Hs)) as (evs' & st' & Hall & Htr & Hrun & Hp & Hpid');
        [lia|].
      exists (ev :: evs'), st'. split; [|split; [|split; [|split]]].
      * constructor; assumption.
      * cbn [timed_run]. rewrite Hs. split; assumption.
      * cbn [run]. rewrite Hs. exact Hrun.
      * exact Hp.
      * rewrite Hpid'. exact Hpid.
Qed.

Lemma resumptions_bounded (evs' : list event) :
  forall st st', Inv st ->
  Forall (fun ev => is_resume ev = true) evs' ->
  run evs' st = Some st' ->
  length evs' + remaining st' <= remaining st.
Proof.
  induction evs' as [|ev evs' IH]; intros st st' HI Hall Hrun.
  - cbn in Hrun. inversion Hrun; subst. cbn. lia.
  - cbn [run] in Hrun. destruct (step ev st) as [st1|] eqn:Hs; [|discriminate].
    inversion Hall as [|? ? Hev Hall']; subst.
    destruct (resume_decreases _ HI Hev Hs) as [Hlt _].
    specialize (IH st1 st' (Inv_step _ HI Hs) Hall' Hrun). cbn [length]. lia.
Qed.

(** X1.  From any state the event loop can reach, when no more task is
    added: the suspended invocation can be resumed until none is left, under
    the clock and timer assumptions; then the queue is empty, the flag is
    cleared and every promise created has been settled.  And however the
    invocation is resumed, that takes at most two resumptions for each
    queued task, two for the task being executed and one for a delay being
    awaited. *)
Theorem queue_drains (evs : list event) (st : state) :
  run evs init = Some st ->
  (exists evs' st',
     Forall (fun ev => is_resume ev = true) evs' /\
     timed_run evs' st /\
     run evs' st = Some st' /\
     procs st' = [] /\ translationQueue st' = [] /\ isProcessing st' = false /\
     map fst (settled st') = seq 0 (next_pid st)) /\
  (forall evs' st',
     Forall (fun ev => is_resume ev = true) evs' ->
     run evs' st = Some st' ->
     length evs' <= remaining st) /\
  (translationQueue st <> [] -> procs st <> []).
Proof.
  intros Hrun. pose proof (Inv_run evs Inv_init Hrun) as HI.
  split; [|split].
  - destruct (@drains_from (remaining st) st HI (le_n _))
      as (evs' & st' & Hall & Ht & Hr & Hp & Hpid).
    exists evs', st'. repeat split; try assumption.
    + pose proof (Inv_run evs' HI Hr) as [Hsh _ _ _ _].
      unfold shape_ok in Hsh. rewrite Hp in Hsh. tauto.
    + pose proof (Inv_run evs' HI Hr) as [Hsh _ _ _ _].
      unfold shape_ok in Hsh. rewrite Hp in Hsh. tauto.
    + pose proof (Inv_run evs' HI Hr) as [Hsh Hpids _ _ _].
      unfold shape_ok in Hsh. rewrite Hp in Hsh. destruct Hsh as [_ Hq].
      unfold inflight in Hpids. rewrite Hp, Hq in Hpids. cbn in Hpids.
      rewrite app_nil_r in Hpids. rewrite Hpids, Hpid. reflexivity.
  - intros evs' st' Hall Hr.
    pose proof (resumptions_bounded HI Hall Hr). lia.
  - intros Hq Hp. destruct HI as [Hsh _ _ _ _]. unfold shape_ok in Hsh.
    rewrite Hp in Hsh. tauto.
Qed.

(** Witness for X1: two tasks are submitted, the first is being executed. *)
Lemma queue_drains_witness :
  let st := state_after two_tasks in
  (exists evs' st',
     Forall (fun ev => is_resume ev = true) evs' /\
     timed_run evs' st /\
     run evs' st = Some st' /\
     procs st' = [] /\ translationQueue st' = [] /\ isProcessing st' = false /\
     map fst (settled st') = seq 0 (next_pid st)) /\
  (forall evs' st',
     Forall (fun ev => is_resume ev = true) evs' ->
     run evs' st = Some st' ->
     length evs' <= remaining st) /\
  (translationQueue st <> [] -> procs st <> []).
Proof.
  intros st. apply (@queue_drains two_tasks st). vm_compute. reflexivity.
Defined.

(** *** Every promise gets the outcome of its own task *)

Lemma run_snoc (evs : list event) (ev : event) :
  forall st,
    run (evs ++ [ev]) st
    = match run evs st with Some st' => step ev st' | None => None end.
Proof.
  induction evs as [|a evs IH]; intros st; cbn [app run].
  - destruct (step ev st); reflexivity.
  - destruct (step a st); [apply IH|reflexivity].
Qed.

Lemma submitted_from_snoc (evs : list event) (ev : event) :
  forall n,
    submitted_from n (evs ++ [ev])
    = submitted_from n evs
      ++ match ev with
         | AddQueue k newQueue _ _ =>
             [mkTask k newQueue (n + length (submitted_from n evs))]
         | _ => []
         end.
Proof.
  induction evs as [|a evs IH]; intros n; cbn [app submitted_from].
  - destruct ev; cbn [app length]; rewrite ?Nat.add_0_r; reflexivity.
  - destruct a; rewrite IH; cbn [app length]; try reflexivity.
    destruct ev; try reflexivity.
    replace (S n + length (submitted_from (S n) evs))
      with (n + S (length (submitted_from (S n) evs))) by lia.
    reflexivity.
Qed.

Lemma settled_right_keep (tasks more : list QueueTask) (st st' : state)
    (x : nat * settle) :
  settled_right tasks st x ->
  incl (started st) (started st') ->
  incl (settled st) (settled st') ->
  (forall y, In y (started st') -> In y (started st) \/ fst y <> fst x) ->
  settled_right (tasks ++ more) st' x.
Proof.
  intros (task & Hnth & Hx) Hst Hse Hnew.
  assert (Hget : forall p t, nth_error tasks p = Some t ->
                             nth_error (tasks ++ more) p = Some t).
  { intros p t Hp. rewrite nth_error_app1; [exact Hp|].
    apply nth_error_Some. rewrite Hp. discriminate. }
  exists task. split; [apply Hget; exact Hnth|].
  destruct (snd x) as [|e].
  - destruct Hx as (effs & He & Hin). exists effs. auto.
  - destruct Hx as [(effs & He & Hin)|(Hq & Hno & p' & task' & e' & effs' & H1 & H2 & H3 & H4)].
    + left. exists effs. auto.
    + right. split; [exact Hq|]. split.
      * intros Hin. apply in_map_iff in Hin. destruct Hin as (y & Hy & Hin).
        destruct (Hnew y Hin) as [Hold|Hne]; [|congruence].
        apply Hno. rewrite <- Hy. apply in_map. exact Hold.
      * exists p', task', e', effs'. auto.
Qed.

Lemma pids_around (a b : list nat) (x n : nat) :
  a ++ x :: b = seq 0 n ->
  (forall q, In q a -> q < x) /\ (forall q, In q b -> x < q).
Proof.
  intros H. pose proof (@seq_head_eq a b x n H) as Hx.
  pose proof (@seq_length_eq a (x :: b) n H) as Ha.
  assert (H' : (a ++ [x]) ++ b = seq 0 n) by (rewrite <- app_assoc; exact H).
  pose proof (@seq_suffix_eq (a ++ [x]) b 0 n H') as Hb.
  rewrite length_app in Hb. cbn in Hb. split.
  - intros q Hq. rewrite Ha in Hq. apply in_seq in Hq. lia.
  - intros q Hq. rewrite Hb in Hq. apply in_seq in Hq. lia.
Qed.

(** A step of the event loop keeps track of the tasks. *)
Lemma tracked_step (tasks : list QueueTask) (ev : event) (st st' : state) :
  Inv st -> tracked tasks st -> step ev st = Some st' ->
  tracked (tasks ++ match ev with
                    | AddQueue k newQueue _ _ => [mkTask k newQueue (next_pid st)]
                    | _ => []
                    end) st'.
Proof.
  intros HI (K1 & K2 & K3 & K4) Hstep.
  destruct HI as [Hsh Hp _ _ _]. unfold shape_ok in Hsh.
  unfold inflight in Hp. unfold executing in K2.
  assert (Hget : forall more p t, nth_error tasks p = Some t ->
                                  nth_error (tasks ++ more) p = Some t).
  { intros more p t Hpt. rewrite nth_error_app1; [exact Hpt|].
    apply nth_error_Some. rewrite Hpt. discriminate. }
  assert (Hold : forall more l,
            Forall (fun task => nth_error tasks (pid task) = Some task) l ->
            Forall (fun task => nth_error (tasks ++ more) (pid task) = Some task) l).
  { intros more l Hl. eapply Forall_impl; [|exact Hl]. intros a Ha.
    apply Hget. exact Ha. }
  assert (Hkeep : forall more st2,
            started st2 = started st -> incl (settled st) (settled st2) ->
            Forall (settled_right (tasks ++ more) st2) (settled st)).
  { intros more st2 Hs1 Hs2. apply Forall_forall. intros x Hx.
    rewrite Forall_forall in K3.
    apply (@settled_right_keep tasks more st st2 x (K3 x Hx)).
    - rewrite Hs1. apply incl_refl.
    - exact Hs2.
    - intros y Hy. left. rewrite <- Hs1. exact Hy. }
  destruct ev as [k newQueue now t | i t | i now t]; cbn [step] in Hstep.
  - (* addQueue *)
    set (task0 := mkTask k newQueue (next_pid st)) in *.
    assert (Hnew : nth_error (tasks ++ [task0]) (pid task0) = Some task0).
    { cbn [pid task0]. rewrite nth_error_app2 by lia.
      rewrite K1, Nat.sub_diag. reflexivity. }
    unfold processQueue in Hstep. cbn in Hstep.
    destruct (procs st) as [|p [|p' ps]] eqn:Hprocs; [| |destruct p; contradiction].
    + destruct Hsh as [Hflag Hq]. rewrite Hflag in Hstep.
      unfold loop, dispatch in Hstep. cbn in Hstep. rewrite Hq in Hstep.
      cbn in Hstep.
      destruct (_ <? _)%Z; inversion Hstep; subst st'; clear Hstep;
        unfold tracked, executing; cbn; rewrite ?Hprocs, ?Hq; cbn.
      * split; [rewrite length_app, K1; cbn; lia|].
        split; [repeat constructor; exact Hnew|].
        split; [apply Hkeep; [reflexivity|apply incl_refl]|exact K4].
      * split; [rewrite length_app, K1; cbn; lia|].
        split; [repeat constructor; exact Hnew|].
        split; [apply Hkeep; [reflexivity|apply incl_refl]|exact K4].
    + assert (Hflag : isProcessing st = true) by (destruct p; tauto).
      rewrite Hflag in Hstep. inversion Hstep; subst st'; clear Hstep.
      unfold tracked, executing; cbn; rewrite ?Hprocs; cbn.
      split; [rewrite length_app, K1; cbn; lia|].
      split.
      * rewrite app_assoc. apply Forall_app. split.
        -- apply Hold. exact K2.
        -- repeat constructor. exact Hnew.
      * split; [apply Hkeep; [reflexivity|apply incl_refl]|exact K4].
  - (* the delay is over *)
    rewrite app_nil_r.
    destruct (nth_error (procs st) i) as [[w|task]|] eqn:Hn; try discriminate.
    destruct (procs_one _ _ Hsh Hn) as [Hprocs ->].
    rewrite Hprocs in Hsh, K2. destruct Hsh as (Hflag & Hq & Hw).
    unfold dispatch in Hstep.
    destruct (translationQueue st) as [|task rest] eqn:Hqq; [contradiction|].
    inversion Hstep; subst st'; clear Hstep.
    unfold tracked, executing; cbn; rewrite ?Hprocs; cbn.
    split; [exact K1|]. split; [exact K2|]. split; [|exact K4].
    rewrite <- (app_nil_r tasks). apply Hkeep; [reflexivity|apply incl_refl].
  - (* executeTaskWithRetry is over *)
    rewrite app_nil_r.
    destruct (nth_error (procs st) i) as [[w|task]|] eqn:Hn; try discriminate.
    destruct (procs_one _ _ Hsh Hn) as [Hprocs ->].
    rewrite Hprocs in Hsh, K2, Hp. cbn in K2, Hp.
    destruct (@pids_around _ _ _ _ Hp) as [Hbefore Hafter].
    inversion K2 as [|? ? Htask K2']; subst.
    assert (Hkeep2 : forall st2 effs,
              started st2 = started st ++ [(pid task, effs)] ->
              incl (settled st) (settled st2) ->
              Forall (settled_right tasks st2) (settled st)).
    { intros st2 effs Hs1 Hs2. apply Forall_forall. intros x Hx.
      rewrite Forall_forall in K3. rewrite <- (app_nil_r tasks).
      apply (@settled_right_keep tasks [] st st2 x (K3 x Hx)).
      - rewrite Hs1. apply incl_appl, incl_refl.
      - exact Hs2.
      - intros y Hy. rewrite Hs1 in Hy. apply in_app_iff in Hy.
        destruct Hy as [Hy|[<-|[]]]; [left; exact Hy|right].
        cbn [fst]. assert (fst x < pid task); [|lia].
        apply Hbefore. apply in_map. exact Hx. }
    assert (Hstarted : forall effs (settled2 : list (nat * settle)),
              incl (settled st ++ [(pid task, Resolve)]) settled2 \/
              (exists e, incl (settled st ++ [(pid task, Reject e)]) settled2) ->
              Forall (fun x => In (fst x) (map fst settled2))
                     (started st ++ [(pid task, effs)])).
    { intros effs settled2 Hs2. apply Forall_app. split.
      - eapply Forall_impl; [|exact K4]. intros x Hx.
        apply in_map_iff in Hx. destruct Hx as (y & Hy & Hin).
        rewrite <- Hy. apply in_map.
        destruct Hs2 as [Hs2|(e & Hs2)]; apply Hs2, in_app_iff; auto.
      - repeat constructor. cbn [fst].
        destruct Hs2 as [Hs2|(e & Hs2)].
        + change (pid task) with (fst (pid task, Resolve)). apply in_map.
          apply Hs2, in_app_iff. right. left. reflexivity.
        + change (pid task) with (fst (pid task, Reject e)). apply in_map.
          apply Hs2, in_app_iff. right. left. reflexivity. }
    destruct (executeTaskWithRetry task 0) as [[[|error] effs]|] eqn:Hex;
      [| |discriminate].
    + assert (Hown : forall st2,
                started st2 = started st ++ [(pid task, effs)] ->
                settled_right tasks st2 (pid task, Resolve)).
      { intros st2 Hs1. exists task. split; [exact Htask|]. cbn [snd fst].
        exists effs. split; [exact Hex|]. rewrite Hs1. apply in_app_iff.
        right. left. reflexivity. }
      unfold loop, dispatch in Hstep. cbn in Hstep.
      destruct (translationQueue st) as [|c rest] eqn:Hqq.
      * inversion Hstep; subst st'; clear Hstep.
        unfold tracked, executing; cbn; rewrite ?Hprocs; cbn.
        split; [exact K1|]. split; [constructor|]. split.
        -- apply Forall_app. split.
           ++ apply (Hkeep2 _ effs); [reflexivity|]. cbn. apply incl_appl, incl_refl.
           ++ repeat constructor. apply Hown. reflexivity.
        -- apply Hstarted. left. apply incl_refl.
      * destruct (_ <? _)%Z; inversion Hstep; subst st'; clear Hstep;
          unfold tracked, executing; cbn; rewrite ?Hprocs, ?Hqq; cbn;
          (split; [exact K1|]); (split; [exact K2'|]); split.
        -- apply Forall_app. split.
           ++ apply (Hkeep2 _ effs); [reflexivity|]. cbn. apply incl_appl, incl_refl.
           ++ repeat constructor. apply Hown. reflexivity.
        -- apply Hstarted. left. apply incl_refl.
        -- apply Forall_app. split.
           ++ apply (Hkeep2 _ effs); [reflexivity|]. cbn. apply incl_appl, incl_refl.
           ++ repeat constructor. apply Hown. reflexivity.
        -- apply Hstarted. left. apply incl_refl.
    + inversion Hstep; subst st'; clear Hstep.
      unfold tracked, executing; cbn; rewrite ?Hprocs; cbn.
      split; [exact K1|]. split; [constructor|]. split.
      * apply Forall_app. split.
        -- apply (Hkeep2 _ effs); [reflexivity|]. cbn. apply incl_appl, incl_refl.
        -- constructor.
           ++ exists task. split; [exact Htask|]. cbn [snd fst]. left.
              exists effs. split; [exact Hex|]. cbn. apply in_app_iff.
              right. left. reflexivity.
           ++ apply Forall_map. rewrite Forall_forall in K2'.
              apply Forall_forall. intros rt Hrt.
              assert (Hlt : pid task < pid rt)
                by (apply Hafter, in_map; exact Hrt).
              exists rt. split; [apply K2'; exact Hrt|]. cbn [snd fst]. right.
              split; [reflexivity|]. split.
              ** cbn. rewrite map_app. cbn. intros Hin.
                 apply in_app_iff in Hin. destruct Hin as [Hin|[Hin|[]]]; [|lia].
                 apply in_map_iff in Hin. destruct Hin as (y & Hy & Hin).
                 rewrite Forall_forall in K4. specialize (K4 y Hin).
                 rewrite Hy in K4. apply Hbefore in K4. lia.
              ** exists (pid task), task, error, effs.
                 split; [exact Hlt|]. split; [exact Htask|].
                 split; [exact Hex|]. cbn. apply in_app_iff. right. left.
                 reflexivity.
      * apply Hstarted. right. exists error.
        intros y Hy. apply in_app_iff in Hy. apply in_app_iff.
        destruct Hy as [Hy|[<-|[]]]; [left; exact Hy|right; left; reflexivity].
Qed.

Lemma tracked_run (evs : list event) :
  forall st, run evs init = Some st -> tracked (submitted evs) st.
Proof.
  induction evs as [|ev evs IH] using rev_ind; intros st Hrun.
  - inversion Hrun; subst st. unfold tracked, executing. cbn.
    repeat split; constructor.
  - rewrite run_snoc in Hrun.
    destruct (run evs init) as [st0|] eqn:Hrun0; [|discriminate].
    pose proof (Inv_run _ Inv_init Hrun0) as HI.
    pose proof (IH st0 eq_refl) as Ht.
    pose proof (@tracked_step _ _ _ _ HI Ht Hrun) as Ht'.
    unfold submitted. rewrite submitted_from_snoc. cbn [Nat.add].
    destruct Ht as [Hlen _]. unfold submitted in Hlen. rewrite Hlen.
    exact Ht'.
Qed.

Lemma submitted_from_pid (evs : list event) :
  forall n i task,
    nth_error (submitted_from n evs) i = Some task -> pid task = n + i.
Proof.
  induction evs as [|ev evs IH]; intros n i task Hn; cbn [submitted_from] in Hn.
  - destruct i; discriminate.
  - destruct ev as [k newQueue now t| |]; try (apply IH; exact Hn).
    destruct i as [|i]; cbn in Hn.
    + inversion Hn. cbn. lia.
    + rewrite (IH _ _ _ Hn). lia.
Qed.

(** X2.  In every state the event loop can reach, a promise that has been
    settled got the outcome of its own task, the one its call of addQueue
    submitted.  It was resolved only after executeTaskWithRetry ran on that
    task and returned.  It was rejected either with the very error that
    executeTaskWithRetry threw for that task, or with the queue-aborted
    error; in the latter case its task was never executed and a task
    submitted earlier had failed and had its own promise rejected with its
    error. *)
Theorem promise_gets_own_outcome (evs : list event) (st : state)
    (p : nat) (s : settle) :
  run evs init = Some st ->
  In (p, s) (settled st) ->
  exists task,
    nth_error (submitted evs) p = Some task /\ pid task = p /\
    match s with
    | Resolve =>
        exists effs, executeTaskWithRetry task 0 = Some (Returned, effs) /\
                     In (p, effs) (started st)
    | Reject e =>
        (exists effs, executeTaskWithRetry task 0 = Some (Thrown e, effs) /\
                      In (p, effs) (started st))
        \/ (e = queueAborted /\ ~ In p (map fst (started st)) /\
            exists p' task' e' effs',
              p' < p /\ nth_error (submitted evs) p' = Some task' /\
              executeTaskWithRetry task' 0 = Some (Thrown e', effs') /\
              In (p', Reject e') (settled st))
    end.
Proof.
  intros Hrun Hin. destruct (tracked_run _ Hrun) as (_ & _ & K3 & _).
  rewrite Forall_forall in K3. destruct (K3 _ Hin) as (task & Hn & Hs).
  cbn [fst snd] in Hn, Hs. exists task. split; [exact Hn|].
  split; [|exact Hs]. apply (submitted_from_pid _ _ _ Hn).
Qed.

(** Witness for X2: the promise of the third task of [aborted_run]. *)
Lemma promise_gets_own_outcome_witness :
  exists task,
    nth_error (submitted aborted_run) 2 = Some task /\ pid task = 2 /\
    ((exists effs, executeTaskWithRetry task 0 = Some (Thrown queueAborted, effs) /\
                   In (2, effs) (started (state_after aborted_run)))
     \/ (queueAborted = queueAborted /\
         ~ In 2 (map fst (started (state_after aborted_run))) /\
         exists p' task' e' effs',
           p' < 2 /\ nth_error (submitted aborted_run) p' = Some task' /\
           executeTaskWithRetry task' 0 = Some (Thrown e', effs') /\
           In (p', Reject e') (settled (state_after aborted_run)))).
Proof.
  apply (@promise_gets_own_outcome aborted_run (state_after aborted_run) 2
           (Reject queueAborted)).
  - vm_compute. reflexivity.
  - vm_compute. right. right. left. reflexivity.
Defined.

Lemma run_app (a b : list event) :
  forall st,
    run (a ++ b) st
    = match run a st with Some st' => run b st' | None => None end.
Proof.
  induction a as [|ev a IH]; intros st; cbn [app run]; [reflexivity|].
  destruct (step ev st); [apply IH|reflexivity].
Qed.

Lemma submitted_from_resume (a b : list event) :
  Forall (fun ev => is_resume ev = true) b ->
  forall n, submitted_from n (a ++ b) = submitted_from n a.
Proof.
  intros Hb. induction a as [|ev a IH]; intros n; cbn [app].
  - clear - Hb. induction Hb as [|ev b Hev _ IH]; [reflexivity|].
    destruct ev; [discriminate|exact IH|exact IH].
  - destruct ev; cbn [submitted_from]; rewrite IH; reflexivity.
Qed.

Lemma no_failure_resolved (tasks : list QueueTask) (st : state) :
  tracked tasks st ->
  Forall (fun task => exists effs,
            executeTaskWithRetry task 0 = Some (Returned, effs)) tasks ->
  Forall (fun x => snd x = Resolve) (settled st).
Proof.
  intros (_ & _ & K3 & _) Hall. rewrite Forall_forall in Hall.
  eapply Forall_impl; [|exact K3]. intros [p [|e]] (task & Hn & Hs);
    [reflexivity|]. cbn [fst snd] in Hn, Hs. exfalso.
  destruct Hs as [(effs & He & _)|(_ & _ & p' & task' & e' & effs' & _ & Hn' & He' & _)].
  - destruct (Hall task (nth_error_In _ _ Hn)) as (effs0 & He0). congruence.
  - destruct (Hall task' (nth_error_In _ _ Hn')) as (effs0 & He0). congruence.
Qed.

(** X3.  A promise is rejected only when a task fails.  In a run in which
    executeTaskWithRetry returns for every task submitted, no promise
    settled so far was rejected; and the suspended invocation can be resumed
    until none is left, after which the promise of every task submitted has
    been resolved, in submission order. *)
Theorem no_failure_no_rejection (evs : list event) (st : state) :
  run evs init = Some st ->
  Forall (fun task => exists effs,
            executeTaskWithRetry task 0 = Some (Returned, effs))
         (submitted evs) ->
  Forall (fun x => snd x = Resolve) (settled st) /\
  exists evs' st',
    Forall (fun ev => is_resume ev = true) evs' /\
    timed_run evs' st /\
    run evs' st = Some st' /\ procs st' = [] /\
    settled st' = map (fun p => (p, Resolve)) (seq 0 (length (submitted evs))).
Proof.
  intros Hrun Hall. pose proof (Inv_run evs Inv_init Hrun) as HI. split.
  - apply (no_failure_resolved (tracked_run _ Hrun) Hall).
  - destruct (@drains_from (remaining st) st HI (le_n _))
      as (evs' & st' & Hres & Ht & Hr & Hp & Hpid).
    exists evs', st'. repeat (split; [assumption|]).
    assert (Hrun' : run (evs ++ evs') init = Some st')
      by (rewrite run_app, Hrun; exact Hr).
    pose proof (tracked_run _ Hrun') as Htr.
    unfold submitted in Htr. rewrite (submitted_from_resume evs Hres) in Htr.
    pose proof (no_failure_resolved Htr Hall) as Hok.
    destruct Htr as (Hlen & _). unfold submitted. rewrite Hlen.
    apply all_resolved; [exact Hok|].
    pose proof (Inv_run evs' HI Hr) as [Hsh Hpids _ _ _].
    unfold shape_ok in Hsh. rewrite Hp in Hsh. destruct Hsh as [_ Hq].
    unfold inflight in Hpids. rewrite Hp, Hq in Hpids. cbn in Hpids.
    rewrite app_nil_r in Hpids. exact Hpids.
Qed.

(** Witness for X3: two tasks that succeed. *)
Lemma no_failure_no_rejection_witness :
  let st := state_after two_tasks in
  Forall (fun x => snd x = Resolve) (settled st) /\
  exists evs' st',
    Forall (fun ev => is_resume ev = true) evs' /\
    timed_run evs' st /\
    run evs' st = Some st' /\ procs st' = [] /\
    settled st' = map (fun p => (p, Resolve)) (seq 0 (length (submitted two_tasks))).
Proof.
  intros st. apply (@no_failure_no_rejection two_tasks st).
  - vm_compute. reflexivity.
  - repeat constructor; eexists; vm_compute; reflexivity.
Defined.

(** *** What executeTaskWithRetry logs and how long it waits *)

Lemma in_failure_log (k : Js.str) (e : JsError) (x : effect) :
  message_fault e = None ->
  (In x (failure_log k e) <->
   quiet_failure e = false /\ (x = LogWarn k e \/ x = LogDebug e)).
Proof.
  unfold failure_log, quiet_failure, message_fault.
  destruct (message e) as [[|c m]|t|b|t]; try discriminate; intros _.
  - cbn. split; [tauto|]. intros [H _]. discriminate.
  - destruct (Js.includes TOO_MANY (c :: m)); cbn.
    + split; [tauto|]. intros [H _]. discriminate.
    + split.
      * intros [H|[H|[]]]; subst x; auto.
      * intros [_ [-> | ->]]; auto.
  - destruct b; cbn.
    + split; [tauto|]. intros [H _]. discriminate.
    + split.
      * intros [H|[H|[]]]; subst x; auto.
      * intros [_ [-> | ->]]; auto.
Qed.

Lemma executeTaskWithRetry_fuel_logs (task : QueueTask) :
  forall fuel rc r effs,
    fuel + rc = S MAX_RETRIES ->
    executeTaskWithRetry_fuel fuel task rc = Some (r, effs) ->
    (forall k e, In (LogWarn k e) effs ->
       k = key task /\
       exists j, queue task j = Rejected e /\ refused e = false /\
                 message_fault e = None /\ quiet_failure e = false) /\
    (forall k e, In (LogError k e) effs ->
       k = key task /\ r = Thrown e /\ rc + length (calls_of effs) = 6 /\
       queue task MAX_RETRIES = Rejected e /\ refused e = false /\
       message_fault e = None) /\
    (forall e, rc + length (calls_of effs) = 6 ->
       queue task MAX_RETRIES = Rejected e -> refused e = false ->
       message_fault e = None -> In (LogError (key task) e) effs) /\
    (forall j e, rc <= j < rc + length (calls_of effs) ->
       queue task j = Rejected e -> refused e = false ->
       message_fault e = None -> quiet_failure e = false ->
       In (LogWarn (key task) e) effs /\ In (LogDebug e) effs).
Proof.
  induction fuel as [|fuel IH]; intros rc r effs Hsum Hex; [discriminate|].
  cbn [executeTaskWithRetry_fuel] in Hex.
  destruct (queue task rc) as [|error] eqn:Hq.
  { inversion Hex; subst. split; [|split; [|split]].
    - intros k e [H|[]]. discriminate.
    - intros k e [H|[]]. discriminate.
    - cbn. intros e Hlen Hqe. unfold MAX_RETRIES in *.
      replace rc with 5 in Hq by lia. congruence.
    - cbn. intros j e Hj Hqj. assert (j = rc) by lia. subst j. congruence. }
  destruct (refused error) eqn:Href.
  { inversion Hex; subst. split; [|split; [|split]].
    - intros k e [H|[]]. discriminate.
    - intros k e [H|[]]. discriminate.
    - cbn. intros e Hlen Hqe. unfold MAX_RETRIES in *.
      replace rc with 5 in Hq by lia. congruence.
    - cbn. intros j e Hj Hqj. assert (j = rc) by lia. subst j.
      rewrite Hq in Hqj. inversion Hqj; subst. congruence. }
  destruct (message_fault error) as [thrown|] eqn:Hfault.
  { inversion Hex; subst. split; [|split; [|split]].
    - intros k e [H|[]]. discriminate.
    - intros k e [H|[]]. discriminate.
    - cbn. intros e Hlen Hqe. unfold MAX_RETRIES in *.
      replace rc with 5 in Hq by lia. congruence.
    - cbn. intros j e Hj Hqj. assert (j = rc) by lia. subst j.
      rewrite Hq in Hqj. inversion Hqj; subst. congruence. }
  destruct (Nat.ltb_spec rc MAX_RETRIES) as [Hlt|Hge].
  - destruct (executeTaskWithRetry_fuel fuel task (rc + 1)) as [[r' effs']|] eqn:Hrec;
      [|discriminate].
    inversion Hex; subst r effs; clear Hex.
    assert (Hsum' : fuel + (rc + 1) = S MAX_RETRIES) by lia.
    destruct (IH _ _ _ Hsum' Hrec) as (W & E & E' & C).
    assert (Hcalls : length (calls_of (Call rc :: failure_log (key task) error
                       ++ LogInfo (rc + 1) :: Delay (retry_delay (rc + 1)) :: effs'))
                     = S (length (calls_of effs'))).
    { cbn [calls_of flat_map app length].
      change (flat_map _ ?l) with (calls_of l).
      rewrite calls_of_app, calls_of_failure_log. reflexivity. }
    rewrite Hcalls. split; [|split; [|split]].
    + intros k e [H|H]; [discriminate|]. apply in_app_iff in H.
      destruct H as [H|[H|[H|H]]]; try discriminate.
      * apply in_failure_log in H; [|exact Hfault].
        destruct H as [Hquiet [H|H]]; [|discriminate].
        inversion H; subst. split; [reflexivity|]. exists rc. auto.
      * apply W. exact H.
    + intros k e [H|H]; [discriminate|]. apply in_app_iff in H.
      destruct H as [H|[H|[H|H]]]; try discriminate.
      * apply in_failure_log in H; [|exact Hfault].
        destruct H as [_ [H|H]]; discriminate.
      * destruct (E _ _ H) as (E1 & E2 & E3 & E4).
        split; [exact E1|]. split; [exact E2|]. split; [lia|exact E4].
    + intros e Hlen Hqe Hre Hfe. right. apply in_app_iff. right. right. right.
      apply E'; try assumption. lia.
    + intros j e Hj Hqj Hrj Hfj Hquiet.
      destruct (Nat.eq_dec j rc) as [->|Hne].
      * rewrite Hq in Hqj. inversion Hqj; subst e.
        split; right; apply in_app_iff; left; apply in_failure_log; auto.
      * destruct (C j e) as [H1 H2]; try assumption; [lia|].
        split; right; apply in_app_iff; right; right; right; assumption.
  - inversion Hex; subst r effs; clear Hex.
    assert (Hrc : rc = MAX_RETRIES) by lia.
    assert (Hcalls : length (calls_of (Call rc :: failure_log (key task) error
                       ++ [LogError (key task) error])) = 1).
    { cbn [calls_of flat_map app length].
      change (flat_map _ ?l) with (calls_of l).
      rewrite calls_of_app, calls_of_failure_log. reflexivity. }
    rewrite Hcalls. split; [|split; [|split]].
    + intros k e [H|H]; [discriminate|]. apply in_app_iff in H.
      destruct H as [H|[H|[]]]; [|discriminate].
      apply in_failure_log in H; [|exact Hfault].
      destruct H as [Hquiet [H|H]]; [|discriminate].
      inversion H; subst. split; [reflexivity|]. exists MAX_RETRIES. auto.
    + intros k e [H|H]; [discriminate|]. apply in_app_iff in H.
      destruct H as [H|[H|[]]].
      * apply in_failure_log in H; [|exact Hfault].
        destruct H as [_ [H|H]]; discriminate.
      * inversion H; subst. unfold MAX_RETRIES. repeat split; auto.
    + intros e _ Hqe _ _. subst rc. rewrite Hq in Hqe. inversion Hqe; subst e.
      right. apply in_app_iff. right. left. reflexivity.
    + intros j e Hj Hqj Hrj Hfj Hquiet. assert (j = rc) by lia. subst j.
      rewrite Hq in Hqj. inversion Hqj; subst e.
      split; right; apply in_app_iff; left; apply in_failure_log; auto.
Qed.

(** X4.  What executeTaskWithRetry logs.  A warning names the task's key and
    the error of a failed call that was not a refusal, whose message was
    read and tested without a throw and is neither falsy nor holds '429 Too
    Many Requests'; every such failure among the calls made is warned about
    and its error is logged at debug level.  The error log is written only
    when the function throws the error of its sixth call, with the task's
    key and that error, which is no refusal and whose message was read and
    tested without a throw; and it is written whenever the sixth call is
    made and fails with such an error. *)
Theorem executeTaskWithRetry_logging (task : QueueTask) :
  exists r effs,
    executeTaskWithRetry task 0 = Some (r, effs) /\
    (forall k e, In (LogWarn k e) effs ->
       k = key task /\
       exists j, queue task j = Rejected e /\ refused e = false /\
                 message_fault e = None /\ quiet_failure e = false) /\
    (forall k e, In (LogError k e) effs ->
       k = key task /\ r = Thrown e /\ length (calls_of effs) = 6 /\
       queue task MAX_RETRIES = Rejected e /\ refused e = false /\
       message_fault e = None) /\
    (forall e, length (calls_of effs) = 6 ->
       queue task MAX_RETRIES = Rejected e -> refused e = false ->
       message_fault e = None -> In (LogError (key task) e) effs) /\
    (forall j e, j < length (calls_of effs) ->
       queue task j = Rejected e -> refused e = false ->
       message_fault e = None -> quiet_failure e = false ->
       In (LogWarn (key task) e) effs /\ In (LogDebug e) effs).
Proof.
  destruct (executeTaskWithRetry_total task) as (r & effs & Hex).
  exists r, effs. split; [exact Hex|].
  assert (Hsum : S MAX_RETRIES - 0 + 0 = S MAX_RETRIES) by reflexivity.
  destruct (@executeTaskWithRetry_fuel_logs task _ _ _ _ Hsum Hex)
    as (W & E & E' & C).
  split; [exact W|]. split; [exact E|]. split; [exact E'|].
  intros j e Hj. apply C. lia.
Qed.

(** X5.  The time executeTaskWithRetry spends waiting between its calls is
    at most 81 s, whatever the task does; it waits that long exactly when it
    makes all six calls, and it does not wait at all exactly when it makes
    one call only. *)
Theorem executeTaskWithRetry_wait_bounded (task : QueueTask) :
  exists r effs,
    executeTaskWithRetry task 0 = Some (r, effs) /\
    (0 <= total_delay effs <= 81000)%Z /\
    (total_delay effs = 81000%Z <-> length (calls_of effs) = 6) /\
    (total_delay effs = 0%Z <-> length (calls_of effs) = 1).
Proof.
  destruct (@executeTaskWithRetry_shape task 0) as (r & effs & k & Hex & Hsh);
    [unfold MAX_RETRIES; lia|].
  exists r, effs. split; [exact Hex|].
  destruct Hsh as [H1 H2 H3 H4 _ _]. unfold total_delay.
  rewrite H4, H3, length_seq. unfold MAX_RETRIES in H2.
  do 7 (destruct k as [|k]; [vm_compute; intuition (try discriminate; try lia)|]). lia.
Qed.
End QueueFacts.

(* ================================================================== *)
(** ** Properties of the matcher *)

Module ReFacts.
Import Js Re.

Lemma str_eqb_eq (a b : str) : str_eqb a b = true <-> a = b.
Proof.
  revert b; induction a as [|x a IH]; intros [|y b]; simpl;
    try (split; [discriminate | discriminate]); try tauto.
  unfold char_eqb. rewrite andb_true_iff, N.eqb_eq, IH.
  split; [intros [-> ->]; reflexivity | intros H; inversion H; auto].
Qed.

Lemma filter_none (A : Type) (f : A -> bool) (l : list A) :
  (forall x, In x l -> f x = false) -> filter f l = [].
Proof.
  induction l as [|x l IH]; intros H; [reflexivity|].
  cbn [filter]. rewrite (H x) by (left; reflexivity).
  apply IH. intros y Hy. apply H. right; exact Hy.
Qed.

Lemma keep_some (cap : bool) (c : char) (res : option (str * str))
    (g rest : str) :
  keep cap c res = Some (g, rest) ->
  exists g', res = Some (g', rest).
Proof.
  unfold keep. destruct res as [[g' r']|]; [|discriminate].
  intros H; inversion H; subst. eauto.
Qed.

Lemma once_consuming (cls : char -> bool) (cap : bool) k :
  consuming k -> consuming (once cls cap k).
Proof.
  intros Hk s g rest. unfold once. destruct s as [|c s']; [discriminate|].
  destruct (cls c); [|discriminate]. intros H.
  destruct (keep_some _ _ _ H) as (g' & Hg).
  destruct (Hk _ _ _ Hg) as (m & ->). exists (c :: m). reflexivity.
Qed.

Lemma greedy_consuming (cls : char -> bool) (cap : bool) k :
  consuming k -> consuming (greedy cls cap k).
Proof.
  intros Hk s. induction s as [|c s' IH]; intros g rest; simpl.
  - apply Hk.
  - destruct (cls c); [|apply Hk].
    destruct (keep cap c (greedy cls cap k s')) as [[g1 r1]|] eqn:Hkeep.
    + intros H; inversion H; subst.
      destruct (keep_some _ _ _ Hkeep) as (g' & Hg).
      destruct (IH _ _ Hg) as (m & ->). exists (c :: m). reflexivity.
    + apply Hk.
Qed.

Lemma lazy_consuming (cls : char -> bool) (cap : bool) k :
  consuming k -> consuming (lazy cls cap k).
Proof.
  intros Hk s. induction s as [|c s' IH]; intros g rest; simpl.
  - destruct (k []) as [[g1 r1]|] eqn:Hk0; [|discriminate].
    intros H; inversion H; subst. eapply Hk; eassumption.
  - destruct (k (c :: s')) as [[g1 r1]|] eqn:Hk0.
    + intros H; inversion H; subst. eapply Hk; eassumption.
    + destruct (cls c); [|discriminate]. intros H.
      destruct (keep_some _ _ _ H) as (g' & Hg).
      destruct (IH _ _ Hg) as (m & ->). exists (c :: m). reflexivity.
Qed.

Lemma match_here_consuming (r : regex) : consuming (match_here r).
Proof.
  induction r as [|a r IH]; simpl.
  - intros s g rest H; inversion H; subst. exists []. reflexivity.
  - destruct a as [cls q cap|].
    + destruct q; auto using once_consuming, greedy_consuming, lazy_consuming.
    + intros s g rest. destruct s; [|discriminate]. apply IH.
Qed.

(** A match found by [exec] splits the text in three. *)
Lemma exec_split (r : regex) (s : str) :
  forall pre g rest, exec r s = Some (pre, g, rest) ->
  exists m, s = pre ++ m ++ rest /\ match_here r (m ++ rest) = Some (g, rest).
Proof.
  induction s as [|c s IH]; intros pre g rest; simpl.
  - destruct (match_here r []) as [[g1 r1]|] eqn:Hm; [|discriminate].
    intros H; inversion H; subst.
    destruct (match_here_consuming _ _ Hm) as (m & Hs).
    exists m. rewrite <- Hs. auto.
  - destruct (match_here r (c :: s)) as [[g1 r1]|] eqn:Hm.
    + intros H; inversion H; subst.
      destruct (match_here_consuming _ _ Hm) as (m & Hs).
      exists m. simpl. rewrite <- Hs. auto.
    + destruct (exec r s) as [[[p1 g1] r1]|] eqn:He; [|discriminate].
      intros H; inversion H; subst.
      destruct (IH _ _ _ eq_refl) as (m & -> & Hm').
      exists m. auto.
Qed.

(** An expression that starts with a character has no empty match. *)
Lemma progress_once (cls : char -> bool) (cap : bool) (r : regex) :
  progress (Atom cls One cap :: r).
Proof.
  intros s g rest. cbn [match_here]. unfold once.
  destruct s as [|c s']; [discriminate|]. destruct (cls c); [|discriminate].
  intros H. destruct (keep_some _ _ _ H) as (g' & Hg).
  destruct (match_here_consuming _ _ Hg) as (m & ->).
  cbn [length]. rewrite length_app. lia.
Qed.

Lemma exec_shorter (r : regex) :
  progress r ->
  forall s pre g rest, exec r s = Some (pre, g, rest) -> length rest < length s.
Proof.
  intros Hr s pre g rest He.
  destruct (exec_split _ _ He) as (m & -> & Hm).
  apply Hr in Hm. rewrite !length_app in *. lia.
Qed.

(** The fuel of [exec_all] and of [replace_all] is never used up: more fuel
    than the length of the text changes nothing. *)
Lemma exec_all_fuel_enough (r : regex) :
  progress r ->
  forall n fuel fuel' s,
    length s <= n -> n <= fuel -> n <= fuel' ->
    exec_all_fuel fuel r s = exec_all_fuel fuel' r s.
Proof.
  intros Hr. induction n as [|n IH]; intros fuel fuel' s Hs Hf Hf'.
  - destruct s; [|cbn in Hs; lia].
    assert (He : exec r [] = None).
    { cbn [exec]. destruct (match_here r []) as [[g rest]|] eqn:Hm;
        [|reflexivity].
      apply Hr in Hm. cbn in Hm. lia. }
    destruct fuel, fuel'; cbn [exec_all_fuel]; rewrite ?He; reflexivity.
  - destruct fuel as [|fuel]; [lia|]. destruct fuel' as [|fuel']; [lia|].
    cbn [exec_all_fuel].
    destruct (exec r s) as [[[pre g] rest]|] eqn:He; [|reflexivity].
    f_equal. apply IH; try lia.
    pose proof (exec_shorter Hr _ He). lia.
Qed.

Lemma replace_all_fuel_enough (r : regex) :
  progress r ->
  forall n fuel fuel' s,
    length s <= n -> n <= fuel -> n <= fuel' ->
    replace_all_fuel fuel r s = replace_all_fuel fuel' r s.
Proof.
  intros Hr. induction n as [|n IH]; intros fuel fuel' s Hs Hf Hf'.
  - destruct s; [|cbn in Hs; lia].
    assert (He : exec r [] = None).
    { cbn [exec]. destruct (match_here r []) as [[g rest]|] eqn:Hm;
        [|reflexivity].
      apply Hr in Hm. cbn in Hm. lia. }
    destruct fuel, fuel'; cbn [replace_all_fuel]; rewrite ?He; reflexivity.
  - destruct fuel as [|fuel]; [lia|]. destruct fuel' as [|fuel']; [lia|].
    cbn [replace_all_fuel].
    destruct (exec r s) as [[[pre g] rest]|] eqn:He; [|reflexivity].
    f_equal. apply IH; try lia.
    pose proof (exec_shorter Hr _ He). lia.
Qed.

(** [replace_first] only removes text. *)
Lemma replace_first_incl (r : regex) (s : str) (c : char) :
  In c (replace_first r s) -> In c s.
Proof.
  unfold replace_first. destruct (exec r s) as [[[pre g] rest]|] eqn:He; [|auto].
  destruct (exec_split _ _ He) as (m & -> & _).
  rewrite !in_app_iff. tauto.
Qed.

Lemma keep_false (c : char) (res : option (str * str)) : keep false c res = res.
Proof. destruct res as [[g r]|]; reflexivity. Qed.

(** A literal prefix of an expression is matched character by character. *)
Lemma match_here_literal (l : str) (r : regex) :
  forall s,
    match_here (literal l ++ r) s
    = if startsWith l s then match_here r (skipn (length l) s) else None.
Proof.
  induction l as [|c l IH]; intros s; [reflexivity|].
  cbn [literal map app match_here]. unfold once.
  destruct s as [|x s]; [reflexivity|].
  cbn [startsWith length skipn]. unfold only.
  destruct (char_eqb c x); [|reflexivity].
  rewrite keep_false. apply IH.
Qed.

(** [x*] before a continuation that never fails takes the longest run. *)
Lemma greedy_total (cls : char -> bool) k :
  (forall s, k s <> None) ->
  forall s, greedy cls false k s = k (drop_while cls s).
Proof.
  intros Hk s. induction s as [|c s IH]; simpl; [reflexivity|].
  destruct (cls c); [|reflexivity].
  rewrite keep_false, IH.
  destruct (k (drop_while cls s)) eqn:Hd; [reflexivity|].
  exfalso. exact (Hk _ Hd).
Qed.

(** [[\s\S]*$] takes all the text. *)
Lemma greedy_any_end (s : str) :
  greedy any false (match_here [AtEnd]) s = Some ([], []).
Proof.
  induction s as [|c s IH]; [reflexivity|].
  cbn [greedy]. unfold any at 1. rewrite keep_false, IH. reflexivity.
Qed.

(** Text in which no match starts is skipped by the search. *)
Lemma exec_skip (r : regex) (pre : str) :
  forall rest,
    (forall a b, pre = a ++ b -> b <> [] -> match_here r (b ++ rest) = None) ->
    exec r (pre ++ rest)
    = match exec r rest with
      | Some (p, g, t) => Some (pre ++ p, g, t)
      | None => None
      end.
Proof.
  induction pre as [|c pre IH]; intros rest Hno.
  - simpl. destruct (exec r rest) as [[[p g] t]|]; reflexivity.
  - cbn [app exec].
    assert (H0 : match_here r (c :: pre ++ rest) = None)
      by (apply (Hno [] (c :: pre)); [reflexivity | discriminate]).
    rewrite H0, IH.
    + destruct (exec r rest) as [[[p g] t]|]; reflexivity.
    + intros a b -> Hb. apply (Hno (c :: a) b); [reflexivity|exact Hb].
Qed.

Lemma exec_here (r : regex) (s g rest : str) :
  match_here r s = Some (g, rest) -> exec r s = Some ([], g, rest).
Proof. intros H. destruct s; simpl; rewrite H; reflexivity. Qed.

(** Occurrences of a text without line breaks do not span lines. *)
Lemma startsWith_app_nl (nl : char) (p : str) :
  p <> [] -> ~ In nl p ->
  forall a t, startsWith p (a ++ nl :: t) = startsWith p a.
Proof.
  induction p as [|c p IH]; intros Hne Hn a t; [contradiction|].
  destruct a as [|x a]; cbn [app startsWith].
  - unfold char_eqb. destruct (N.eqb_spec c nl) as [->|]; [|reflexivity].
    exfalso. apply Hn. left; reflexivity.
  - destruct (char_eqb c x); [|reflexivity]. simpl.
    destruct p as [|c' p]; [reflexivity|].
    apply IH; [discriminate|]. intros H. apply Hn. right; exact H.
Qed.

Lemma includes_false_suffix (p : str) (a : str) :
  forall b, includes p (a ++ b) = false -> startsWith p b = false.
Proof.
  induction a as [|x a IH]; intros b H.
  - simpl in H. destruct b; simpl in H; apply orb_false_iff in H; tauto.
  - cbn [app includes] in H. apply orb_false_iff in H. apply IH. tauto.
Qed.

Lemma includes_false_occurrences (p s : str) :
  includes p s = false -> occurrences p s = 0.
Proof.
  induction s as [|x s IH]; cbn [includes occurrences]; intros H;
    apply orb_false_iff in H; destruct H as [H1 H2]; rewrite H1.
  - reflexivity.
  - rewrite IH by exact H2. reflexivity.
Qed.

Lemma startsWith_app (p : str) :
  forall u b, startsWith p u = true -> startsWith p (u ++ b) = true.
Proof.
  induction p as [|c p IH]; intros u b Hs; [reflexivity|].
  destruct u as [|y u]; [discriminate|]. cbn [startsWith app] in *.
  apply andb_true_iff in Hs. destruct Hs as [Hc Hs].
  rewrite Hc. simpl. apply IH. exact Hs.
Qed.

Lemma includes_false_prefix (p : str) (a b : str) :
  p <> [] -> includes p (a ++ b) = false -> includes p a = false.
Proof.
  intros Hne. induction a as [|x a IH]; intros H.
  - destruct p; [contradiction|reflexivity].
  - cbn [app includes] in *. apply orb_false_iff in H. destruct H as [H1 H2].
    rewrite IH by exact H2. rewrite orb_false_r.
    destruct (startsWith p (x :: a)) eqn:Hs; [|reflexivity].
    rewrite <- H1. symmetry.
    apply (startsWith_app p (x :: a) b Hs).
Qed.

Lemma occurrences_app_nl (nl : char) (p : str) :
  p <> [] -> ~ In nl p ->
  forall a t,
    occurrences p (a ++ nl :: t) = occurrences p a + occurrences p (nl :: t).
Proof.
  intros Hne Hn a t. induction a as [|x a IH].
  - destruct p; [contradiction|]. reflexivity.
  - pose proof (@startsWith_app_nl nl p Hne Hn (x :: a) t) as Hs.
    remember (nl :: t) as u. cbn [occurrences app] in *.
    rewrite Hs, IH. lia.
Qed.

Lemma suffix_of_snoc (A : Type) (x a b : list A) (c : A) :
  x ++ [c] = a ++ b -> b <> [] -> exists b', b = b' ++ [c] /\ x = a ++ b'.
Proof.
  intros He Hb. destruct (exists_last Hb) as (b' & c' & ->).
  rewrite app_assoc in He. apply app_inj_tail in He. destruct He as [-> ->].
  eauto.
Qed.

Lemma startsWith_self_app (p t : str) : startsWith p (p ++ t) = true.
Proof.
  induction p as [|c p IH]; [reflexivity|].
  cbn [app startsWith]. unfold char_eqb. rewrite N.eqb_refl. exact IH.
Qed.

Lemma skipn_length_app (A : Type) (p t : list A) : skipn (length p) (p ++ t) = t.
Proof. induction p as [|c p IH]; [reflexivity|exact IH]. Qed.

Lemma drop_while_except (c : char) (u v : str) :
  ~ In c u -> drop_while (except c) (u ++ c :: v) = c :: v.
Proof.
  induction u as [|x u IH]; intros Hn; cbn [app drop_while].
  - unfold except, char_eqb. rewrite N.eqb_refl. reflexivity.
  - unfold except at 1, char_eqb. destruct (N.eqb_spec c x) as [->|Hne].
    + exfalso. apply Hn. left; reflexivity.
    + cbn [negb]. apply IH. intros H. apply Hn. right; exact H.
Qed.

(** When the continuation fails on every text that starts in the class,
    [x*] has one way to match: the longest run. *)
Lemma greedy_disjoint (cls : char -> bool) (cap : bool) k :
  (forall c r, cls c = true -> k (c :: r) = None) ->
  forall s,
    greedy cls cap k s
    = keep_run cap (take_while cls s) (k (drop_while cls s)).
Proof.
  intros Hk s. induction s as [|c s IH]; cbn [greedy take_while drop_while].
  - destruct (k []) as [[g r]|]; simpl; [destruct cap|]; reflexivity.
  - destruct (cls c) eqn:Hc.
    + rewrite IH. destruct (k (drop_while cls s)) as [[g r]|]; simpl.
      * destruct cap; reflexivity.
      * apply Hk. exact Hc.
    + destruct (k (c :: s)) as [[g r]|]; simpl; [destruct cap|]; reflexivity.
Qed.

End ReFacts.

(* ================================================================== *)
(** ** Properties of the reconciler *)

Module IssuesFacts.
Import Js Re Issues ReFacts.

Lemma group_items_spec (elems : list json) :
  forall groups,
    group_items elems groups
    = (group_all (valid_items elems) groups, map WarnSkipped (skipped elems)).
Proof.
  induction elems as [|e elems IH]; intros groups; simpl; [reflexivity|].
  unfold valid_items, skipped in *. simpl.
  destruct (as_item e) as [it|]; simpl.
  - apply IH.
  - rewrite IH. reflexivity.
Qed.





(** *** A body without a table *)

Lemma match_here_keyRegex_head (s : str) :
  match_here keyRegex s <> None -> exists t, s = PIPE :: t.
Proof.
  unfold keyRegex. cbn [match_here]. unfold once at 1.
  destruct s as [|c t]; [intros H; contradiction H; reflexivity|].
  unfold only, char_eqb. destruct (N.eqb_spec PIPE c) as [<-|Hne].
  - eauto.
  - intros H; contradiction H; reflexivity.
Qed.

Lemma exec_keyRegex_no_pipe (s : str) :
  ~ In PIPE s -> exec keyRegex s = None.
Proof.
  induction s as [|c s IH]; intros Hn.
  - reflexivity.
  - cbn [exec].
    destruct (match_here keyRegex (c :: s)) as [[g r]|] eqn:Hm.
    + destruct (@match_here_keyRegex_head (c :: s)) as (t & Ht).
      * rewrite Hm; discriminate.
      * inversion Ht; subst. contradiction Hn. left; reflexivity.
    + rewrite IH; [reflexivity|]. intros Hin. apply Hn. right; exact Hin.
Qed.

Lemma existingKeys_no_pipe (s : str) : ~ In PIPE s -> existingKeys s = [].
Proof.
  intros Hn. unfold existingKeys, exec_all.
  destruct (length s); simpl; [reflexivity|].
  rewrite (exec_keyRegex_no_pipe _ Hn). reflexivity.
Qed.

Lemma split_lines_incl (s : str) :
  forall l c, In l (split_lines s) -> In c l -> In c s.
Proof.
  induction s as [|x s IH]; intros l c; simpl.
  - intros [<-|[]] [].
  - destruct (char_eqb x NL).
    + intros [<-|Hl] Hc; [contradiction|]. right. eapply IH; eassumption.
    + destruct (split_lines s) as [|l0 ls] eqn:Hs.
      * intros [<-|[]] [<-|[]]. left; reflexivity.
      * intros [<-|Hl] Hc.
        -- destruct Hc as [<-|Hc]; [left; reflexivity|].
           right. apply (IH l0); [left; reflexivity|exact Hc].
        -- right. apply (IH l); [right; exact Hl|exact Hc].
Qed.

Lemma trim_start_incl (s : str) (c : char) : In c (trim_start s) -> In c s.
Proof.
  induction s as [|x s IH]; simpl; [auto|].
  destruct (is_space x); [|auto]. intros H; right; auto.
Qed.

Lemma trim_incl (s : str) (c : char) : In c (trim s) -> In c s.
Proof.
  unfold trim. intros H. apply in_rev in H. apply trim_start_incl in H.
  apply in_rev in H. apply trim_start_incl in H. exact H.
Qed.

Lemma startsWith_head (c : char) (s : str) :
  startsWith [c] s = true -> In c s.
Proof.
  destruct s as [|x s]; simpl; [discriminate|].
  rewrite andb_true_r. unfold char_eqb. intros H.
  apply N.eqb_eq in H. left; symmetry; exact H.
Qed.

Lemma find_table_start_no_pipe (lines : list str) :
  forall i0, (forall l, In l lines -> ~ In PIPE l) ->
  find_table_start lines i0 = None.
Proof.
  induction lines as [|l lines IH]; intros i0 Hn; cbn [find_table_start];
    [reflexivity|].
  destruct (startsWith [PIPE] (trim l)) eqn:Hs.
  - apply startsWith_head, trim_incl in Hs.
    exfalso. apply (Hn l); [left; reflexivity|exact Hs].
  - apply IH. intros l' Hl'. apply Hn. right; exact Hl'.
Qed.

Lemma updated_body_no_pipe (existingBody : str) (newItems : list Item)
    (timestamp : str) :
  ~ In PIPE existingBody -> updated_body existingBody newItems timestamp = None.
Proof.
  intros Hn. unfold updated_body.
  rewrite find_table_start_no_pipe; [reflexivity|].
  intros l Hl Hc. apply Hn.
  eapply ReFacts.replace_first_incl, ReFacts.replace_first_incl.
  eapply split_lines_incl; eassumption.
Qed.

Lemma filter_all (A : Type) (f : A -> bool) (l : list A) :
  (forall x, In x l -> f x = true) -> filter f l = l.
Proof.
  induction l as [|x l IH]; simpl; intros H; [reflexivity|].
  rewrite (H x) by (left; reflexivity). f_equal. apply IH.
  intros y Hy. apply H. right; exact Hy.
Qed.

(** C9, as stated, fails: the issue of the mod has a body without a table;
    no key is extracted from it, the item of the batch is new, and the run
    only logs a warning: no request updates the issue. *)
Lemma update_skipped_without_table :
  let i := example_inputs [example_item (lit "EVENT.1") (lit "hello")]
                          [notes_issue] in
  existingKeys (body_or_empty notes_issue) = [] /\
  run i = [ListIssues (lit "ck3"); WarnNoTable] /\
  ~ (exists n b, In (UpdateIssue n b) (run i)).
Proof.
  assert (Hrun : run (example_inputs [example_item (lit "EVENT.1") (lit "hello")]
                                     [notes_issue])
                 = [ListIssues (lit "ck3"); WarnNoTable])
    by (vm_compute; reflexivity).
  cbv zeta. rewrite Hrun. split; [vm_compute; reflexivity|].
  split; [reflexivity|].
  intros (n & b & [H|[H|[]]]); discriminate.
Qed.

(** C9, amended.  When the body of the open issue of a mod contains no [|]:
    no key is extracted from it, every item of the group is new, and the
    group is given up with a warning, the issue being left as it is. *)
Theorem no_table_update_is_skipped (game gameDisplayName timestamp : str)
    (issues : list Issue) (issue : Issue) (mod_name : str) (items : list Item) :
  find (fun x => str_eqb (title x) (issue_title gameDisplayName mod_name)) issues
    = Some issue ->
  ~ In PIPE (body_or_empty issue) ->
  items <> [] ->
  existingKeys (body_or_empty issue) = [] /\
  filter (fun item => negb (has (existingKeys (body_or_empty issue)) (key item)))
         items = items /\
  reconcile_group game gameDisplayName timestamp issues (mod_name, items)
    = [WarnNoTable].
Proof.
  intros Hfind Hn Hne.
  pose proof (existingKeys_no_pipe _ Hn) as Hk.
  assert (Hf : filter (fun item =>
                 negb (has (existingKeys (body_or_empty issue)) (key item)))
                 items = items).
  { apply filter_all. intros x _. rewrite Hk. reflexivity. }
  repeat split; [exact Hk | exact Hf |].
  unfold reconcile_group. rewrite Hfind, Hf.
  destruct items as [|it items]; [contradiction|].
  rewrite updated_body_no_pipe by exact Hn. reflexivity.
Qed.

(** Witness for the amended C9. *)
Lemma no_table_update_is_skipped_witness :
  let items := [mkItem (lit "mymod") (lit "events.yml") (lit "EVENT.1") (lit "hello")] in
  existingKeys (body_or_empty notes_issue) = [] /\
  filter (fun item => negb (has (existingKeys (body_or_empty notes_issue)) (key item)))
         items = items /\
  reconcile_group (lit "ck3") (lit "CK3") (lit "2024") [notes_issue]
                  (lit "mymod", items)
    = [WarnNoTable].
Proof.
  intros items.
  apply (@no_table_update_is_skipped (lit "ck3") (lit "CK3") (lit "2024")
           [notes_issue] notes_issue (lit "mymod") items).
  - vm_compute. reflexivity.
  - vm_compute. intuition discriminate.
  - discriminate.
Defined.

(** *** The key expression

    [keyRegex] has one way to match at a given place: [match_key]. *)

Lemma is_space_not_pipe (c : char) : is_space c = true -> char_eqb PIPE c = false.
Proof.
  unfold char_eqb. destruct (N.eqb_spec PIPE c) as [<-|]; [|reflexivity].
  vm_compute. discriminate.
Qed.

Lemma is_space_not_backtick (c : char) :
  is_space c = true -> char_eqb BACKTICK c = false.
Proof.
  unfold char_eqb. destruct (N.eqb_spec BACKTICK c) as [<-|]; [|reflexivity].
  vm_compute. discriminate.
Qed.

Section KeyRegex.

(** The continuations of the expression, from its end. *)
Let k11 := once (only PIPE) false (match_here []).
Let k10 := greedy is_space false k11.
Let k9 := once (only BACKTICK) false k10.
Let g8 := greedy (except BACKTICK) true k9.
Let k8 := once (except BACKTICK) true g8.
Let k7 := once (only BACKTICK) false k8.
Let k6 := greedy is_space false k7.
Let k5 := once (only PIPE) false k6.
Let k4 := greedy is_space false k5.
Let g3 := greedy (except PIPE) false k4.
Let k3 := once (except PIPE) false g3.
Let k2 := greedy is_space false k3.

Lemma keyRegex_unfold (s : str) :
  match_here keyRegex s = once (only PIPE) false k2 s.
Proof. reflexivity. Qed.

Lemma k10_spec (s : str) : k10 s = k11 (drop_while is_space s).
Proof.
  unfold k10. rewrite greedy_disjoint.
  - destruct (k11 _) as [[g r]|]; reflexivity.
  - intros c r Hc. unfold k11, once, only. rewrite (is_space_not_pipe _ Hc).
    reflexivity.
Qed.

Lemma g8_spec (s : str) :
  g8 s = keep_run true (take_while (except BACKTICK) s)
           (k9 (drop_while (except BACKTICK) s)).
Proof.
  unfold g8. apply greedy_disjoint.
  intros c r Hc. unfold k9, once, only. unfold except in Hc.
  destruct (char_eqb BACKTICK c); [discriminate|reflexivity].
Qed.

Lemma k6_spec (s : str) : k6 s = k7 (drop_while is_space s).
Proof.
  unfold k6. rewrite greedy_disjoint.
  - destruct (k7 _) as [[g r]|]; reflexivity.
  - intros c r Hc. unfold k7, once, only. rewrite (is_space_not_backtick _ Hc).
    reflexivity.
Qed.

(** After the first cell: nothing but the next [|] can follow. *)
Lemma k4_none (t : str) :
  k5 (drop_while (except PIPE) t) = None -> k4 t = None.
Proof.
  unfold k4. induction t as [|c t IH]; cbn [drop_while greedy]; intros H.
  - exact H.
  - destruct (is_space c) eqn:Hs.
    + assert (Hp : except PIPE c = true)
        by (unfold except; rewrite (is_space_not_pipe _ Hs); reflexivity).
      rewrite Hp in H. rewrite (IH H). cbn [keep].
      unfold k5, once, only. rewrite (is_space_not_pipe _ Hs). reflexivity.
    + destruct (except PIPE c) eqn:Hp; [|exact H].
      unfold k5, once, only. unfold except in Hp.
      destruct (char_eqb PIPE c); [discriminate|reflexivity].
Qed.

Lemma g3_spec (s : str) : g3 s = k5 (drop_while (except PIPE) s).
Proof.
  unfold g3. induction s as [|c s IH]; cbn [drop_while greedy].
  - reflexivity.
  - destruct (except PIPE c) eqn:Hp.
    + rewrite keep_false, IH.
      destruct (k5 (drop_while (except PIPE) s)) as [[g r]|] eqn:H5;
        [reflexivity|].
      apply k4_none. cbn [drop_while]. rewrite Hp. exact H5.
    + unfold k4. cbn [greedy].
      assert (Hs : is_space c = false).
      { destruct (is_space c) eqn:Hs; [|reflexivity].
        unfold except in Hp. rewrite (is_space_not_pipe _ Hs) in Hp.
        discriminate. }
      rewrite Hs. reflexivity.
Qed.

Lemma k3_spec (s : str) :
  k3 s = match take_while (except PIPE) s with
         | _ :: _ => k5 (drop_while (except PIPE) s)
         | [] => None
         end.
Proof.
  unfold k3, once. destruct s as [|c s]; [reflexivity|].
  cbn [take_while drop_while]. destruct (except PIPE c); [|reflexivity].
  rewrite keep_false. apply g3_spec.
Qed.

Lemma k2_spec (s : str) : k2 s = k3 s.
Proof.
  unfold k2. induction s as [|c s IH]; cbn [greedy]; [reflexivity|].
  destruct (is_space c) eqn:Hs; [|reflexivity].
  rewrite keep_false, IH.
  destruct (k3 s) as [[g r]|] eqn:H3; [|reflexivity].
  rewrite k3_spec in *. cbn [take_while drop_while].
  assert (Hp : except PIPE c = true)
    by (unfold except; rewrite (is_space_not_pipe _ Hs); reflexivity).
  rewrite Hp. destruct (take_while (except PIPE) s); [discriminate|].
  symmetry. exact H3.
Qed.

Lemma k7_spec (b : str) : k7 (drop_while is_space b) = keytail b.
Proof.
  unfold keytail. destruct (drop_while is_space b) as [|c t]; [reflexivity|].
  unfold k7, once at 1, only at 1.
  replace (char_eqb c BACKTICK) with (char_eqb BACKTICK c)
    by (unfold char_eqb; apply N.eqb_sym).
  destruct (char_eqb BACKTICK c); [|reflexivity].
  rewrite keep_false. unfold k8, once.
  destruct t as [|x t]; [reflexivity|]. cbn [take_while drop_while].
  destruct (except BACKTICK x) eqn:Hx; [|reflexivity].
  rewrite g8_spec.
  destruct (drop_while (except BACKTICK) t) as [|y t'] eqn:Hd.
  - reflexivity.
  - assert (Hy : char_eqb BACKTICK y = true).
    { assert (Hex : except BACKTICK y = false).
      { clear -Hd. induction t as [|z t IH]; [discriminate|].
        cbn [drop_while] in Hd. destruct (except BACKTICK z) eqn:Hz.
        - apply IH. exact Hd.
        - inversion Hd; subst. exact Hz. }
      unfold except in Hex. destruct (char_eqb BACKTICK y);
        [reflexivity|discriminate]. }
    unfold k9, once at 1, only at 1. rewrite Hy, keep_false, k10_spec.
    unfold k11, once, only.
    destruct (drop_while is_space t') as [|z rest]; [reflexivity|].
    replace (char_eqb z PIPE) with (char_eqb PIPE z)
      by (unfold char_eqb; apply N.eqb_sym).
    destruct (char_eqb PIPE z); [|reflexivity].
    cbn [match_here keep keep_run]. rewrite app_nil_r. reflexivity.
Qed.

(** The backtracking matcher and the deterministic one agree. *)
Lemma match_here_keyRegex (s : str) : match_here keyRegex s = match_key s.
Proof.
  rewrite keyRegex_unfold. unfold once at 1, only at 1, match_key.
  destruct s as [|c t]; [reflexivity|].
  replace (char_eqb c PIPE) with (char_eqb PIPE c)
    by (unfold char_eqb; apply N.eqb_sym).
  destruct (char_eqb PIPE c); [|reflexivity].
  rewrite keep_false, k2_spec, k3_spec.
  destruct (take_while (except PIPE) t) as [|x seg]; [reflexivity|].
  destruct (drop_while (except PIPE) t) as [|y b] eqn:Hd; [reflexivity|].
  assert (Hy : char_eqb PIPE y = true).
  { assert (Hex : except PIPE y = false).
    { clear -Hd. induction t as [|z t IH]; [discriminate|].
      cbn [drop_while] in Hd. destruct (except PIPE z) eqn:Hz.
      - apply IH. exact Hd.
      - inversion Hd; subst. exact Hz. }
    unfold except in Hex. destruct (char_eqb PIPE y); [reflexivity|discriminate]. }
  unfold k5, once, only. rewrite Hy, keep_false, k6_spec. apply k7_spec.
Qed.

End KeyRegex.

(** *** Texts in which no key is matched *)

Lemma take_drop_while (cls : char -> bool) (s : str) :
  take_while cls s ++ drop_while cls s = s.
Proof.
  induction s as [|c s IH]; [reflexivity|]. cbn [take_while drop_while].
  destruct (cls c); [|reflexivity]. cbn [app]. rewrite IH. reflexivity.
Qed.

Lemma drop_while_head (cls : char -> bool) (s : str) (c : char) (r : str) :
  drop_while cls s = c :: r -> cls c = false.
Proof.
  induction s as [|x s IH]; [discriminate|]. cbn [drop_while].
  destruct (cls x) eqn:Hx; [exact IH|]. intros H; inversion H; subst. exact Hx.
Qed.

Lemma take_while_app_stop (cls : char -> bool) (s : str) (c : char) (r : str) :
  drop_while cls s = [] -> cls c = false ->
  take_while cls (s ++ c :: r) = s /\ drop_while cls (s ++ c :: r) = c :: r.
Proof.
  induction s as [|x s IH]; cbn [app take_while drop_while]; intros Hd Hc.
  - rewrite Hc. auto.
  - destruct (cls x); [|discriminate]. destruct (IH Hd Hc) as [-> ->]. auto.
Qed.

Lemma take_while_app_go (cls : char -> bool) (s : str) (c : char) (r u : str) :
  drop_while cls s = c :: r ->
  take_while cls (s ++ u) = take_while cls s /\
  drop_while cls (s ++ u) = c :: r ++ u.
Proof.
  induction s as [|x s IH]; [discriminate|].
  cbn [app take_while drop_while]. destruct (cls x).
  - intros Hd. destruct (IH Hd) as [-> ->]. auto.
  - intros Hd. inversion Hd; subst. auto.
Qed.

Lemma grun_app (s t : str) :
  forall st,
    grun st (s ++ t)
    = match grun st s with
      | Some st' => grun st' t
      | None => None
      end.
Proof.
  induction s as [|c s IH]; intros st; [reflexivity|].
  cbn [app grun]. destruct (gstep st c); [apply IH|reflexivity].
Qed.

(** After a [|] the reading is [Open]. *)
Lemma grun_pipe (st : gstate) (t : str) :
  grun st (PIPE :: t) <> None -> grun st (PIPE :: t) = grun Open t.
Proof. destruct st; cbn; [reflexivity | reflexivity | intros H; contradiction]. Qed.

Lemma grun_suffix_pipe (a t : str) :
  forall st, grun st (a ++ PIPE :: t) <> None -> grun Open t <> None.
Proof.
  intros st H. rewrite grun_app in H.
  destruct (grun st a) as [st'|]; [|contradiction].
  rewrite grun_pipe in H; exact H.
Qed.

(** What follows a [|] in a text that reads well, up to a later [|], is
    not the end of a key expression. *)
Lemma keytail_guarded_pipe (w rest : str) :
  grun Open (w ++ [PIPE]) <> None -> keytail (w ++ PIPE :: rest) = None.
Proof.
  unfold keytail. induction w as [|c w IH]; intros H.
  - reflexivity.
  - cbn [app drop_while]. destruct (is_space c) eqn:Hs.
    + apply IH. cbn [app grun gstep] in H.
      rewrite Hs, orb_true_r in H.
      destruct (char_eqb c BACKTICK) eqn:Hb; [|exact H].
      unfold char_eqb in Hb. apply N.eqb_eq in Hb. subst c. discriminate.
    + destruct (char_eqb c BACKTICK) eqn:Hb; [|reflexivity].
      cbn [app grun gstep] in H. rewrite Hb in H.
      destruct w as [|x w]; [contradiction H; reflexivity|].
      cbn [app grun gstep] in H.
      destruct (char_eqb x BACKTICK) eqn:Hx; [|contradiction H; reflexivity].
      cbn [app take_while]. unfold except. rewrite N.eqb_sym in Hx.
      unfold char_eqb. rewrite Hx. reflexivity.
Qed.

Lemma keytail_guarded (w : str) :
  grun Open w <> None -> keytail w = None.
Proof.
  unfold keytail. induction w as [|c w IH]; intros H.
  - reflexivity.
  - cbn [drop_while]. destruct (is_space c) eqn:Hs.
    + apply IH. cbn [grun gstep] in H. rewrite Hs, orb_true_r in H.
      destruct (char_eqb c BACKTICK) eqn:Hb; [|exact H].
      unfold char_eqb in Hb. apply N.eqb_eq in Hb. subst c. discriminate.
    + destruct (char_eqb c BACKTICK) eqn:Hb; [|reflexivity].
      cbn [grun gstep] in H. rewrite Hb in H.
      destruct w as [|x w]; [reflexivity|].
      cbn [grun gstep] in H.
      destruct (char_eqb x BACKTICK) eqn:Hx; [|contradiction H; reflexivity].
      cbn [take_while]. unfold except. rewrite N.eqb_sym in Hx.
      unfold char_eqb. rewrite Hx. reflexivity.
Qed.

Lemma pipe_of_drop (s : str) (y : char) (r : str) :
  drop_while (except PIPE) s = y :: r -> y = PIPE.
Proof.
  intros H. apply drop_while_head in H. unfold except, char_eqb in H.
  destruct (N.eqb_spec PIPE y) as [<-|]; [reflexivity|discriminate].
Qed.

(** No key is matched from inside a text that reads well up to the [|] that
    follows it, when what follows that [|] does not end a key expression. *)
Lemma match_key_quiet_row (q rest : str) (st : gstate) :
  grun st (q ++ [PIPE]) <> None -> keytail rest = None ->
  forall a b, q = a ++ b -> b <> [] -> match_key (b ++ PIPE :: rest) = None.
Proof.
  intros Hg Hrest a b -> Hb. destruct b as [|c b]; [contradiction|].
  unfold match_key. cbn [app]. destruct (char_eqb c PIPE) eqn:Hc; [|reflexivity].
  apply N.eqb_eq in Hc. subst c.
  destruct (drop_while (except PIPE) b) as [|y c2] eqn:Hd.
  - destruct (@take_while_app_stop (except PIPE) b PIPE rest Hd eq_refl)
      as [-> ->].
    destruct b; [reflexivity|exact Hrest].
  - pose proof (pipe_of_drop _ Hd) as ->.
    destruct (@take_while_app_go (except PIPE) b PIPE c2 (PIPE :: rest) Hd)
      as [-> ->].
    destruct (take_while (except PIPE) b) as [|x seg] eqn:Ht; [reflexivity|].
    apply keytail_guarded_pipe.
    pose proof (take_drop_while (except PIPE) b) as Hb'.
    rewrite Ht, Hd in Hb'. rewrite <- Hb' in Hg.
    replace ((a ++ PIPE :: (x :: seg) ++ PIPE :: c2) ++ [PIPE])
      with ((a ++ PIPE :: x :: seg) ++ PIPE :: (c2 ++ [PIPE])) in Hg
      by (rewrite <- !app_assoc; cbn [app]; rewrite <- !app_assoc; reflexivity).
    eapply grun_suffix_pipe. exact Hg.
Qed.

(** No key is matched in a text that reads well to its end. *)
Lemma match_key_quiet (w : str) (st : gstate) :
  grun st w <> None -> forall a b, w = a ++ b -> match_key b = None.
Proof.
  intros Hg a b ->. destruct b as [|c b]; [reflexivity|].
  unfold match_key. destruct (char_eqb c PIPE) eqn:Hc; [|reflexivity].
  apply N.eqb_eq in Hc. subst c.
  destruct (take_while (except PIPE) b) as [|x seg] eqn:Ht; [reflexivity|].
  destruct (drop_while (except PIPE) b) as [|y c2] eqn:Hd; [reflexivity|].
  pose proof (pipe_of_drop _ Hd) as ->.
  apply keytail_guarded.
  pose proof (take_drop_while (except PIPE) b) as Hb'.
  rewrite Ht, Hd in Hb'. rewrite <- Hb' in Hg.
  replace (a ++ PIPE :: (x :: seg) ++ PIPE :: c2)
    with ((a ++ PIPE :: x :: seg) ++ PIPE :: c2) in Hg
    by (rewrite <- !app_assoc; reflexivity).
  eapply grun_suffix_pipe. exact Hg.
Qed.

Lemma exec_none (r : regex) (w : str) :
  (forall a b, w = a ++ b -> match_here r b = None) -> exec r w = None.
Proof.
  induction w as [|c w IH]; intros H; cbn [exec].
  - rewrite (H [] []); reflexivity.
  - rewrite (H [] (c :: w)) by reflexivity.
    rewrite IH; [reflexivity|]. intros a b ->. apply (H (c :: a) b). reflexivity.
Qed.

Lemma existingKeys_quiet (w : str) (st : gstate) :
  grun st w <> None -> forall fuel, exec_all_fuel fuel keyRegex w = [].
Proof.
  intros Hg fuel. destruct fuel; [reflexivity|]. cbn [exec_all_fuel].
  rewrite exec_none; [reflexivity|].
  intros a b Hw. rewrite match_here_keyRegex. eapply match_key_quiet; eassumption.
Qed.

(** *** The rows of the table *)

Lemma has_char_false (c : char) (s : str) : has_char c s = false -> ~ In c s.
Proof.
  unfold has_char. induction s as [|x s IH]; cbn [existsb]; intros H Hin.
  - contradiction.
  - apply orb_false_iff in H. destruct H as [Hx Hs]. destruct Hin as [->|Hin].
    + unfold char_eqb in Hx. rewrite N.eqb_refl in Hx. discriminate.
    + exact (IH Hs Hin).
Qed.

Lemma row_after_key (item : Item) :
  row item
  = lit "| " ++ file item ++ lit " | `" ++ key item ++ lit "` |" ++ after_key item.
Proof.
  unfold row, after_key. cbv zeta.
  destruct (folded (message item)); rewrite <- ?app_assoc; reflexivity.
Qed.

Lemma drop_while_all (cls : char -> bool) (s : str) :
  (forall c, In c s -> cls c = true) -> drop_while cls s = [].
Proof.
  induction s as [|x s IH]; intros H; [reflexivity|]. cbn [drop_while].
  rewrite (H x) by (left; reflexivity). apply IH. intros c Hc. apply H.
  right; exact Hc.
Qed.

Lemma except_true (c x : char) : x <> c -> except c x = true.
Proof.
  intros H. unfold except, char_eqb.
  destruct (N.eqb_spec c x) as [->|]; [contradiction|reflexivity].
Qed.

(** At the start of the row of a table-safe item the key expression matches
    the key and stops after the key cell. *)
Lemma match_key_row (f k rest : str) :
  ~ In PIPE f -> ~ In BACKTICK k -> k <> [] ->
  match_key (lit "| " ++ f ++ lit " | `" ++ k ++ lit "` |" ++ rest)
  = Some (k, rest).
Proof.
  intros Hf Hk Hne.
  replace (lit "| " ++ f ++ lit " | `" ++ k ++ lit "` |" ++ rest)
    with (PIPE :: (SPACE :: f ++ [SPACE])
                   ++ PIPE :: SPACE :: BACKTICK :: k
                   ++ BACKTICK :: SPACE :: PIPE :: rest).
  - unfold match_key. cbn [char_eqb N.eqb Pos.eqb PIPE].
    destruct (@take_while_app_stop (except PIPE) (SPACE :: f ++ [SPACE]) PIPE
                (SPACE :: BACKTICK :: k ++ BACKTICK :: SPACE :: PIPE :: rest))
      as [Ht Hd]; [|reflexivity|].
    + apply drop_while_all. intros c [<-|Hc]; [reflexivity|].
      apply in_app_iff in Hc. destruct Hc as [Hc|[<-|[]]]; [|reflexivity].
      apply except_true. intros ->. exact (Hf Hc).
    + rewrite Ht, Hd. cbn [app]. unfold keytail.
      cbn [drop_while is_space SPACE BACKTICK N.leb N.eqb N.compare Pos.compare
           Pos.compare_cont Pos.eqb andb orb char_eqb].
      destruct (@take_while_app_stop (except BACKTICK) k BACKTICK
                  (SPACE :: PIPE :: rest)) as [Ht' Hd']; [|reflexivity|].
      * apply drop_while_all. intros c Hc. apply except_true.
        intros ->. exact (Hk Hc).
      * rewrite Ht', Hd'. destruct k as [|x k]; [contradiction|]. reflexivity.
  - cbn [app]. rewrite <- !app_assoc. reflexivity.
Qed.

Lemma gstep_not_backtick (st : gstate) (c : char) :
  st <> Pending -> c <> BACKTICK ->
  exists st', gstep st c = Some st' /\ st' <> Pending.
Proof.
  intros Hst Hc. unfold gstep, char_eqb.
  destruct (N.eqb_spec c BACKTICK) as [->|_]; [contradiction|].
  destruct st; [| |contradiction];
    destruct ((c =? PIPE)%N || is_space c); eexists; split;
      try reflexivity; discriminate.
Qed.

(** A text without backticks reads well. *)
Lemma grun_no_backtick (w : str) :
  forall st, st <> Pending -> ~ In BACKTICK w ->
  exists st', grun st w = Some st' /\ st' <> Pending.
Proof.
  induction w as [|c w IH]; intros st Hst Hw.
  - exists st. auto.
  - cbn [grun].
    destruct (@gstep_not_backtick st c Hst) as (st1 & -> & H1).
    + intros ->. apply Hw. left; reflexivity.
    + apply IH; [exact H1|]. intros H. apply Hw. right; exact H.
Qed.

(** So does a text whose backticks follow backslashes. *)
Lemma grun_escaped (e : str) :
  forall ab st,
    escaped ab e = true -> (ab = true -> st = Normal) -> st <> Pending ->
    exists st', grun st e = Some st' /\ st' <> Pending.
Proof.
  induction e as [|c e IH]; intros ab st He Hab Hst.
  - exists st. auto.
  - cbn [escaped] in He. apply andb_true_iff in He. destruct He as [Hc He].
    cbn [grun]. destruct (char_eqb c BACKTICK) eqn:Hb.
    + rewrite (Hab Hc). cbn [gstep]. rewrite Hb.
      apply (IH _ Normal He); [|discriminate].
      unfold char_eqb in *. apply N.eqb_eq in Hb. subst c. discriminate.
    + destruct (@gstep_not_backtick st c Hst) as (st1 & Hstep & H1).
      * intros ->. unfold char_eqb in Hb. rewrite N.eqb_refl in Hb. discriminate.
      * rewrite Hstep. apply (IH _ st1 He); [|exact H1].
        intros Hbs. unfold char_eqb in Hbs. apply N.eqb_eq in Hbs. subst c.
        destruct st; [| |contradiction]; cbn in Hstep; inversion Hstep;
          reflexivity.
Qed.

Lemma escaped_replace_char (s : str) :
  forall ab, escaped ab (replace_char BACKTICK [BACKSLASH; BACKTICK] s) = true.
Proof.
  unfold replace_char. induction s as [|x s IH]; intros ab; [reflexivity|].
  cbn [flat_map]. destruct (char_eqb x BACKTICK) eqn:Hx.
  - cbn [app escaped]. rewrite IH. reflexivity.
  - cbn [app escaped]. rewrite Hx, IH. reflexivity.
Qed.

Lemma escaped_firstn (n : nat) :
  forall s ab, escaped ab s = true -> escaped ab (firstn n s) = true.
Proof.
  induction n as [|n IH]; intros s ab H; [reflexivity|].
  destruct s as [|c s]; [reflexivity|]. cbn [firstn escaped] in *.
  apply andb_true_iff in H. destruct H as [-> H]. apply IH. exact H.
Qed.

Lemma grun_then (e rest : str) (st : gstate) :
  (exists st', grun st e = Some st' /\ st' <> Pending) ->
  grun Normal rest = Some Open -> grun Open rest = Some Open ->
  grun st (e ++ rest) = Some Open.
Proof.
  intros (st' & He & Hst') Hn Ho. rewrite grun_app, He.
  destruct st'; [exact Hn | exact Ho | contradiction].
Qed.

(** After the rest of a row, details included, the reading is [Open]. *)
Lemma grun_after_key (item : Item) : grun Open (after_key item) = Some Open.
Proof.
  unfold after_key. cbv zeta.
  change (grun Open ([SPACE] ++ ?x)) with (grun Open x).
  destruct (folded (message item)).
  - rewrite <- app_assoc. apply grun_then.
    + apply (@grun_escaped _ false); [|discriminate|discriminate].
      apply escaped_firstn. apply escaped_replace_char.
    + rewrite !app_assoc.
      rewrite <- (app_assoc _ (detailsMessage (message item))).
      rewrite grun_app.
      replace (grun Normal (((lit "..." ++ lit " |") ++ [NL]) ++ DETAILS_OPEN))
        with (Some Open) by (vm_compute; reflexivity).
      apply grun_then; [|vm_compute; reflexivity|vm_compute; reflexivity].
      apply (@grun_escaped _ false); [|discriminate|discriminate].
      apply escaped_replace_char.
    + rewrite !app_assoc.
      rewrite <- (app_assoc _ (detailsMessage (message item))).
      rewrite grun_app.
      replace (grun Open (((lit "..." ++ lit " |") ++ [NL]) ++ DETAILS_OPEN))
        with (Some Open) by (vm_compute; reflexivity).
      apply grun_then; [|vm_compute; reflexivity|vm_compute; reflexivity].
      apply (@grun_escaped _ false); [|discriminate|discriminate].
      apply escaped_replace_char.
  - apply grun_then; [|vm_compute; reflexivity|vm_compute; reflexivity].
    apply (@grun_escaped _ false); [|discriminate|discriminate].
    apply escaped_replace_char.
Qed.

(** The first cell of a row does not end a key expression. *)
Lemma keytail_row_start (f rest : str) :
  ~ In BACKTICK f -> keytail (SPACE :: f ++ lit " | `" ++ rest) = None.
Proof.
  intros Hf.
  replace (SPACE :: f ++ lit " | `" ++ rest)
    with ((SPACE :: f ++ [SPACE]) ++ PIPE :: (SPACE :: BACKTICK :: rest))
    by (cbn [app]; rewrite <- app_assoc; reflexivity).
  apply keytail_guarded_pipe.
  destruct (@grun_no_backtick ((SPACE :: f ++ [SPACE]) ++ [PIPE]) Open)
    as (st' & -> & _); [discriminate| |discriminate].
  intros H. apply in_app_iff in H. destruct H as [[H|H]|[H|[]]];
    try discriminate.
  apply in_app_iff in H. destruct H as [H|[H|[]]]; [|discriminate].
  exact (Hf H).
Qed.

Lemma table_safe_spec (item : Item) :
  table_safe item = true ->
  ~ In PIPE (file item) /\ ~ In BACKTICK (file item) /\
  ~ In BACKTICK (key item) /\ key item <> [].
Proof.
  unfold table_safe. intros H.
  repeat (apply andb_true_iff in H; destruct H as [H ?]).
  repeat split; try (apply has_char_false, negb_true_iff; assumption).
  destruct (key item); [discriminate|discriminate].
Qed.

(** *** Reading the keys piece by piece *)

Lemma existingKeys_step (s pre g rest : str) :
  exec keyRegex s = Some (pre, g, rest) ->
  existingKeys s = g :: existingKeys rest.
Proof.
  intros He. unfold existingKeys, exec_all.
  pose proof (@exec_shorter keyRegex (progress_once _ _ _) _ _ _ _ He) as Hlt.
  destruct (length s) as [|fuel]; [lia|].
  cbn [exec_all_fuel]. rewrite He. f_equal.
  apply (@exec_all_fuel_enough keyRegex (progress_once _ _ _) (length rest));
    lia.
Qed.

(** After a text that reads well, a key cell is read, and the search goes
    on after it. *)
Lemma existingKeys_cell (f k w x : str) (keys : list str) :
  ~ In PIPE f -> ~ In BACKTICK f -> ~ In BACKTICK k -> k <> [] ->
  grun Open w = Some Open ->
  (forall q st, grun st q = Some Open -> existingKeys (q ++ x) = keys) ->
  forall q st, grun st q = Some Open ->
  existingKeys (q ++ row_head f k ++ w ++ x) = k :: keys.
Proof.
  intros Hf1 Hf2 Hk1 Hk2 Hw Hx q st Hq.
  rewrite (@existingKeys_step _ (q ++ []) k (w ++ x)).
  - f_equal. apply (Hx w Open Hw).
  - unfold row_head. rewrite <- !app_assoc. rewrite exec_skip.
    + rewrite (@exec_here keyRegex _ k (w ++ x)); [reflexivity|].
      rewrite match_here_keyRegex. apply match_key_row; assumption.
    + intros a b Hab Hb. rewrite match_here_keyRegex.
      change (lit "| " ++ ?y) with (PIPE :: SPACE :: y).
      eapply match_key_quiet_row with (st := st) (q := q) (a := a);
        [ | | exact Hab | exact Hb].
      * rewrite grun_app, Hq. discriminate.
      * apply keytail_row_start. exact Hf2.
Qed.

Lemma existingKeys_lines (ls : list line) (x : str) (keys : list str) :
  Forall readable ls ->
  (forall q st, grun st q = Some Open -> existingKeys (q ++ x) = keys) ->
  forall q st, grun st q = Some Open ->
  existingKeys (q ++ unlines (map line_text ls) ++ x) = line_keys ls ++ keys.
Proof.
  intros Hls Hx. induction Hls as [|l ls Hl _ IH]; intros q st Hq.
  - apply (Hx q st Hq).
  - unfold unlines, line_keys in *. cbn [map flat_map].
    destruct l as [f k w|w]; destruct Hl as (Hw & Hl); cbn [line_rest] in Hw.
    + destruct Hl as (Hf1 & Hf2 & Hk1 & Hk2). cbn [line_text].
      rewrite <- !app_assoc, (app_assoc w [NL]).
      change ([k] ++ ?r) with (k :: r).
      eapply existingKeys_cell with (st := st); eassumption.
    + cbn [line_text].
      rewrite <- !app_assoc, (app_assoc w [NL]), (app_assoc q). cbn [app].
      apply (IH _ st). rewrite grun_app, Hq. exact Hw.
Qed.

Lemma existingKeys_rows (items : list Item) (x : str) (keys : list str) :
  Forall (fun item => table_safe item = true) items ->
  (forall q st, grun st q = Some Open -> existingKeys (q ++ x) = keys) ->
  forall q st, grun st q = Some Open ->
  existingKeys (q ++ rows items ++ x) = map key items ++ keys.
Proof.
  intros Hitems Hx. induction Hitems as [|item items Hi _ IH]; intros q st Hq.
  - apply (Hx q st Hq).
  - unfold rows in *. cbn [map flat_map]. rewrite row_after_key.
    destruct (table_safe_spec _ Hi) as (Hf1 & Hf2 & Hk1 & Hk2).
    replace (lit "| " ++ file item ++ lit " | `" ++ key item ++ lit "` |"
               ++ after_key item)
      with (row_head (file item) (key item) ++ after_key item)
      by (unfold row_head; rewrite <- !app_assoc; reflexivity).
    rewrite <- !app_assoc. cbn [app].
    eapply existingKeys_cell with (st := st); try eassumption.
    apply grun_after_key.
Qed.

Lemma existingKeys_end (ending : str) :
  grun Open ending <> None ->
  forall q st, grun st q = Some Open -> existingKeys (q ++ ending) = [].
Proof.
  intros He q st Hq. unfold existingKeys, exec_all.
  apply (@existingKeys_quiet _ st). rewrite grun_app, Hq. exact He.
Qed.

(** *** The keys of a new body *)

Lemma match_key_not_pipe (b x : str) :
  b <> [] -> ~ In PIPE b -> match_key (b ++ x) = None.
Proof.
  intros Hb Hn. destruct b as [|c b]; [contradiction|]. cbn [app match_key].
  unfold char_eqb. destruct (N.eqb_spec c PIPE) as [->|]; [|reflexivity].
  exfalso. apply Hn. left; reflexivity.
Qed.

Lemma existingKeys_skip (h x : str) :
  (forall a b, h = a ++ b -> b <> [] -> match_here keyRegex (b ++ x) = None) ->
  existingKeys (h ++ x) = existingKeys x.
Proof.
  intros H. pose proof (@exec_skip keyRegex h x H) as He.
  destruct (exec keyRegex x) as [[[p g] t]|] eqn:Hx.
  - rewrite (@existingKeys_step _ _ _ _ He), (@existingKeys_step _ _ _ _ Hx).
    reflexivity.
  - unfold existingKeys, exec_all.
    destruct (length (h ++ x)); destruct (length x); cbn [exec_all_fuel];
      rewrite ?He, ?Hx; reflexivity.
Qed.

Lemma table_text_unlines (gameDisplayName mod_name created : str)
    (items : list Item) :
  table_text gameDisplayName mod_name created items
  = unlines (header_lines gameDisplayName mod_name created) ++ rows items.
Proof.
  unfold table_text, header_lines, unlines. cbn [flat_map].
  rewrite <- !app_assoc. reflexivity.
Qed.

(** No key is read in the header. *)
Lemma existingKeys_header (gameDisplayName mod_name created x : str)
    (keys : list str) :
  ~ In PIPE gameDisplayName -> ~ In PIPE mod_name -> ~ In PIPE created ->
  (forall q st, grun st q = Some Open -> existingKeys (q ++ x) = keys) ->
  existingKeys (unlines (header_lines gameDisplayName mod_name created) ++ x)
  = keys.
Proof.
  intros Hg Hm Hc Hx.
  set (h := HEADING ++ GAME_LABEL ++ gameDisplayName ++ [NL]
            ++ MOD_LABEL ++ mod_name ++ [NL]
            ++ TIME_LABEL ++ created ++ [NL; NL] ++ LIST_HEADING).
  assert (Hshape :
    unlines (header_lines gameDisplayName mod_name created) ++ x
    = h ++ (TABLE_HEAD ++ TABLE_RULE) ++ x).
  { unfold header_lines, unlines, h. cbn [flat_map].
    rewrite <- !app_assoc. reflexivity. }
  rewrite Hshape, existingKeys_skip.
  - apply (Hx _ Normal). vm_compute. reflexivity.
  - intros a b Hab Hb. rewrite match_here_keyRegex.
    apply match_key_not_pipe; [exact Hb|].
    intros Hin. assert (Hh : In PIPE h) by (rewrite Hab; apply in_app_iff; auto).
    unfold h in Hh. clear -Hh Hg Hm Hc.
    repeat (apply in_app_iff in Hh; destruct Hh as [Hh|Hh]);
      try contradiction;
      try (vm_compute in Hh; intuition discriminate).
Qed.

(** Extracting the keys of a body just created for table-safe items, under
    a header without [|], gives the keys of the items, in order. *)
Lemma existingKeys_new_body (gameDisplayName mod_name timestamp ending : str)
    (items : list Item) :
  ~ In PIPE gameDisplayName -> ~ In PIPE mod_name -> ~ In PIPE timestamp ->
  Forall (fun item => table_safe item = true) items ->
  grun Open ending <> None ->
  existingKeys (table_text gameDisplayName mod_name timestamp items ++ ending)
  = map key items.
Proof.
  intros Hg Hm Ht Hsafe Hend. rewrite table_text_unlines, <- app_assoc.
  apply existingKeys_header; try assumption.
  intros q st Hq. rewrite <- (app_nil_r (map key items)).
  eapply existingKeys_rows with (st := st); [exact Hsafe| |exact Hq].
  apply existingKeys_end. exact Hend.
Qed.

(** *** Lines *)

Lemma split_lines_line (l : str) (rest : str) :
  ~ In NL l -> split_lines (l ++ NL :: rest) = l :: split_lines rest.
Proof.
  induction l as [|c l IH]; intros Hn.
  - reflexivity.
  - cbn [app split_lines]. unfold char_eqb.
    destruct (N.eqb_spec c NL) as [->|_].
    + exfalso. apply Hn. left; reflexivity.
    + rewrite IH by (intros H; apply Hn; right; exact H). reflexivity.
Qed.

Lemma split_lines_unlines (ls : list str) :
  Forall (fun l => ~ In NL l) ls -> split_lines (unlines ls) = ls ++ [[]].
Proof.
  induction 1 as [|l ls Hl _ IH]; [reflexivity|].
  unfold unlines in *. cbn [flat_map]. rewrite <- app_assoc. cbn [app].
  rewrite split_lines_line by exact Hl. rewrite IH. reflexivity.
Qed.

Lemma join_unlines (ls : list str) : join [NL] (ls ++ [[]]) = unlines ls.
Proof.
  induction ls as [|l ls IH]; [reflexivity|].
  unfold unlines in *. cbn [app flat_map].
  destruct (ls ++ [[]]) as [|x t] eqn:He; [destruct ls; discriminate|].
  change (join [NL] (l :: x :: t)) with (l ++ [NL] ++ join [NL] (x :: t)).
  rewrite IH, <- app_assoc. reflexivity.
Qed.

Lemma trim_start_not_space (c : char) (s : str) :
  is_space c = false -> trim_start (c :: s) = c :: s.
Proof. intros H. cbn [trim_start]. rewrite H. reflexivity. Qed.

Lemma trim_start_snoc (s : str) (c : char) :
  is_space c = false -> exists u, trim_start (s ++ [c]) = u ++ [c].
Proof.
  intros Hc. induction s as [|x s IH]; cbn [app trim_start].
  - rewrite Hc. exists []. reflexivity.
  - destruct (is_space x); [exact IH|]. exists (x :: s). reflexivity.
Qed.

(** Trimming keeps a first character that is not white space. *)
Lemma trim_head (c : char) (s : str) :
  is_space c = false -> exists u, trim (c :: s) = c :: u.
Proof.
  intros Hc. unfold trim. rewrite trim_start_not_space by exact Hc.
  cbn [rev]. destruct (@trim_start_snoc (rev s) c Hc) as (u & ->).
  rewrite rev_app_distr. cbn. eauto.
Qed.

Lemma startsWith_trim (p c : char) (s : str) :
  is_space c = false ->
  startsWith [p] (trim (c :: s)) = char_eqb p c.
Proof.
  intros Hc. destruct (@trim_head c s Hc) as (u & ->). cbn [startsWith].
  rewrite andb_true_r. reflexivity.
Qed.

(** *** The layout of a body *)

Lemma match_here_footerRegex (s : str) :
  match_here footerRegex s
  = if startsWith RULE s then Some ([], []) else None.
Proof.
  unfold footerRegex. rewrite match_here_literal. fold RULE.
  destruct (startsWith RULE s); [|reflexivity].
  cbn [match_here]. apply greedy_any_end.
Qed.

Lemma plain_field_spec (s : str) :
  plain_field s = true ->
  ~ In NL s /\ ~ In PIPE s /\ includes LAST_UPDATE s = false.
Proof.
  unfold plain_field. intros H.
  repeat (apply andb_true_iff in H; destruct H as [H ?]).
  repeat split; try (apply has_char_false, negb_true_iff; assumption).
  apply negb_true_iff. assumption.
Qed.

Lemma plain_stamp_spec (s : str) :
  plain_stamp s = true -> ~ In NL s /\ ~ In BACKTICK s.
Proof.
  unfold plain_stamp. intros H.
  apply andb_true_iff in H. destruct H as [H1 H2].
  split; apply has_char_false, negb_true_iff; assumption.
Qed.

Lemma unlines_app (a b : list str) : unlines (a ++ b) = unlines a ++ unlines b.
Proof. unfold unlines. apply flat_map_app. Qed.

Lemma rows_app (a b : list Item) : rows (a ++ b) = rows a ++ rows b.
Proof. unfold rows. apply flat_map_app. Qed.

(** A place in a text made of lines is in one of the lines, or at its line
    break. *)
Lemma unlines_suffix (ls : list str) :
  forall a b, unlines ls = a ++ b -> b <> [] ->
  exists l p u ls',
    In l ls /\ l = p ++ u /\ b = u ++ NL :: unlines ls'
    /\ (forall x, In x ls' -> In x ls).
Proof.
  induction ls as [|l ls IH]; intros a b Hab Hb.
  - destruct a; destruct b; try discriminate. contradiction.
  - unfold unlines in Hab. cbn [flat_map] in Hab. fold (unlines ls) in Hab.
    apply app_eq_app in Hab. destruct Hab as (m & [[Ha Hu]|[Hl Hu]]).
    + destruct m as [|c m].
      * rewrite app_nil_r in Ha. cbn [app] in Hu. subst b.
        destruct ls as [|l1 ls1]; [contradiction Hb; reflexivity|].
        destruct (IH [] (unlines (l1 :: ls1)) eq_refl Hb)
          as (l' & p & u & ls' & Hin & Hl' & Hbu & Hsub).
        exists l', p, u, ls'. repeat split; auto.
        -- right; exact Hin.
        -- intros x Hx. right. apply Hsub. exact Hx.
      * destruct (@suffix_of_snoc _ l a (c :: m) NL Ha) as (u & Hm & Hlu);
          [discriminate|].
        exists l, a, u, ls. repeat split; auto.
        -- left; reflexivity.
        -- rewrite Hu, Hm, <- app_assoc. reflexivity.
        -- intros x Hx. right; exact Hx.
    + destruct (IH m b Hu Hb) as (l' & p & u & ls' & Hin & Hl' & Hbu & Hsub).
      exists l', p, u, ls'. repeat split; auto.
      * right; exact Hin.
      * intros x Hx. right. apply Hsub. exact Hx.
Qed.

Lemma has_char_intro (c : char) (s : str) : ~ In c s -> has_char c s = false.
Proof.
  unfold has_char. induction s as [|x s IH]; intros H; [reflexivity|].
  cbn [existsb]. rewrite IH by (intros Hin; apply H; right; exact Hin).
  rewrite orb_false_r. unfold char_eqb.
  destruct (N.eqb_spec c x) as [->|]; [|reflexivity].
  exfalso. apply H. left; reflexivity.
Qed.

Lemma good_line_spec (l : str) :
  good_line l = true ->
  ~ In NL l /\ includes LAST_UPDATE l = false /\ l <> lit "---".
Proof.
  unfold good_line. intros H.
  apply andb_true_iff in H. destruct H as [H H3].
  apply andb_true_iff in H. destruct H as [H1 H2].
  split; [apply has_char_false, negb_true_iff; exact H1|].
  split; [apply negb_true_iff; exact H2|].
  intros ->. discriminate.
Qed.

(** A line that does not start with [-] is not a rule. *)
Lemma good_line_intro (l : str) :
  ~ In NL l -> includes LAST_UPDATE l = false ->
  match l with c :: _ => c <> DASH | [] => True end ->
  good_line l = true.
Proof.
  intros H1 H2 H3. unfold good_line.
  rewrite (has_char_intro _ _ H1), H2. cbn [negb andb].
  destruct l as [|c l]; [reflexivity|]. cbn [str_eqb lit].
  unfold char_eqb. destruct (N.eqb_spec c (of_ascii "-")) as [->|];
    [contradiction H3; reflexivity|reflexivity].
Qed.

Lemma good_header_lines (gameDisplayName mod_name timestamp : str) :
  plain_field gameDisplayName = true -> plain_field mod_name = true ->
  plain_field timestamp = true ->
  Forall (fun l => good_line l = true)
         (header_lines gameDisplayName mod_name timestamp).
Proof.
  intros Hg Hm Ht.
  apply plain_field_spec in Hg. apply plain_field_spec in Hm.
  apply plain_field_spec in Ht.
  destruct Hg as (Hg1 & _ & Hg3). destruct Hm as (Hm1 & _ & Hm3).
  destruct Ht as (Ht1 & _ & Ht3).
  assert (Hfixed : forall l, ~ In NL l -> includes LAST_UPDATE l = false ->
                   match l with c :: _ => c <> DASH | [] => True end ->
                   good_line l = true) by (exact good_line_intro).
  assert (Hlabel : forall label field,
            ~ In NL label -> ~ In NL field ->
            includes LAST_UPDATE field = false ->
            (forall rest, includes LAST_UPDATE (label ++ rest)
                          = includes LAST_UPDATE rest) ->
            match label with c :: _ => c <> DASH | [] => False end ->
            good_line (label ++ field) = true).
  { intros label field H1 H2 H3 H4 H5. apply good_line_intro.
    - intros H. apply in_app_iff in H. tauto.
    - rewrite H4. exact H3.
    - destruct label; [contradiction|exact H5]. }
  unfold header_lines. repeat constructor;
    try (apply Hfixed; [vm_compute; intuition discriminate
                       | vm_compute; reflexivity
                       | vm_compute; try exact I; discriminate]);
    (apply Hlabel; [vm_compute; intuition discriminate | assumption | assumption
                   | intros rest; reflexivity
                   | vm_compute; discriminate]).
Qed.

(** *** Removing the last-update line and the footer *)

(** [.*?\n+] takes the text up to the first line break and the line breaks
    that follow it. *)
Lemma lazy_any_nl (s : str) :
  lazy any false
       (once (only NL) false (greedy (only NL) false (match_here []))) s
  = match drop_while (except NL) s with
    | _ :: r => Some ([], drop_while (only NL) r)
    | [] => None
    end.
Proof.
  induction s as [|c s IH]; [reflexivity|].
  cbn [lazy drop_while]. unfold once at 1, only at 1, except, char_eqb.
  destruct (N.eqb_spec NL c) as [<-|Hne]; cbn [negb].
  - rewrite keep_false, greedy_total by (intros u; discriminate). reflexivity.
  - unfold any at 1. rewrite keep_false. exact IH.
Qed.

Lemma match_here_lastUpdateRegex (s : str) :
  match_here lastUpdateRegex s
  = if startsWith LAST_UPDATE s
    then match drop_while (except NL) (skipn (length LAST_UPDATE) s) with
         | _ :: r => Some ([], drop_while (only NL) r)
         | [] => None
         end
    else None.
Proof.
  unfold lastUpdateRegex. rewrite match_here_literal.
  destruct (startsWith LAST_UPDATE s); [|reflexivity].
  cbn [match_here]. apply lazy_any_nl.
Qed.

Lemma no_marker_in_lines (ls : list str) (rest : str) :
  Forall (fun l => good_line l = true) ls ->
  forall a b, unlines ls = a ++ b -> b <> [] ->
  startsWith LAST_UPDATE (b ++ rest) = false.
Proof.
  intros Hls a b Hab Hb.
  destruct (@unlines_suffix ls a b Hab Hb) as (l & p & u & ls' & Hin & Hl & -> & _).
  rewrite <- app_assoc. cbn [app].
  rewrite startsWith_app_nl; [|discriminate|vm_compute; intuition discriminate].
  rewrite Forall_forall in Hls.
  destruct (good_line_spec _ (Hls l Hin)) as (_ & Hinc & _).
  rewrite Hl in Hinc. exact (includes_false_suffix _ _ _ Hinc).
Qed.

Lemma startsWith_rule_line (l x : str) :
  ~ In NL l -> startsWith (lit "---" ++ [NL]) (l ++ NL :: x) = true ->
  l = lit "---".
Proof.
  intros Hnl H.
  destruct l as [|c1 [|c2 [|c3 [|c4 l]]]]; cbn [app startsWith lit] in H;
    repeat (apply andb_true_iff in H; destruct H as [? H]);
    unfold char_eqb in *;
    repeat match goal with
           | E : (_ =? _)%N = true |- _ => apply N.eqb_eq in E
           end;
    subst; try discriminate.
  - reflexivity.
  - exfalso. apply Hnl. do 3 right. left. reflexivity.
Qed.

Lemma no_rule_in_lines (ls : list str) (rest : str) :
  Forall (fun l => good_line l = true) ls ->
  startsWith (lit "---" ++ [NL]) rest = false ->
  forall a b, unlines ls = a ++ b -> b <> [] ->
  startsWith RULE (b ++ rest) = false.
Proof.
  intros Hls Hrest a b Hab Hb.
  destruct (@unlines_suffix ls a b Hab Hb) as (l & p & u & ls' & Hin & Hl & -> & Hsub).
  rewrite Forall_forall in Hls.
  destruct u as [|c u].
  - unfold RULE. cbn [app startsWith].
    replace (char_eqb NL NL) with true by reflexivity. cbn [andb].
    destruct ls' as [|l1 ls1].
    + exact Hrest.
    + unfold unlines. cbn [flat_map]. fold (unlines ls1).
      destruct (good_line_spec _ (Hls l1 (Hsub l1 (or_introl eq_refl))))
        as (Hnl & _ & Hd).
      rewrite <- !app_assoc. cbn [app].
      destruct (startsWith (lit "---" ++ [NL]) (l1 ++ NL :: unlines ls1 ++ rest))
        eqn:Hs; [|reflexivity].
      exfalso. exact (Hd (startsWith_rule_line _ _ Hnl Hs)).
  - destruct (good_line_spec _ (Hls l Hin)) as (Hnl & _ & _).
    cbn [app]. unfold RULE.
    cbn [app startsWith]. unfold char_eqb.
    destruct (N.eqb_spec NL c) as [<-|]; [|reflexivity].
    exfalso. apply Hnl. rewrite Hl. apply in_app_iff. right. left. reflexivity.
Qed.

Lemma strip_last_update (ls : list str) (ending : str) :
  Forall (fun l => good_line l = true) ls ->
  ending = created_end \/
  (exists timestamp, ~ In NL timestamp /\ ending = updated_end timestamp) ->
  replace_first lastUpdateRegex (unlines ls ++ ending)
  = unlines ls ++ created_end.
Proof.
  intros Hls [->|(ts & Hts & ->)]; unfold replace_first.
  - rewrite exec_skip.
    + replace (exec lastUpdateRegex created_end)
        with (@None (str * str * str)) by (vm_compute; reflexivity).
      reflexivity.
    + intros a b Hab Hb. rewrite match_here_lastUpdateRegex.
      rewrite (@no_marker_in_lines ls created_end Hls a b Hab Hb). reflexivity.
  - unfold updated_end.
    set (tail := LAST_UPDATE ++ [SPACE] ++ ts ++ [NL; NL]
                 ++ lit "---" ++ [NL] ++ FOOTER).
    rewrite app_assoc, exec_skip.
    + rewrite (@exec_here lastUpdateRegex tail [] (lit "---" ++ [NL] ++ FOOTER)).
      * rewrite app_nil_r, <- app_assoc. reflexivity.
      * rewrite match_here_lastUpdateRegex. unfold tail.
        rewrite startsWith_self_app, skipn_length_app.
        change ([SPACE] ++ ts ++ [NL; NL] ++ lit "---" ++ [NL] ++ FOOTER)
          with ((SPACE :: ts) ++ NL :: (NL :: lit "---" ++ [NL] ++ FOOTER)).
        rewrite drop_while_except; [reflexivity|].
        intros [H|H]; [discriminate|contradiction].
    + intros a b Hab Hb. rewrite match_here_lastUpdateRegex.
      destruct (suffix_of_snoc _ _ _ Hab Hb) as (b' & -> & Hb').
      rewrite <- app_assoc. cbn [app].
      destruct b' as [|c b'].
      * reflexivity.
      * rewrite (@no_marker_in_lines ls (NL :: tail) Hls a (c :: b') Hb');
          [reflexivity|discriminate].
Qed.

Lemma strip_footer (ls : list str) :
  Forall (fun l => good_line l = true) ls ->
  replace_first footerRegex (unlines ls ++ created_end) = unlines ls.
Proof.
  intros Hls. unfold replace_first. rewrite exec_skip.
  - rewrite (@exec_here footerRegex created_end [] []).
    + rewrite !app_nil_r. reflexivity.
    + rewrite match_here_footerRegex. reflexivity.
  - intros a b Hab Hb. rewrite match_here_footerRegex.
    rewrite (@no_rule_in_lines ls created_end Hls) with (a := a);
      [reflexivity | reflexivity | exact Hab | exact Hb].
Qed.

(** *** Where the new rows go *)

Lemma find_table_end_all (rest : list str) :
  Forall (fun l => table_line l = true) rest ->
  forall i e,
    find_table_end rest i e
    = match rest with [] => e | _ :: _ => i + length rest - 1 end.
Proof.
  induction 1 as [|l rest Hl _ IH]; intros i e; [reflexivity|].
  cbn [find_table_end]. rewrite Hl, IH.
  destruct rest; cbn [length]; lia.
Qed.

Lemma not_table_start_label (c : char) (label field : str) :
  is_space c = false -> char_eqb PIPE c = false ->
  startsWith [PIPE] (trim ((c :: label) ++ field)) = false.
Proof.
  intros Hs Hp. cbn [app]. rewrite startsWith_trim by exact Hs. exact Hp.
Qed.

Lemma find_table_start_layout (gameDisplayName mod_name timestamp : str)
    (rest : list str) :
  find_table_start
    (header_lines gameDisplayName mod_name timestamp ++ rest) 0 = Some 8.
Proof.
  unfold header_lines. cbn [app find_table_start].
  replace (startsWith [PIPE] (trim (removelast (removelast HEADING))))
    with false by (vm_compute; reflexivity).
  replace (startsWith [PIPE] (trim [])) with false by reflexivity.
  unfold GAME_LABEL, MOD_LABEL, TIME_LABEL.
  rewrite !not_table_start_label by reflexivity.
  replace (startsWith [PIPE] (trim (removelast (removelast LIST_HEADING))))
    with false by (vm_compute; reflexivity).
  replace (startsWith [PIPE] (trim (removelast TABLE_HEAD)))
    with true by (vm_compute; reflexivity).
  reflexivity.
Qed.

(** *** Membership, and the end of a body *)

Lemma has_In (keys : list str) (k : str) : has keys k = true <-> In k keys.
Proof.
  unfold has. rewrite existsb_exists. split.
  - intros (x & Hx & He). apply str_eqb_eq in He. subst. exact Hx.
  - intros H. exists k. split; [exact H|]. apply str_eqb_eq. reflexivity.
Qed.

Lemma grun_updated_end (timestamp : str) :
  plain_stamp timestamp = true -> grun Open (updated_end timestamp) <> None.
Proof.
  intros H. apply plain_stamp_spec in H. destruct H as [_ Hb].
  destruct (@grun_no_backtick (updated_end timestamp) Open) as (st & -> & _);
    [discriminate| |discriminate].
  unfold updated_end. intros Hin.
  repeat (apply in_app_iff in Hin; destruct Hin as [Hin|Hin]);
    try contradiction; try (vm_compute in Hin; intuition discriminate).
Qed.

Lemma NoDup_map_filter (f : Item -> bool) (batch : list Item) :
  NoDup (map key batch) -> NoDup (map key (filter f batch)).
Proof.
  induction batch as [|x batch IH]; intros H; [constructor|].
  cbn [map] in H. inversion H as [|? ? Hx Hnd]; subst.
  cbn [filter]. destruct (f x); [|apply IH; exact Hnd].
  cbn [map]. constructor; [|apply IH; exact Hnd].
  intros Hin. apply Hx. apply in_map_iff in Hin.
  destruct Hin as (y & Hy & Hf). apply filter_In in Hf.
  rewrite <- Hy. apply in_map. tauto.
Qed.

(** *** The round trip of the keys *)

(** C4, as stated, fails: a key that holds a backtick, or is empty, is not
    recovered from the body created for it; a file name that holds a key
    cell makes the extractor return a key that no item has, and so does the
    name of the mod in the header. *)
Lemma roundtrip_loses_and_invents_keys :
  existingKeys (new_body (lit "CK3") (lit "mymod") (lit "2024-05-01")
                  [mymod_item "events.yml" "a`b" "hello"]) = [] /\
  existingKeys (new_body (lit "CK3") (lit "mymod") (lit "2024-05-01")
                  [mymod_item "events.yml" "" "hello"]) = [] /\
  existingKeys (new_body (lit "CK3") (lit "mymod") (lit "2024-05-01")
                  [mymod_item "x | `FAKE` | y" "EVENT.1" "hello"])
  = [lit "FAKE"] /\
  existingKeys (new_body (lit "CK3") (lit "x | y | `FAKE` |") (lit "2024-05-01")
                  [mymod_item "events.yml" "EVENT.1" "hello"])
  = [lit "FAKE"; lit "EVENT.1"].
Proof. repeat split; vm_compute; reflexivity. Qed.

(** C4, amended.  For items that are table-safe (no [|] and no backtick in
    the file name, a key that is not empty and holds no backtick) under a
    header without [|], the keys extracted from the body created for them
    are the keys of the items, in order; whatever the messages are, folded
    or not. *)
Theorem roundtrip_table_safe (gameDisplayName mod_name timestamp : str)
    (items : list Item) :
  ~ In PIPE gameDisplayName -> ~ In PIPE mod_name -> ~ In PIPE timestamp ->
  Forall (fun item => table_safe item = true) items ->
  existingKeys (new_body gameDisplayName mod_name timestamp items)
  = map key items.
Proof.
  intros Hg Hm Ht Hsafe.
  replace (new_body gameDisplayName mod_name timestamp items)
    with (table_text gameDisplayName mod_name timestamp items ++ created_end).
  - apply existingKeys_new_body; try assumption. vm_compute. discriminate.
  - unfold table_text, new_body, created_end, RULE.
    rewrite <- !app_assoc. reflexivity.
Qed.

(** Witness for the amended C4: messages with a [|], a backtick and line
    breaks, one of them folded. *)
Lemma roundtrip_table_safe_witness :
  let items :=
    [ mymod_item "events.yml" "EVENT.1" "a|b`c";
      mkItem (lit "mymod") (lit "events.yml") (lit "EVENT.2")
             (lit "line 1" ++ [NL] ++ lit "| `line 2` |") ] in
  existingKeys (new_body (lit "CK3") (lit "mymod") (lit "2024-05-01") items)
  = map key items.
Proof.
  intros items.
  apply (@roundtrip_table_safe (lit "CK3") (lit "mymod") (lit "2024-05-01") items).
  - vm_compute. intuition discriminate.
  - vm_compute. intuition discriminate.
  - vm_compute. intuition discriminate.
  - repeat constructor.
Defined.

(** *** Updating a body that is laid out *)

(** The lines that a table goes on with, and the rest. *)
Lemma table_span (ls : list line) :
  exists T R,
    ls = T ++ R /\
    Forall (fun l => table_line (line_text l) = true) T /\
    match R with
    | [] => True
    | l :: _ => table_line (line_text l) = false
    end.
Proof.
  induction ls as [|l ls (T & R & -> & HT & HR)].
  - exists [], []. auto.
  - destruct (table_line (line_text l)) eqn:Hl.
    + exists (l :: T), R. auto.
    + exists [], (l :: T ++ R). auto.
Qed.

Lemma find_table_end_span (T rest : list str) :
  Forall (fun l => table_line l = true) T ->
  match rest with [] => True | l :: _ => table_line l = false end ->
  forall i e,
    find_table_end (T ++ rest) i e
    = match T with [] => e | _ :: _ => i + length T - 1 end.
Proof.
  intros HT Hrest. induction HT as [|l T Hl _ IH]; intros i e.
  - destruct rest as [|r rest]; [reflexivity|].
    cbn [app find_table_end]. rewrite Hrest. reflexivity.
  - cbn [app find_table_end]. rewrite Hl, IH.
    destruct T; cbn [length]; lia.
Qed.

Lemma join_nl_unlines (ls : list str) :
  ls <> [] -> join [NL] ls ++ [NL] = unlines ls.
Proof.
  induction ls as [|l ls IH]; intros Hne; [contradiction|].
  destruct ls as [|l' ls].
  - unfold unlines. cbn [flat_map join]. rewrite app_nil_r. reflexivity.
  - change (unlines (l :: l' :: ls)) with ((l ++ [NL]) ++ unlines (l' :: ls)).
    rewrite <- IH by discriminate.
    change (join [NL] (l :: l' :: ls)) with (l ++ [NL] ++ join [NL] (l' :: ls)).
    rewrite <- !app_assoc. reflexivity.
Qed.

(** An update of a body that is laid out puts the new rows after the lines
    that the table goes on with, and ends the body with the time of the
    update and the footer. *)
Lemma updated_body_laid (gameDisplayName mod_name created : str)
    (T R : list line) (ending : str) (newItems : list Item) (timestamp : str) :
  plain_field gameDisplayName = true -> plain_field mod_name = true ->
  plain_field created = true ->
  Forall (fun l => good_line (line_text l) = true) (T ++ R) ->
  Forall (fun l => table_line (line_text l) = true) T ->
  match R with [] => True | l :: _ => table_line (line_text l) = false end ->
  ending = created_end \/
  (exists old, ~ In NL old /\ ending = updated_end old) ->
  updated_body
    (unlines (header_lines gameDisplayName mod_name created
              ++ map line_text (T ++ R)) ++ ending)
    newItems timestamp
  = Some (unlines (header_lines gameDisplayName mod_name created
                   ++ map line_text T)
          ++ rows newItems ++ unlines (map line_text R)
          ++ updated_end timestamp).
Proof.
  intros Hg Hm Hc Hgood HT HR Hend.
  set (hd := header_lines gameDisplayName mod_name created).
  assert (Hhd : length hd = 10) by reflexivity.
  set (ls := hd ++ map line_text (T ++ R)).
  assert (Hls : Forall (fun l => good_line l = true) ls).
  { apply Forall_app. split; [apply good_header_lines; assumption|].
    apply Forall_map. exact Hgood. }
  assert (Hnl : Forall (fun l => ~ In NL l) ls).
  { eapply Forall_impl; [|exact Hls]. intros l H.
    apply good_line_spec in H. tauto. }
  unfold updated_body.
  rewrite (@strip_last_update ls ending Hls Hend), (@strip_footer ls Hls).
  rewrite (@split_lines_unlines ls Hnl).
  unfold ls at 1, hd at 1. rewrite <- app_assoc, find_table_start_layout.
  assert (Hskip : skipn (8 + 2) (ls ++ [[]])
                  = map line_text T ++ (map line_text R ++ [[]])).
  { unfold ls, hd. rewrite map_app, <- !app_assoc. reflexivity. }
  rewrite Hskip.
  assert (Hsplit : ls = (hd ++ map line_text T) ++ map line_text R).
  { unfold ls. rewrite map_app, app_assoc. reflexivity. }
  assert (HT' : Forall (fun l => table_line l = true) (map line_text T))
    by (apply Forall_map; exact HT).
  destruct R as [|r R].
  - cbn [map app]. rewrite find_table_end_all.
    + destruct (map line_text T ++ [[]]) as [|x t] eqn:Hrest;
        [destruct T; discriminate|].
      assert (Hrl : length (x :: t) = length T + 1)
        by (rewrite <- Hrest, length_app, length_map; reflexivity).
      assert (Hlen : length ls = 10 + length T).
      { rewrite Hsplit, !length_app, !length_map, Hhd. cbn [length]. lia. }
      replace (8 + 2 + length (x :: t) - 1) with (length ls) by lia.
      destruct (Nat.ltb_spec 0 (length ls)) as [_|]; [|lia].
      rewrite firstn_all2 by (rewrite length_app; cbn [length]; lia).
      rewrite join_unlines.
      destruct (Nat.ltb_spec (length (unlines ls)) (length (unlines ls)));
        [lia|].
      unfold slice_to, slice_from. rewrite firstn_all, skipn_all.
      rewrite Hsplit. cbn [map]. rewrite app_nil_r.
      unfold updated_end. cbn [unlines flat_map app].
      rewrite <- ?app_assoc. reflexivity.
    + apply Forall_app. split; [exact HT'|]. repeat constructor.
  - rewrite find_table_end_span; [|exact HT'|exact HR].
    set (X := hd ++ map line_text T) in *.
    assert (HX : length X = 10 + length T)
      by (unfold X; rewrite length_app, length_map, Hhd; reflexivity).
    replace (match map line_text T with
             | [] => 8 + 1
             | _ :: _ => 8 + 2 + length (map line_text T) - 1
             end) with (length X - 1)
      by (rewrite HX; destruct T; cbn [map length]; rewrite ?length_map; lia).
    destruct (Nat.ltb_spec 0 (length X - 1)) as [_|]; [|lia].
    replace (length X - 1 + 1) with (length X) by lia.
    rewrite Hsplit, <- app_assoc, firstn_app, firstn_all, Nat.sub_diag.
    cbn [firstn]. rewrite app_nil_r.
    assert (Hne : X <> []) by (intros E; rewrite E in HX; discriminate).
    pose proof (join_nl_unlines Hne) as Hj.
    assert (Hp : length (join [NL] X) + 1 = length (unlines X))
      by (rewrite <- Hj, length_app; reflexivity).
    rewrite unlines_app.
    destruct (Nat.ltb_spec (length (join [NL] X))
                (length (unlines X ++ unlines (map line_text (r :: R)))));
      [|rewrite length_app in *; lia].
    rewrite Hp. unfold slice_to, slice_from.
    rewrite firstn_app, firstn_all, Nat.sub_diag. cbn [firstn].
    rewrite app_nil_r.
    rewrite skipn_app, skipn_all, Nat.sub_diag. cbn [skipn app].
    unfold updated_end. rewrite <- ?app_assoc. reflexivity.
Qed.

(** *** The lines of the rows *)

Lemma unlines_split_lines (s : str) : unlines (split_lines s) = s ++ [NL].
Proof.
  induction s as [|c s IH]; [reflexivity|].
  cbn [split_lines]. unfold char_eqb.
  destruct (N.eqb_spec c NL) as [->|_].
  - unfold unlines in *. cbn [flat_map app]. rewrite IH. reflexivity.
  - destruct (split_lines s) as [|l ls].
    + destruct s; discriminate.
    + unfold unlines in *. cbn [flat_map app] in *. rewrite IH. reflexivity.
Qed.

Lemma unlines_text_lines (ls : list str) :
  unlines (map line_text (map TextLine ls)) = unlines ls.
Proof. rewrite map_map. cbn [line_text]. rewrite map_id. reflexivity. Qed.

(** The row of an item is made of its lines. *)
Lemma row_item_lines (item : Item) :
  row item = unlines (map line_text (item_lines item)).
Proof.
  unfold row, item_lines. cbv zeta. destruct (folded (message item)).
  - cbn [map]. rewrite map_app.
    change (unlines (?a :: ?b :: ?c :: ?d :: ?r))
      with ((a ++ [NL]) ++ (b ++ [NL]) ++ (c ++ [NL]) ++ (d ++ [NL])
            ++ unlines r).
    rewrite unlines_app, unlines_text_lines, unlines_split_lines.
    cbn [line_text]. unfold row_head, DETAILS_OPEN, DETAILS_CLOSE,
      SUMMARY_LINE, FENCE, unlines.
    cbn [map flat_map line_text]. rewrite <- !app_assoc. reflexivity.
  - unfold unlines. cbn [map flat_map line_text]. unfold row_head.
    rewrite <- !app_assoc. reflexivity.
Qed.

Lemma rows_item_lines (items : list Item) :
  rows items = unlines (map line_text (flat_map item_lines items)).
Proof.
  induction items as [|item items IH]; [reflexivity|].
  unfold rows in *. cbn [flat_map]. rewrite map_app, unlines_app, <- IH.
  rewrite row_item_lines. reflexivity.
Qed.

(** The lines of a text whose backticks follow backslashes are such texts. *)
Lemma escaped_split_lines (s : str) :
  forall ab, escaped ab s = true ->
  match split_lines s with
  | l :: ls => escaped ab l = true /\ Forall (fun x => escaped false x = true) ls
  | [] => False
  end.
Proof.
  induction s as [|c s IH]; intros ab H.
  - cbn. auto.
  - cbn [escaped] in H. apply andb_true_iff in H. destruct H as [Hc Hs].
    cbn [split_lines]. unfold char_eqb at 1.
    destruct (N.eqb_spec c NL) as [->|_].
    + split; [reflexivity|]. specialize (IH _ Hs).
      destruct (split_lines s) as [|l ls]; [contradiction|].
      destruct IH as [Hl Hls]. constructor; assumption.
    + specialize (IH _ Hs). destruct (split_lines s) as [|l ls];
        [contradiction|].
      destruct IH as [Hl Hls]. split; [|exact Hls].
      cbn [escaped]. rewrite Hc, Hl. reflexivity.
Qed.

Lemma grun_escaped_line (l : str) :
  escaped false l = true -> grun Open (l ++ [NL]) = Some Open.
Proof.
  intros H. apply grun_then; [|reflexivity|reflexivity].
  apply (@grun_escaped _ false); [exact H|discriminate|discriminate].
Qed.

(** The lines of the row of a table-safe item are readable. *)
Lemma readable_item_lines (item : Item) :
  table_safe item = true -> Forall readable (item_lines item).
Proof.
  intros Hi. destruct (table_safe_spec _ Hi) as (Hf1 & Hf2 & Hk1 & Hk2).
  assert (Htext : forall w, grun Open (w ++ [NL]) = Some Open ->
                            readable (TextLine w))
    by (intros w Hw; split; [exact Hw|exact I]).
  unfold item_lines. cbv zeta. destruct (folded (message item)).
  - constructor.
    + split; [|auto]. cbn [line_rest].
      change (grun Open (([SPACE] ++ ?x) ++ [NL])) with (grun Open (x ++ [NL])).
      rewrite <- !app_assoc. apply grun_then.
      * apply (@grun_escaped _ false); [|discriminate|discriminate].
        apply escaped_firstn. apply escaped_replace_char.
      * reflexivity.
      * reflexivity.
    + repeat (constructor; [apply Htext; reflexivity|]).
      apply Forall_app. split.
      * apply Forall_map.
        pose proof (@escaped_split_lines (detailsMessage (message item)) false
                      (escaped_replace_char _ false)) as Hd.
        destruct (split_lines (detailsMessage (message item))) as [|l ls];
          [contradiction|].
        destruct Hd as [Hl Hls]. constructor.
        -- apply Htext, grun_escaped_line, Hl.
        -- eapply Forall_impl; [|exact Hls].
           intros x Hx. apply Htext, grun_escaped_line, Hx.
      * repeat (constructor; [apply Htext; reflexivity|]). constructor.
  - constructor; [|constructor]. split; [|auto]. cbn [line_rest].
    change (grun Open (([SPACE] ++ ?x) ++ [NL])) with (grun Open (x ++ [NL])).
    rewrite <- !app_assoc. apply grun_then.
    + apply (@grun_escaped _ false); [|discriminate|discriminate].
      apply escaped_replace_char.
    + reflexivity.
    + reflexivity.
Qed.

Lemma tame_spec (item : Item) :
  tame item = true ->
  table_safe item = true /\
  Forall (fun l => good_line (line_text l) = true) (item_lines item).
Proof.
  unfold tame. intros H. apply andb_true_iff in H. destruct H as [H1 H2].
  split; [exact H1|]. apply Forall_forall. rewrite forallb_forall in H2.
  exact H2.
Qed.

Lemma tame_lines (items : list Item) :
  Forall (fun item => tame item = true) items ->
  Forall (fun l => good_line (line_text l) = true) (flat_map item_lines items)
  /\ Forall readable (flat_map item_lines items).
Proof.
  induction 1 as [|item items Hi _ [IH1 IH2]]; [split; constructor|].
  destruct (tame_spec _ Hi) as [Hs Hg]. cbn [flat_map]. split.
  - apply Forall_app. auto.
  - apply Forall_app. split; [apply readable_item_lines; exact Hs|exact IH2].
Qed.

(** *** Bodies that are laid out *)

(** The keys read in a body that is laid out are those of its lines. *)
Lemma existingKeys_laid (gameDisplayName mod_name created : str)
    (ls : list line) (ending : str) :
  ~ In PIPE gameDisplayName -> ~ In PIPE mod_name -> ~ In PIPE created ->
  Forall readable ls -> grun Open ending <> None ->
  existingKeys (unlines (header_lines gameDisplayName mod_name created
                         ++ map line_text ls) ++ ending)
  = line_keys ls.
Proof.
  intros Hg Hm Hc Hls Hend. rewrite unlines_app, <- app_assoc.
  apply existingKeys_header; try assumption.
  intros q st Hq. rewrite <- (app_nil_r (line_keys ls)).
  eapply existingKeys_lines with (st := st); [exact Hls| |exact Hq].
  apply existingKeys_end. exact Hend.
Qed.

(** And after an update, those of the new rows with them. *)
Lemma existingKeys_updated (gameDisplayName mod_name created : str)
    (T R : list line) (newItems : list Item) (timestamp : str) :
  ~ In PIPE gameDisplayName -> ~ In PIPE mod_name -> ~ In PIPE created ->
  Forall readable T -> Forall readable R ->
  Forall (fun item => table_safe item = true) newItems ->
  plain_stamp timestamp = true ->
  existingKeys (unlines (header_lines gameDisplayName mod_name created
                         ++ map line_text T)
                ++ rows newItems ++ unlines (map line_text R)
                ++ updated_end timestamp)
  = line_keys T ++ map key newItems ++ line_keys R.
Proof.
  intros Hg Hm Hc HT HR Hnew Hts. rewrite unlines_app, <- app_assoc.
  apply existingKeys_header; try assumption.
  intros q st Hq.
  eapply existingKeys_lines with (st := st); [exact HT| |exact Hq].
  intros q1 st1 Hq1.
  eapply existingKeys_rows with (st := st1); [exact Hnew| |exact Hq1].
  intros q2 st2 Hq2. rewrite <- (app_nil_r (line_keys R)).
  eapply existingKeys_lines with (st := st2); [exact HR| |exact Hq2].
  apply existingKeys_end. apply grun_updated_end. exact Hts.
Qed.

Lemma new_body_lines (gameDisplayName mod_name created : str)
    (items : list Item) :
  new_body gameDisplayName mod_name created items
  = unlines (header_lines gameDisplayName mod_name created
             ++ map line_text (flat_map item_lines items))
    ++ created_end.
Proof.
  rewrite unlines_app, <- rows_item_lines, <- table_text_unlines.
  unfold table_text, new_body, created_end, RULE.
  rewrite <- !app_assoc. reflexivity.
Qed.

(** A body created for tame items is laid out. *)
Lemma laid_out_new (gameDisplayName mod_name created : str)
    (items : list Item) :
  plain_field created = true ->
  Forall (fun item => tame item = true) items ->
  laid_out gameDisplayName mod_name
           (new_body gameDisplayName mod_name created items).
Proof.
  intros Hc Hitems. rewrite new_body_lines.
  destruct (tame_lines Hitems) as [Hgood Hread].
  constructor; auto.
Qed.

(** The update of a body that is laid out, in full. *)
Lemma laid_out_updated_body (gameDisplayName mod_name body : str)
    (newItems : list Item) (timestamp : str) :
  plain_field gameDisplayName = true -> plain_field mod_name = true ->
  laid_out gameDisplayName mod_name body ->
  exists created T R,
    plain_field created = true /\
    Forall (fun l => good_line (line_text l) = true) (T ++ R) /\
    Forall readable T /\ Forall readable R /\
    existingKeys body = line_keys T ++ line_keys R /\
    updated_body body newItems timestamp
    = Some (unlines (header_lines gameDisplayName mod_name created
                     ++ map line_text T)
            ++ rows newItems ++ unlines (map line_text R)
            ++ updated_end timestamp).
Proof.
  intros Hg Hm Hlaid.
  destruct Hlaid as [created ls ending Hc Hgood Hread Hend].
  destruct (table_span ls) as (T & R & -> & HT & HR).
  apply Forall_app in Hread. destruct Hread as [HrT HrR].
  exists created, T, R. repeat split; try assumption.
  - destruct (plain_field_spec _ Hg) as (_ & Hg' & _).
    destruct (plain_field_spec _ Hm) as (_ & Hm' & _).
    destruct (plain_field_spec _ Hc) as (_ & Hc' & _).
    rewrite existingKeys_laid; try assumption.
    + unfold line_keys. apply flat_map_app.
    + apply Forall_app. auto.
    + destruct Hend as [->|(old & Hold & ->)].
      * vm_compute. discriminate.
      * apply grun_updated_end. exact Hold.
  - apply updated_body_laid; try assumption.
    destruct Hend as [->|(old & Hold & ->)]; [left; reflexivity|].
    right. exists old. split; [|reflexivity].
    apply plain_stamp_spec in Hold. tauto.
Qed.

(** An update with tame items keeps the layout. *)
Lemma laid_out_update (gameDisplayName mod_name body : str)
    (newItems : list Item) (timestamp updatedBody : str) :
  plain_field gameDisplayName = true -> plain_field mod_name = true ->
  laid_out gameDisplayName mod_name body ->
  plain_stamp timestamp = true ->
  Forall (fun item => tame item = true) newItems ->
  updated_body body newItems timestamp = Some updatedBody ->
  laid_out gameDisplayName mod_name updatedBody.
Proof.
  intros Hg Hm Hlaid Hts Hnew Hup.
  destruct (@laid_out_updated_body _ _ _ newItems timestamp Hg Hm Hlaid)
    as (created & T & R & Hc & Hgood & HrT & HrR & _ & Hup').
  assert (Hbody : Some updatedBody
                  = Some (unlines (header_lines gameDisplayName mod_name created
                                   ++ map line_text T)
                          ++ rows newItems ++ unlines (map line_text R)
                          ++ updated_end timestamp))
    by (rewrite <- Hup, <- Hup'; reflexivity).
  apply (f_equal (fun o => match o with Some b => b | None => [] end)) in Hbody.
  cbv beta iota in Hbody. rewrite Hbody. clear Hup Hup' Hbody.
  destruct (tame_lines Hnew) as [Hgn Hrn].
  apply Forall_app in Hgood. destruct Hgood as [HgT HgR].
  match goal with
  | |- laid_out _ _ ?b =>
      replace b
        with (unlines (header_lines gameDisplayName mod_name created
                       ++ map line_text (T ++ flat_map item_lines newItems ++ R))
              ++ updated_end timestamp)
  end.
  - constructor; try assumption.
    + apply Forall_app. split; [exact HgT|]. apply Forall_app. auto.
    + apply Forall_app. split; [exact HrT|]. apply Forall_app. auto.
    + right. exists timestamp. auto.
  - rewrite rows_item_lines, !map_app, !unlines_app, <- !app_assoc.
    reflexivity.
Qed.

(** The bodies that the action has written are laid out. *)
Lemma written_laid_out (gameDisplayName mod_name body : str) :
  plain_field gameDisplayName = true -> plain_field mod_name = true ->
  written gameDisplayName mod_name body ->
  laid_out gameDisplayName mod_name body.
Proof.
  intros Hg Hm. induction 1 as [created items Hc Hitems
                               |body ts newItems body' _ IH Hts Hnew Hup].
  - apply laid_out_new; assumption.
  - eapply laid_out_update; eassumption.
Qed.

Lemma table_line_row_head (f k w : str) : table_line (row_head f k ++ w) = true.
Proof.
  unfold table_line, row_head. cbv zeta. rewrite <- !app_assoc.
  change (lit "| " ++ ?x) with (PIPE :: SPACE :: x).
  rewrite startsWith_trim by reflexivity. reflexivity.
Qed.

(** When no message is folded, the table goes on to the last row, and the
    rows of the new items come after it. *)
Lemma update_appends_rows (gameDisplayName mod_name created : str)
    (items : list Item) (ending : str) (newItems : list Item) (timestamp : str) :
  plain_field gameDisplayName = true -> plain_field mod_name = true ->
  plain_field created = true ->
  Forall (fun item => tame item = true) items ->
  Forall (fun item => folded (message item) = false) items ->
  ending = created_end \/
  (exists old, plain_stamp old = true /\ ending = updated_end old) ->
  updated_body (table_text gameDisplayName mod_name created items ++ ending)
               newItems timestamp
  = Some (table_text gameDisplayName mod_name created (items ++ newItems)
          ++ updated_end timestamp).
Proof.
  intros Hg Hm Hc Htame Hflat Hend.
  destruct (tame_lines Htame) as [Hgood _].
  rewrite !table_text_unlines, rows_app, !rows_item_lines, <- unlines_app.
  rewrite <- (app_nil_r (flat_map item_lines items)) at 1.
  rewrite updated_body_laid; try assumption.
  - rewrite unlines_app, rows_item_lines. cbn [map unlines flat_map app].
    rewrite <- !app_assoc. reflexivity.
  - rewrite app_nil_r. exact Hgood.
  - clear -Hflat. induction Hflat as [|item items Hi _ IH]; [constructor|].
    cbn [flat_map]. apply Forall_app. split; [|exact IH].
    unfold item_lines. cbv zeta. rewrite Hi. constructor; [|constructor].
    apply table_line_row_head.
  - exact I.
  - destruct Hend as [->|(old & Hold & ->)]; [left; reflexivity|].
    right. exists old. split; [|reflexivity].
    apply plain_stamp_spec in Hold. tauto.
Qed.

(** *** Reconciling twice *)

(** An update cuts the body at the first rule line it finds.  When the
    message of a row holds such a line (the item is not tame), the rows that
    follow it are lost, and the same batch applied again appends them
    again. *)
Lemma update_cuts_body_at_rule_in_message :
  let a := mkItem (lit "mymod") (lit "f.yml") (lit "A") (lit "x" ++ RULE ++ lit "y") in
  let b := mymod_item "f.yml" "B" "m" in
  let c := mymod_item "f.yml" "C" "m" in
  let issue_of body :=
    [mkIssue 7 (issue_title (lit "CK3") (lit "mymod")) (Some body)] in
  let body0 := new_body (lit "CK3") (lit "mymod") (lit "2024-05-01") [a; b] in
  table_safe a = true /\ tame a = false /\
  existingKeys body0 = [lit "A"; lit "B"] /\
  exists body1 body2,
    reconcile_group (lit "ck3") (lit "CK3") (lit "2024-06-01") (issue_of body0)
                    (lit "mymod", [a; b; c])
    = [UpdateIssue 7 body1; InfoUpdated 7 1] /\
    existingKeys body1 = [lit "A"; lit "C"] /\
    reconcile_group (lit "ck3") (lit "CK3") (lit "2024-07-01") (issue_of body1)
                    (lit "mymod", [a; b; c])
    = [UpdateIssue 7 body2; InfoUpdated 7 1] /\
    existingKeys body2 = [lit "A"; lit "C"; lit "B"].
Proof.
  cbv zeta. do 3 (split; [vm_compute; reflexivity|]).
  eexists. eexists.
  split; [vm_compute; reflexivity|].
  split; [vm_compute; reflexivity|].
  split; vm_compute; reflexivity.
Qed.

(** C2, as stated, fails.  A batch that reports the key EVENT.2 in two files
    makes the update append two rows for it: the body has the key twice.
    And when the body has no table the update is skipped, so that a second
    application finds the same items new again. *)
Lemma reconciled_body_repeats_key :
  let batch := [ mymod_item "events.yml" "EVENT.1" "hello";
                 mymod_item "a.yml" "EVENT.2" "x";
                 mymod_item "b.yml" "EVENT.2" "y" ] in
  (exists updatedBody,
     reconcile_group (lit "ck3") (lit "CK3") (lit "2024-06-01") [created_issue]
                     (lit "mymod", batch)
     = [UpdateIssue 7 updatedBody; InfoUpdated 7 2] /\
     existingKeys updatedBody = [lit "EVENT.1"; lit "EVENT.2"; lit "EVENT.2"] /\
     ~ NoDup (existingKeys updatedBody)) /\
  reconcile_group (lit "ck3") (lit "CK3") (lit "2024-06-01") [notes_issue]
                  (lit "mymod", batch) = [WarnNoTable] /\
  filter (fun item =>
            negb (has (existingKeys (body_or_empty notes_issue)) (key item)))
         batch = batch.
Proof.
  cbv zeta. split; [|split; vm_compute; reflexivity].
  eexists. split; [vm_compute; reflexivity|].
  split; [vm_compute; reflexivity|].
  intros H. vm_compute in H.
  inversion H as [|? ? _ H1]; subst. inversion H1 as [|? ? H2 _]; subst.
  apply H2. left; reflexivity.
Qed.

(** C2, amended.  Take the body of the open issue of a mod as the action
    has written it: created for tame items, then updated any number of times
    with tame items; and a batch of table-safe items of the mod.  The update
    is not skipped.  The first application changes nothing when no item of
    the batch is new, and otherwise writes a body in which the keys read are
    those read before and those of the new items.  A second application of
    the same batch to that body appends nothing: no item is new.  The keys
    read in that body are pairwise distinct when those read before are and
    those of the batch are. *)
Theorem reconcile_idempotent (game gameDisplayName mod_name existingBody : str)
    (n : nat) (batch : list Item) (timestamp timestamp' : str) :
  plain_field gameDisplayName = true -> plain_field mod_name = true ->
  written gameDisplayName mod_name existingBody ->
  Forall (fun item => table_safe item = true) batch ->
  plain_stamp timestamp = true ->
  let title_ := issue_title gameDisplayName mod_name in
  let newItems :=
    filter (fun item => negb (has (existingKeys existingBody) (key item)))
           batch in
  exists updatedBody,
    updated_body existingBody newItems timestamp = Some updatedBody /\
    reconcile_group game gameDisplayName timestamp
                    [mkIssue n title_ (Some existingBody)] (mod_name, batch)
    = match newItems with
      | [] => [InfoNoNewItems n]
      | _ :: _ => [UpdateIssue n updatedBody; InfoUpdated n (length newItems)]
      end /\
    reconcile_group game gameDisplayName timestamp'
                    [mkIssue n title_ (Some updatedBody)] (mod_name, batch)
    = [InfoNoNewItems n] /\
    Permutation (existingKeys updatedBody)
                (existingKeys existingBody ++ map key newItems) /\
    (NoDup (existingKeys existingBody) -> NoDup (map key batch) ->
     NoDup (existingKeys updatedBody)).
Proof.
  intros Hg Hm Hw Hbatch Hts title_ newItems.
  pose proof (written_laid_out Hg Hm Hw) as Hlaid.
  destruct (@laid_out_updated_body _ _ _ newItems timestamp Hg Hm Hlaid)
    as (created & T & R & Hc & Hgood & HrT & HrR & Hkeys & Hup).
  match type of Hup with _ = Some ?b => set (updatedBody := b) in * end.
  exists updatedBody. split; [exact Hup|].
  assert (Hnew : Forall (fun item => table_safe item = true) newItems).
  { apply Forall_forall. intros x Hx. apply filter_In in Hx.
    rewrite Forall_forall in Hbatch. apply Hbatch. tauto. }
  assert (Hkeys' : existingKeys updatedBody
                   = line_keys T ++ map key newItems ++ line_keys R).
  { destruct (plain_field_spec _ Hg) as (_ & Hg' & _).
    destruct (plain_field_spec _ Hm) as (_ & Hm' & _).
    destruct (plain_field_spec _ Hc) as (_ & Hc' & _).
    apply existingKeys_updated; assumption. }
  assert (Hperm : Permutation (existingKeys updatedBody)
                    (existingKeys existingBody ++ map key newItems)).
  { rewrite Hkeys', Hkeys, <- app_assoc. apply Permutation_app_head.
    apply Permutation_app_comm. }
  assert (Hfind : forall b,
            find (fun issue => str_eqb (title issue) title_)
                 [mkIssue n title_ (Some b)] = Some (mkIssue n title_ (Some b))).
  { intros b. cbn [find title].
    replace (str_eqb title_ title_) with true
      by (symmetry; apply str_eqb_eq; reflexivity).
    reflexivity. }
  split; [|split; [|split]].
  - unfold reconcile_group. rewrite Hfind. cbn [body_or_empty body number].
    fold newItems. rewrite Hup. destruct newItems; reflexivity.
  - unfold reconcile_group. rewrite Hfind. cbn [body_or_empty body number].
    rewrite filter_none; [reflexivity|].
    intros item Hin. apply negb_false_iff. apply has_In.
    apply (Permutation_in _ (Permutation_sym Hperm)). apply in_app_iff.
    destruct (has (existingKeys existingBody) (key item)) eqn:Hk.
    + left. apply has_In. exact Hk.
    + right. apply in_map. apply filter_In. split; [exact Hin|].
      rewrite Hk. reflexivity.
  - exact Hperm.
  - intros Hnd1 Hnd2. apply (Permutation_NoDup (Permutation_sym Hperm)).
    apply NoDup_app; [exact Hnd1 | apply NoDup_map_filter; exact Hnd2 |].
    intros k Hk1 Hk2. apply in_map_iff in Hk2.
    destruct Hk2 as (x & <- & Hx). apply filter_In in Hx.
    destruct Hx as [_ Hx]. apply negb_true_iff in Hx.
    apply has_In in Hk1. rewrite Hk1 in Hx. discriminate.
Qed.

(** Witness for the amended C2: the issue was created for EVENT.1, whose
    message has two lines and is folded, and the batch brings EVENT.1 and
    EVENT.2. *)
Lemma reconcile_idempotent_witness :
  let first :=
    mkItem (lit "mymod") (lit "events.yml") (lit "EVENT.1")
           (lit "line one" ++ [NL] ++ lit "- line | two") in
  let batch := [first; mymod_item "events.yml" "EVENT.2" "a|b`c"] in
  let existingBody :=
    new_body (lit "CK3") (lit "mymod") (lit "2024-05-01") [first] in
  let title_ := issue_title (lit "CK3") (lit "mymod") in
  let newItems :=
    filter (fun item => negb (has (existingKeys existingBody) (key item)))
           batch in
  exists updatedBody,
    updated_body existingBody newItems (lit "2024-06-01") = Some updatedBody /\
    reconcile_group (lit "ck3") (lit "CK3") (lit "2024-06-01")
                    [mkIssue 7 title_ (Some existingBody)] (lit "mymod", batch)
    = match newItems with
      | [] => [InfoNoNewItems 7]
      | _ :: _ => [UpdateIssue 7 updatedBody; InfoUpdated 7 (length newItems)]
      end /\
    reconcile_group (lit "ck3") (lit "CK3") (lit "2024-07-01")
                    [mkIssue 7 title_ (Some updatedBody)] (lit "mymod", batch)
    = [InfoNoNewItems 7] /\
    Permutation (existingKeys updatedBody)
                (existingKeys existingBody ++ map key newItems) /\
    (NoDup (existingKeys existingBody) -> NoDup (map key batch) ->
     NoDup (existingKeys updatedBody)).
Proof.
  intros first batch.
  apply (@reconcile_idempotent (lit "ck3") (lit "CK3") (lit "mymod")
           (new_body (lit "CK3") (lit "mymod") (lit "2024-05-01") [first])
           7 batch (lit "2024-06-01") (lit "2024-07-01")).
  - reflexivity.
  - reflexivity.
  - apply written_new; [reflexivity|]. repeat constructor.
  - repeat constructor.
  - reflexivity.
Defined.

(** The search of the keys uses all the fuel it needs. *)
Lemma existingKeys_enough_fuel (existingBody : str) (fuel : nat) :
  length existingBody <= fuel ->
  exec_all_fuel fuel keyRegex existingBody = existingKeys existingBody.
Proof.
  intros H. unfold existingKeys, exec_all.
  apply (@exec_all_fuel_enough keyRegex (progress_once _ _ _)
           (length existingBody)); lia.
Qed.


(** *** The groups *)

Lemma str_eq_dec (a b : str) : {a = b} + {a <> b}.
Proof. apply list_eq_dec, N.eq_dec. Qed.

Lemma str_eqb_false (a b : str) : str_eqb a b = false <-> a <> b.
Proof.
  rewrite <- (str_eqb_eq a b). destruct (str_eqb a b); split; congruence.
Qed.

Lemma str_eqb_refl (a : str) : str_eqb a a = true.
Proof. apply str_eqb_eq. reflexivity. Qed.

Lemma in_mods_in_order (items : list Item) (m : str) :
  In m (mods_in_order items) <-> exists item, In item items /\ mod_ item = m.
Proof.
  induction items as [|a items IH]; cbn [mods_in_order].
  - split; [intros []|intros (item & [] & _)].
  - cbn [In]. rewrite filter_In, IH. split.
    + intros [<-|[(item & Hin & Hm) _]]; eauto.
    + intros (item & [<-|Hin] & Hm); [left; exact Hm|].
      destruct (str_eq_dec (mod_ a) m) as [He|Hne]; [left; exact He|right].
      split; [eauto|]. apply negb_true_iff, str_eqb_false. congruence.
Qed.

Lemma NoDup_filter (A : Type) (f : A -> bool) (l : list A) :
  NoDup l -> NoDup (filter f l).
Proof.
  induction 1 as [|x l Hx _ IH]; cbn [filter]; [constructor|].
  destruct (f x); [|exact IH]. constructor; [|exact IH].
  rewrite filter_In. tauto.
Qed.

Lemma NoDup_mods_in_order (items : list Item) : NoDup (mods_in_order items).
Proof.
  induction items as [|a items IH]; cbn [mods_in_order]; constructor.
  - rewrite filter_In. intros [_ H].
    rewrite str_eqb_refl in H. discriminate.
  - apply NoDup_filter, IH.
Qed.

Lemma mods_in_order_snoc (items : list Item) (x : Item) :
  mods_in_order (items ++ [x])
  = if has (mods_in_order items) (mod_ x) then mods_in_order items
    else mods_in_order items ++ [mod_ x].
Proof.
  induction items as [|a items IH]; [reflexivity|].
  cbn [app mods_in_order]. rewrite IH. clear IH. unfold has. cbn [existsb].
  destruct (str_eq_dec (mod_ x) (mod_ a)) as [He|Hne].
  - rewrite (proj2 (str_eqb_eq _ _) He). cbn [orb].
    destruct (existsb _ (mods_in_order items)); [reflexivity|].
    rewrite filter_app. cbn [filter]. rewrite He, str_eqb_refl. cbn [negb].
    rewrite app_nil_r. reflexivity.
  - rewrite (proj2 (str_eqb_false _ _) Hne). cbn [orb].
    assert (Hsame : existsb (str_eqb (mod_ x))
                      (filter (fun m => negb (str_eqb m (mod_ a))) (mods_in_order items))
                    = existsb (str_eqb (mod_ x)) (mods_in_order items)).
    { induction (mods_in_order items) as [|m ms IHm]; [reflexivity|].
      cbn [filter existsb]. destruct (str_eqb m (mod_ a)) eqn:Hm; cbn [negb].
      - rewrite IHm. apply str_eqb_eq in Hm. subst m.
        rewrite (proj2 (str_eqb_false _ _) Hne). reflexivity.
      - cbn [existsb]. rewrite IHm. reflexivity. }
    rewrite Hsame. destruct (existsb _ (mods_in_order items)); [reflexivity|].
    rewrite filter_app. cbn [filter].
    rewrite (proj2 (str_eqb_false _ _) Hne). reflexivity.
Qed.

Lemma push_item_known (item : Item) (f : str -> list Item) (ms : list str) :
  NoDup ms -> In (mod_ item) ms ->
  push_item item (map (fun m => (m, f m)) ms)
  = map (fun m => (m, f m ++ if str_eqb m (mod_ item) then [item] else [])) ms.
Proof.
  induction 1 as [|m ms Hm Hnd IH]; intros Hin; [destruct Hin|].
  cbn [map push_item]. destruct (str_eqb m (mod_ item)) eqn:He.
  - f_equal. apply map_ext_in. intros m' Hm'.
    apply str_eqb_eq in He. subst m.
    assert (Hne : str_eqb m' (mod_ item) = false)
      by (apply str_eqb_false; intros ->; contradiction).
    rewrite Hne, app_nil_r. reflexivity.
  - rewrite app_nil_r. f_equal. apply IH.
    destruct Hin as [Hin|Hin]; [|exact Hin].
    subst m. rewrite str_eqb_refl in He. discriminate.
Qed.

Lemma push_item_new (item : Item) (f : str -> list Item) (ms : list str) :
  ~ In (mod_ item) ms ->
  push_item item (map (fun m => (m, f m)) ms)
  = map (fun m => (m, f m)) ms ++ [(mod_ item, [item])].
Proof.
  induction ms as [|m ms IH]; intros Hin; [reflexivity|].
  cbn [map push_item app].
  assert (Hne : str_eqb m (mod_ item) = false)
    by (apply str_eqb_false; intros ->; apply Hin; left; reflexivity).
  rewrite Hne. f_equal. apply IH. intros H. apply Hin. right. exact H.
Qed.

Lemma of_mod_snoc (m : str) (items : list Item) (x : Item) :
  of_mod m (items ++ [x])
  = of_mod m items ++ if str_eqb m (mod_ x) then [x] else [].
Proof.
  unfold of_mod. rewrite filter_app. cbn [filter].
  destruct (str_eqb m (mod_ x)); reflexivity.
Qed.

Lemma group_all_spec (items : list Item) :
  group_all items []
  = map (fun m => (m, of_mod m items)) (mods_in_order items).
Proof.
  induction items as [|x items IH] using rev_ind; [reflexivity|].
  unfold group_all in *. rewrite fold_left_app. cbn [fold_left]. rewrite IH.
  rewrite mods_in_order_snoc.
  destruct (has (mods_in_order items) (mod_ x)) eqn:Hhas.
  - apply has_In in Hhas.
    rewrite (@push_item_known x (fun m => of_mod m items) _
               (NoDup_mods_in_order items) Hhas).
    apply map_ext. intros m. rewrite of_mod_snoc. reflexivity.
  - assert (Hno : ~ In (mod_ x) (mods_in_order items)).
    { intros H. apply has_In in H. congruence. }
    rewrite (@push_item_new x (fun m => of_mod m items) _ Hno).
    rewrite map_app. cbn [map]. f_equal.
    + apply map_ext_in. intros m Hm. rewrite of_mod_snoc.
      assert (Hne : str_eqb m (mod_ x) = false)
        by (apply str_eqb_false; intros ->; contradiction).
      rewrite Hne, app_nil_r. reflexivity.
    + rewrite of_mod_snoc, str_eqb_refl.
      assert (Hempty : of_mod (mod_ x) items = []).
      { unfold of_mod. apply filter_none. intros item Hitem.
        apply str_eqb_false. intros He. apply Hno.
        apply in_mods_in_order. exists item. auto. }
      rewrite Hempty. reflexivity.
Qed.

Lemma filter_either (A : Type) (p q : A -> bool) (l : list A) :
  (forall x, In x l -> p x = true -> q x = false) ->
  Permutation (filter (fun x => p x || q x) l) (filter p l ++ filter q l).
Proof.
  induction l as [|x l IH]; intros Hd; [constructor|].
  assert (IH' := IH (fun y Hy => Hd y (or_intror Hy))).
  cbn [filter]. destruct (p x) eqn:Hp; cbn [orb].
  - rewrite (Hd x (or_introl eq_refl) Hp). cbn [app]. apply perm_skip, IH'.
  - destruct (q x); [|exact IH'].
    apply Permutation_cons_app, IH'.
Qed.

Lemma groups_hold_items (items : list Item) (ms : list str) :
  NoDup ms ->
  Permutation (flat_map (fun m => of_mod m items) ms)
              (filter (fun item => has ms (mod_ item)) items).
Proof.
  induction 1 as [|m ms Hm _ IH]; cbn [flat_map].
  - rewrite filter_none; [constructor|reflexivity].
  - rewrite (filter_ext (fun item => has (m :: ms) (mod_ item))
               (fun item => str_eqb m (mod_ item) || has ms (mod_ item))).
    + rewrite filter_either.
      * apply Permutation_app_head, IH.
      * intros item _ He. apply str_eqb_eq in He. subst m.
        destruct (has ms (mod_ item)) eqn:Hh; [|reflexivity].
        apply has_In in Hh. contradiction.
    + intros item. unfold has. cbn [existsb]. f_equal.
      destruct (str_eq_dec m (mod_ item)) as [->|Hne].
      * rewrite !str_eqb_refl. reflexivity.
      * rewrite (proj2 (str_eqb_false _ _) Hne).
        apply str_eqb_false. congruence.
Qed.

(** X6.  The loop that groups the items makes one group for each mod of the
    items that pass the check, in the order in which the mods first appear
    in the report, and a group holds exactly the items of its mod that pass
    the check, in the order of the report.  So no mod has two groups, no
    group is empty and the groups together hold every valid item once. *)
Theorem groups_partition_items (elems : list json) :
  let items := valid_items elems in
  let groups := fst (group_items elems []) in
  groups = map (fun m => (m, of_mod m items)) (mods_in_order items) /\
  NoDup (map fst groups) /\
  (forall m, In m (map fst groups) <->
             exists item, In item items /\ mod_ item = m) /\
  Forall (fun g => snd g <> []) groups /\
  Permutation (flat_map snd groups) items.
Proof.
  intros items groups.
  assert (Hg : groups = map (fun m => (m, of_mod m items)) (mods_in_order items)).
  { unfold groups. rewrite group_items_spec. cbn [fst]. apply group_all_spec. }
  assert (Hkeys : map fst groups = mods_in_order items).
  { rewrite Hg, map_map. cbn [fst]. apply map_id. }
  split; [exact Hg|]. rewrite Hkeys.
  split; [apply NoDup_mods_in_order|]. split; [apply in_mods_in_order|]. split.
  - rewrite Hg. apply Forall_map, Forall_forall. intros m Hm. cbn [snd].
    apply in_mods_in_order in Hm. destruct Hm as (item & Hin & Hmod).
    intros Hempty.
    assert (Hi : In item (of_mod m items)).
    { unfold of_mod. apply filter_In. split; [exact Hin|].
      apply str_eqb_eq. congruence. }
    rewrite Hempty in Hi. destruct Hi.
  - rewrite Hg. rewrite flat_map_concat_map, map_map. cbn [snd].
    rewrite <- flat_map_concat_map.
    rewrite (groups_hold_items items (NoDup_mods_in_order items)).
    rewrite filter_all; [reflexivity|].
    intros item Hitem. apply has_In, in_mods_in_order. eauto.
Qed.

(** *** The requests of a run *)

Lemma insert_index_perm (A : Type) (x : N * A) (l : list (N * A)) :
  Permutation (insert_index x l) (x :: l).
Proof.
  induction l as [|y l IH]; cbn [insert_index]; [reflexivity|].
  destruct (fst x <? fst y)%N; [reflexivity|].
  rewrite IH. apply perm_swap.
Qed.

Lemma filter_split_perm (A : Type) (p : A -> bool) (l : list A) :
  Permutation (filter p l ++ filter (fun x => negb (p x)) l) l.
Proof.
  induction l as [|x l IH]; [constructor|]. cbn [filter].
  destruct (p x); cbn [negb app].
  - apply perm_skip, IH.
  - symmetry. apply Permutation_cons_app. symmetry. exact IH.
Qed.

Lemma entries_perm (A : Type) (groups : list (str * A)) :
  Permutation (entries groups) groups.
Proof.
  unfold entries.
  rewrite <- (filter_split_perm (fun g => negb (named (fst g))) groups) at 3.
  apply Permutation_app.
  - induction groups as [|g groups IH]; [constructor|].
    cbn [fold_right filter]. unfold named in *.
    destruct (array_index (fst g)) as [n|]; cbn [negb]; [|exact IH].
    rewrite insert_index_perm. cbn [map snd]. apply perm_skip, IH.
  - erewrite filter_ext; [reflexivity|]. intros g. unfold named.
    destruct (array_index (fst g)); reflexivity.
Qed.


Lemma issue_title_inj (gameDisplayName m m' : str) :
  issue_title gameDisplayName m = issue_title gameDisplayName m' -> m = m'.
Proof.
  unfold issue_title. intros H.
  apply app_inv_head in H. apply app_inv_head in H. apply app_inv_head in H.
  exact H.
Qed.

Lemma created_titles_app (a b : list effect) :
  created_titles (a ++ b) = created_titles a ++ created_titles b.
Proof. apply flat_map_app. Qed.

Lemma updated_numbers_app (a b : list effect) :
  updated_numbers (a ++ b) = updated_numbers a ++ updated_numbers b.
Proof. apply flat_map_app. Qed.

Lemma writes_of_warnings (l : list json) :
  created_titles (map WarnSkipped l) = [] /\
  updated_numbers (map WarnSkipped l) = [].
Proof. induction l as [|x l [IH1 IH2]]; split; auto. Qed.

Lemma created_titles_group (game gameDisplayName timestamp : str)
    (issues : list Issue) (g : str * list Item) :
  created_titles (reconcile_group game gameDisplayName timestamp issues g)
  = match find (fun issue => str_eqb (title issue)
                               (issue_title gameDisplayName (fst g))) issues with
    | Some _ => []
    | None => [issue_title gameDisplayName (fst g)]
    end.
Proof.
  unfold reconcile_group. destruct g as [m items]. cbn [fst].
  destruct (find _ issues) as [issue|]; [|reflexivity].
  destruct (filter _ items); [reflexivity|].
  destruct (updated_body _ _ _); reflexivity.
Qed.

Lemma updated_numbers_group (game gameDisplayName timestamp : str)
    (issues : list Issue) (g : str * list Item) (n : nat) :
  In n (updated_numbers (reconcile_group game gameDisplayName timestamp issues g)) ->
  exists issue,
    In issue issues /\ number issue = n /\
    title issue = issue_title gameDisplayName (fst g).
Proof.
  unfold reconcile_group. destruct g as [m items]. cbn [fst].
  destruct (find _ issues) as [issue|] eqn:Hfind; [|intros []].
  apply find_some in Hfind. destruct Hfind as [Hin Ht].
  apply str_eqb_eq in Ht.
  destruct (filter _ items); [intros []|].
  destruct (updated_body _ _ _); [|intros []].
  intros [<-|[]]. eauto.
Qed.

Lemma created_titles_groups (game gameDisplayName timestamp : str)
    (issues : list Issue) (es : list (str * list Item)) (t : str) :
  In t (created_titles
          (flat_map (reconcile_group game gameDisplayName timestamp issues) es)) ->
  exists m, In m (map fst es) /\ t = issue_title gameDisplayName m /\
            forall issue, In issue issues -> title issue <> t.
Proof.
  induction es as [|g es IH]; cbn [flat_map]; [intros []|].
  rewrite created_titles_app, created_titles_group, in_app_iff.
  intros [H|H].
  - destruct (find _ issues) eqn:Hfind; [destruct H|].
    destruct H as [<-|[]]. exists (fst g). split; [left; reflexivity|].
    split; [reflexivity|]. intros issue Hin.
    apply str_eqb_false. apply (find_none _ _ Hfind). exact Hin.
  - destruct (IH H) as (m & Hm & Ht & Hno). exists m.
    split; [right; exact Hm|]. auto.
Qed.

Lemma NoDup_created_titles (game gameDisplayName timestamp : str)
    (issues : list Issue) (es : list (str * list Item)) :
  NoDup (map fst es) ->
  NoDup (created_titles
           (flat_map (reconcile_group game gameDisplayName timestamp issues) es)).
Proof.
  induction es as [|g es IH]; cbn [flat_map map]; intros Hnd; [constructor|].
  inversion Hnd as [|? ? Hg Hnd']; subst.
  rewrite created_titles_app, created_titles_group.
  destruct (find _ issues); cbn [app]; [apply IH; exact Hnd'|].
  constructor; [|apply IH; exact Hnd'].
  intros Hin. apply created_titles_groups in Hin.
  destruct Hin as (m & Hm & Ht & _). apply issue_title_inj in Ht.
  subst m. contradiction.
Qed.

(** The shape of a run: it stops before the loop over the groups, or it
    lists the issues, warns, and reconciles the groups. *)
Lemma run_stops_or_reconciles (i : inputs) :
  (forall e, In e (run i) -> is_request e = false)
  \/ (exists game, run i = [ListIssues game; SetFailedError])
  \/ exists game timestamp elems,
       INPUT_GAME i = Some game /\
       run i = ListIssues game
               :: map WarnSkipped (skipped elems)
               ++ flat_map (reconcile_group game (display_name game) timestamp
                                            (open_issues i))
                           (entries (group_all (valid_items elems) [])).
Proof.
  unfold run.
  destruct (INPUT_GAME i) as [[|c game]|];
    try (left; intros e [<-|[]]; reflexivity).
  destruct (missing (INPUT_GITHUB_TOKEN i));
    [left; intros e [<-|[]]; reflexivity|].
  destruct (report_file i) as [| |data];
    try (left; intros e [<-|[]]; reflexivity).
  destruct data as [| b | z t | s | l | props];
    try (left; intros e [<-|[]]; reflexivity);
    try (cbn [get]; left; intros e [<-|[]]; reflexivity).
  destruct (get (JObj props) (lit "items")) as [items|];
    [|left; intros e [<-|[]]; reflexivity].
  destruct (falsy items || length_is_zero items);
    [left; intros e [<-|[]]; reflexivity|].
  right. destruct (iterate items) as [elems|].
  - right. exists (c :: game), (text_of_prop (get (JObj props) (lit "timestamp"))), elems.
    split; [reflexivity|]. rewrite group_items_spec. reflexivity.
  - left. exists (c :: game). reflexivity.
Qed.

(** X7.  Whatever its inputs, a run never creates two issues with the same
    title, and never creates an issue whose title is that of an open issue
    that was listed; every issue it updates is one of the open issues
    listed. *)
Theorem no_duplicate_issue (i : inputs) :
  NoDup (created_titles (run i)) /\
  (forall t issue, In t (created_titles (run i)) ->
                   In issue (open_issues i) -> title issue <> t) /\
  (forall n, In n (updated_numbers (run i)) ->
             exists issue, In issue (open_issues i) /\ number issue = n).
Proof.
  destruct (run_stops_or_reconciles i) as [Hnone|[(game & Hrun)|(game & ts & elems & _ & Hrun)]].
  - assert (Hc : created_titles (run i) = [] /\ updated_numbers (run i) = []).
    { induction (run i) as [|e l IH]; [split; reflexivity|].
      destruct IH as [IH1 IH2]; [intros x Hx; apply Hnone; right; exact Hx|].
      pose proof (Hnone e (or_introl eq_refl)) as He.
      unfold created_titles, updated_numbers in *. cbn [flat_map].
      rewrite IH1, IH2. destruct e; try discriminate; split; reflexivity. }
    destruct Hc as [-> ->]. split; [constructor|]. split; [intros t issue []|intros n []].
  - rewrite Hrun. cbn. split; [constructor|]. split; [intros t issue []|intros n []].
  - rewrite Hrun.
    change (ListIssues game :: ?l) with ([ListIssues game] ++ l).
    rewrite !created_titles_app, !updated_numbers_app.
    destruct (writes_of_warnings (skipped elems)) as [-> ->]. cbn [created_titles updated_numbers flat_map app].
    split; [|split].
    + apply NoDup_created_titles.
      apply (Permutation_NoDup
               (Permutation_map fst (Permutation_sym (entries_perm _)))).
      rewrite group_all_spec, map_map. cbn [fst]. rewrite map_id.
      apply NoDup_mods_in_order.
    + intros t issue Ht Hissue. apply created_titles_groups in Ht.
      destruct Ht as (m & _ & _ & Hno). apply Hno. exact Hissue.
    + intros n Hn. unfold updated_numbers in Hn. apply in_flat_map in Hn.
      destruct Hn as (e & He & Hn). apply in_flat_map in He.
      destruct He as (g & _ & He).
      destruct (@updated_numbers_group game (display_name game) ts
                  (open_issues i) g n) as (issue & Hin & Hnum & _).
      * unfold updated_numbers. apply in_flat_map. eauto.
      * eauto.
Qed.

(** *** The order in which the groups are reconciled *)







(** *** Updates compose *)

Lemma new_body_table_text (gameDisplayName mod_name created : str)
    (items : list Item) :
  new_body gameDisplayName mod_name created items
  = table_text gameDisplayName mod_name created items ++ created_end.
Proof.
  unfold new_body, table_text, created_end, RULE.
  repeat (rewrite <- ?app_assoc; f_equal).
Qed.

(** X9.  For items that are tame and whose message is not folded (at most
    100 code units, no line break): updating the body created for [items]
    with the items [a] gives the header and the rows of [items ++ a],
    followed by the last-update line and the footer; and updates compose:
    updating that body with [b] gives what one update with [a ++ b] at the
    later timestamp gives. *)
Theorem updates_compose (gameDisplayName mod_name created : str)
    (items a b : list Item) (ts1 ts2 : str) :
  plain_field gameDisplayName = true -> plain_field mod_name = true ->
  plain_field created = true -> plain_stamp ts1 = true ->
  Forall (fun item => tame item = true) (items ++ a) ->
  Forall (fun item => folded (message item) = false) (items ++ a) ->
  let body0 := new_body gameDisplayName mod_name created items in
  let body1 := table_text gameDisplayName mod_name created (items ++ a)
               ++ updated_end ts1 in
  updated_body body0 a ts1 = Some body1 /\
  updated_body body1 b ts2
  = Some (table_text gameDisplayName mod_name created (items ++ a ++ b)
          ++ updated_end ts2) /\
  updated_body body1 b ts2 = updated_body body0 (a ++ b) ts2.
Proof.
  intros Hg Hm Hc Hts Htame Hfold body0 body1. unfold body0, body1.
  rewrite new_body_table_text.
  apply Forall_app in Htame. destruct Htame as [Ht1 Ht2].
  apply Forall_app in Hfold. destruct Hfold as [Hf1 Hf2].
  assert (H0 : forall l ts,
             updated_body (table_text gameDisplayName mod_name created items
                           ++ created_end) l ts
             = Some (table_text gameDisplayName mod_name created (items ++ l)
                     ++ updated_end ts)).
  { intros l ts. apply update_appends_rows; auto. }
  assert (H1 : updated_body (table_text gameDisplayName mod_name created (items ++ a)
                             ++ updated_end ts1) b ts2
               = Some (table_text gameDisplayName mod_name created
                         ((items ++ a) ++ b) ++ updated_end ts2)).
  { apply update_appends_rows; auto.
    - apply Forall_app. auto.
    - apply Forall_app. auto.
    - right. exists ts1. auto. }
  rewrite <- app_assoc in H1.
  split; [apply H0|]. split; [exact H1|]. rewrite H1, H0. reflexivity.
Qed.

(** Witness for X9: one item created, one added, then one more. *)
Lemma updates_compose_witness :
  let items := [mymod_item "events.yml" "EVENT.1" "hello"] in
  let a := [mymod_item "events.yml" "EVENT.2" "bye"] in
  let b := [mymod_item "names.yml" "NAME.1" "Anna"] in
  let ts1 := lit "2024-06-01" in
  let ts2 := lit "2024-07-01" in
  let body0 := new_body (lit "CK3") (lit "mymod") (lit "2024-05-01") items in
  let body1 := table_text (lit "CK3") (lit "mymod") (lit "2024-05-01") (items ++ a)
               ++ updated_end ts1 in
  updated_body body0 a ts1 = Some body1 /\
  updated_body body1 b ts2
  = Some (table_text (lit "CK3") (lit "mymod") (lit "2024-05-01") (items ++ a ++ b)
          ++ updated_end ts2) /\
  updated_body body1 b ts2 = updated_body body0 (a ++ b) ts2.
Proof.
  intros items a b ts1 ts2.
  apply (@updates_compose (lit "CK3") (lit "mymod") (lit "2024-05-01")
           items a b ts1 ts2); try (vm_compute; reflexivity).
  - repeat constructor.
  - repeat constructor.
Defined.

(** *** The keys that can be read *)

Lemma take_while_all (cls : char -> bool) (s : str) (c : char) :
  In c (take_while cls s) -> cls c = true.
Proof.
  induction s as [|x s IH]; [intros []|]. cbn [take_while].
  destruct (cls x) eqn:Hx; [|intros []].
  intros [<-|Hin]; [exact Hx|apply IH; exact Hin].
Qed.

Lemma match_key_shape (s k rest : str) :
  match_key s = Some (k, rest) ->
  k <> [] /\ ~ In BACKTICK k /\
  exists pre post, s = pre ++ BACKTICK :: k ++ BACKTICK :: post.
Proof.
  unfold match_key. destruct s as [|c t]; [discriminate|].
  destruct (char_eqb c PIPE); [|discriminate].
  pose proof (take_drop_while (except PIPE) t) as Ht.
  destruct (take_while (except PIPE) t) as [|x seg]; [discriminate|].
  destruct (drop_while (except PIPE) t) as [|y b]; [discriminate|].
  unfold keytail.
  pose proof (take_drop_while is_space b) as Hb.
  remember (take_while is_space b) as w eqn:Hw. clear Hw.
  destruct (drop_while is_space b) as [|q u]; [discriminate|].
  destruct (char_eqb q BACKTICK) eqn:Hq; [|discriminate].
  apply N.eqb_eq in Hq. subst q.
  pose proof (take_drop_while (except BACKTICK) u) as Hu.
  pose proof (take_while_all (except BACKTICK) u) as Hall.
  destruct (take_while (except BACKTICK) u) as [|k0 ks]; [discriminate|].
  destruct (drop_while (except BACKTICK) u) as [|z u'] eqn:Hd; [discriminate|].
  assert (Hz : z = BACKTICK).
  { assert (Hex : except BACKTICK z = false).
    { clear - Hd. induction u as [|w u IH]; [discriminate|].
      cbn [drop_while] in Hd. destruct (except BACKTICK w) eqn:Hw.
      - apply IH. exact Hd.
      - inversion Hd; subst. exact Hw. }
    unfold except, char_eqb in Hex. apply negb_false_iff, N.eqb_eq in Hex.
    symmetry. exact Hex. }
  subst z.
  destruct (drop_while is_space u') as [|p rest']; [discriminate|].
  destruct (char_eqb p PIPE); [|discriminate].
  intros H. inversion H; subst k rest. split; [discriminate|]. split.
  - intros Hin. apply Hall in Hin. unfold except, char_eqb in Hin.
    rewrite N.eqb_refl in Hin. discriminate.
  - exists (c :: (x :: seg) ++ y :: w), u'.
    rewrite <- Ht, <- Hb, <- Hu. cbn [app].
    rewrite <- !app_assoc. reflexivity.
Qed.

Lemma exec_all_fuel_keys (fuel : nat) :
  forall s k, In k (exec_all_fuel fuel keyRegex s) ->
  k <> [] /\ ~ In BACKTICK k /\
  exists pre post, s = pre ++ BACKTICK :: k ++ BACKTICK :: post.
Proof.
  induction fuel as [|fuel IH]; intros s k; cbn [exec_all_fuel]; [intros []|].
  destruct (exec keyRegex s) as [[[pre g] rest]|] eqn:He; [|intros []].
  destruct (exec_split _ _ He) as (m & Hs & Hm).
  rewrite match_here_keyRegex in Hm. intros [<-|Hin].
  - destruct (match_key_shape _ Hm) as (H1 & H2 & p & q & Hpq).
    split; [exact H1|]. split; [exact H2|].
    exists (pre ++ p), q. rewrite Hs, Hpq, <- app_assoc. reflexivity.
  - destruct (IH _ _ Hin) as (H1 & H2 & p & q & Hpq).
    split; [exact H1|]. split; [exact H2|].
    exists (pre ++ m ++ p), q. rewrite Hs, Hpq, <- !app_assoc. reflexivity.
Qed.

(** X15.  Whatever the body of an issue is, a key that the action reads in
    it is not empty, holds no backtick, and stands in the body between two
    backticks.  So an item whose key is empty or holds a backtick is never
    found among the existing keys: each run whose report has such an item,
    for a mod that has an open issue, takes it for new; the run never
    reports that the issue has no new items. *)
Theorem unreadable_key_is_always_new (existingBody : str) :
  (forall k, In k (existingKeys existingBody) ->
     k <> [] /\ ~ In BACKTICK k /\
     exists pre post, existingBody = pre ++ BACKTICK :: k ++ BACKTICK :: post) /\
  (forall game gameDisplayName timestamp n mod_name items item,
     In item items ->
     key item = [] \/ In BACKTICK (key item) ->
     has (existingKeys existingBody) (key item) = false /\
     exists updatedBody added,
       In item added /\
       added = filter (fun item => negb (has (existingKeys existingBody) (key item)))
                      items /\
       updated_body existingBody added timestamp = updatedBody /\
       reconcile_group game gameDisplayName timestamp
         [mkIssue n (issue_title gameDisplayName mod_name) (Some existingBody)]
         (mod_name, items)
       = match updatedBody with
         | None => [WarnNoTable]
         | Some b => [UpdateIssue n b; InfoUpdated n (length added)]
         end).
Proof.
  assert (Hkeys : forall k, In k (existingKeys existingBody) ->
     k <> [] /\ ~ In BACKTICK k /\
     exists pre post, existingBody = pre ++ BACKTICK :: k ++ BACKTICK :: post).
  { intros k. apply exec_all_fuel_keys. }
  split; [exact Hkeys|].
  intros game gdn ts n mod_name items item Hin Hbad.
  assert (Hnot : has (existingKeys existingBody) (key item) = false).
  { destruct (has _ (key item)) eqn:Hh; [|reflexivity].
    apply has_In in Hh. destruct (Hkeys _ Hh) as (H1 & H2 & _).
    destruct Hbad; contradiction. }
  split; [exact Hnot|].
  set (added := filter (fun item => negb (has (existingKeys existingBody) (key item)))
                       items).
  assert (Hadded : In item added).
  { apply filter_In. split; [exact Hin|]. rewrite Hnot. reflexivity. }
  exists (updated_body existingBody added ts), added.
  split; [exact Hadded|]. split; [reflexivity|]. split; [reflexivity|].
  unfold reconcile_group. cbn [find title]. rewrite str_eqb_refl.
  cbn [body_or_empty body number]. fold added.
  destruct added as [|a l]; [destruct Hadded|].
  destruct (updated_body _ _ _); reflexivity.
Qed.
End IssuesFacts.

(* ================================================================== *)
(** ** Properties of the action that closes the issues *)

Module CloseFacts.
Import Js Re Issues Close ReFacts IssuesFacts.

Lemma match_here_closeRegex (s : str) :
  match_here lastUpdateRegex s
  = if startsWith LAST_UPDATE s
    then Some ([], drop_while (only NL)
                     (drop_while (except NL) (skipn (length LAST_UPDATE) s)))
    else None.
Proof.
  unfold lastUpdateRegex. rewrite match_here_literal.
  destruct (startsWith LAST_UPDATE s); [|reflexivity].
  cbn [match_here].
  rewrite greedy_total.
  - rewrite greedy_total; [reflexivity|]. intros u; discriminate.
  - intros u. rewrite greedy_total; [discriminate|]. intros v; discriminate.
Qed.

(** Removing the footer keeps a prefix of the text, which ends before the
    first ['\n---\n']. *)
Lemma exec_footerRegex_prefix (x : str) :
  forall t, startsWith RULE t = true ->
  exists x' u, x = x' ++ u /\ exec footerRegex (x ++ t) = Some (x', [], []).
Proof.
  induction x as [|c x IH]; intros t Ht.
  - exists [], []. split; [reflexivity|]. cbn [app].
    apply exec_here. rewrite match_here_footerRegex, Ht. reflexivity.
  - cbn [app exec]. rewrite match_here_footerRegex.
    destruct (startsWith RULE (c :: x ++ t)).
    + exists [], (c :: x). auto.
    + destruct (IH t Ht) as (x' & u & -> & He). rewrite He.
      exists (c :: x'), u. auto.
Qed.

(** The search of the last-update line in a body that an update wrote. *)
Lemma exec_lastUpdateRegex_updated (x timestamp : str) :
  includes LAST_UPDATE x = false -> ~ In NL timestamp ->
  exec lastUpdateRegex (x ++ updated_end timestamp)
  = Some (x ++ [NL], [], lit "---" ++ [NL] ++ Issues.FOOTER).
Proof.
  intros Hx Hts. unfold updated_end.
  set (tail := LAST_UPDATE ++ [SPACE] ++ timestamp ++ [NL; NL]
               ++ lit "---" ++ [NL] ++ Issues.FOOTER).
  change (x ++ [NL] ++ tail) with (x ++ ([NL] ++ tail)).
  rewrite app_assoc, exec_skip.
  - rewrite (@exec_here lastUpdateRegex tail []
               (lit "---" ++ [NL] ++ Issues.FOOTER)).
    + rewrite app_nil_r. reflexivity.
    + rewrite match_here_closeRegex. unfold tail.
      rewrite startsWith_self_app, skipn_length_app.
      change ([SPACE] ++ timestamp ++ [NL; NL] ++ lit "---" ++ [NL] ++ Issues.FOOTER)
        with ((SPACE :: timestamp) ++ NL :: (NL :: lit "---" ++ [NL] ++ Issues.FOOTER)).
      rewrite drop_while_except.
      * reflexivity.
      * intros [H|H]; [discriminate|contradiction].
  - intros a b Hab Hb.
    destruct (suffix_of_snoc _ _ _ Hab Hb) as (b' & -> & ->).
    rewrite <- app_assoc. cbn [app].
    rewrite match_here_closeRegex, startsWith_app_nl.
    + rewrite (includes_false_suffix _ _ _ Hx). reflexivity.
    + discriminate.
    + vm_compute. intuition discriminate.
Qed.

(** The one last-update line of a body that an update wrote is removed. *)
Lemma replace_all_updated (x old : str) :
  includes LAST_UPDATE x = false -> ~ In NL old ->
  replace_all lastUpdateRegex (x ++ updated_end old)
  = x ++ RULE ++ Issues.FOOTER.
Proof.
  intros Hx Hold. unfold replace_all.
  assert (Hlen : 2 <= length (x ++ updated_end old)).
  { rewrite length_app. unfold updated_end. rewrite !length_app. simpl. lia. }
  destruct (length (x ++ updated_end old)) as [|[|fuel]]; try lia.
  cbn [replace_all_fuel].
  rewrite (exec_lastUpdateRegex_updated x old Hx Hold).
  replace (exec lastUpdateRegex (lit "---" ++ [NL] ++ Issues.FOOTER))
    with (@None (str * str * str)) by (vm_compute; reflexivity).
  destruct fuel; rewrite <- app_assoc; reflexivity.
Qed.

(** Closing an issue whose body ends as an update wrote it: what is kept
    of the text before the last-update line, then the closing text. *)
Lemma closed_body_updated (n : nat) (t x old timestamp : str) :
  includes LAST_UPDATE x = false -> ~ In NL old ->
  exists x' u,
    x = x' ++ u /\
    closed_body (mkIssue n t (Some (x ++ updated_end old))) timestamp
    = x' ++ closing timestamp.
Proof.
  intros Hx Hold. unfold closed_body, body_or_empty. cbn [body].
  rewrite (@replace_all_updated x old Hx Hold).
  destruct (@exec_footerRegex_prefix x (RULE ++ Issues.FOOTER))
    as (x' & u & Hxu & He); [vm_compute; reflexivity|].
  unfold replace_first. rewrite He. exists x', u. split; [exact Hxu|].
  rewrite app_nil_r. reflexivity.
Qed.

(** A body without the last-update marker has no last-update line. *)
Lemma exec_closeRegex_none (b : str) :
  includes LAST_UPDATE b = false -> exec lastUpdateRegex b = None.
Proof.
  induction b as [|c b IH]; cbn [includes exec]; intros H;
    apply orb_false_iff in H; destruct H as [H1 H2];
    rewrite match_here_closeRegex, H1; [reflexivity|].
  rewrite (IH H2). reflexivity.
Qed.

(** Closing an issue whose body has no last-update line: what precedes the
    first rule, then the closing text. *)
Lemma closed_body_unmarked (n : nat) (t : str) (b : option str)
    (timestamp : str) :
  includes LAST_UPDATE (body_or_empty (mkIssue n t b)) = false ->
  exists x' u,
    body_or_empty (mkIssue n t b) = x' ++ u /\
    closed_body (mkIssue n t b) timestamp = x' ++ closing timestamp.
Proof.
  intros Hb. unfold closed_body.
  set (existingBody := body_or_empty (mkIssue n t b)) in *.
  assert (Hall : replace_all lastUpdateRegex existingBody = existingBody).
  { unfold replace_all. destruct (length existingBody); [reflexivity|].
    cbn [replace_all_fuel]. rewrite (exec_closeRegex_none _ Hb). reflexivity. }
  rewrite Hall. unfold replace_first.
  destruct (exec footerRegex existingBody) as [[[pre g] rest]|] eqn:He.
  - destruct (exec_split _ _ He) as (m & Hs & Hm).
    rewrite match_here_footerRegex in Hm.
    destruct (startsWith RULE (m ++ rest)); [|discriminate].
    inversion Hm; subst rest g. exists pre, (m ++ []).
    split; [exact Hs|]. rewrite app_nil_r. reflexivity.
  - exists existingBody, []. rewrite app_nil_r. auto.
Qed.

Lemma occurrences_closing (timestamp : str) :
  includes LAST_UPDATE timestamp = false ->
  occurrences LAST_UPDATE (closing timestamp) = 1.
Proof.
  intros Hts. unfold closing.
  set (pre := [NL; NL] ++ lit "---" ++ [NL; NL] ++ removelast BANNER).
  set (post := [NL] ++ lit "---" ++ [NL] ++ FOOTER).
  assert (Hshape :
    [NL; NL] ++ lit "---" ++ [NL; NL] ++ BANNER ++ LAST_UPDATE ++ [SPACE]
      ++ timestamp ++ [NL; NL] ++ lit "---" ++ [NL] ++ FOOTER
    = pre ++ NL :: ((LAST_UPDATE ++ SPACE :: timestamp) ++ NL :: post)).
  { unfold pre, post. rewrite <- !app_assoc. reflexivity. }
  rewrite Hshape.
  assert (Hnl : ~ In NL LAST_UPDATE) by (vm_compute; intuition discriminate).
  assert (Hne : LAST_UPDATE <> []) by discriminate.
  rewrite (@occurrences_app_nl NL LAST_UPDATE Hne Hnl).
  replace (occurrences LAST_UPDATE pre) with 0 by (vm_compute; reflexivity).
  change (occurrences LAST_UPDATE
            (NL :: (LAST_UPDATE ++ SPACE :: timestamp) ++ NL :: post))
    with (occurrences LAST_UPDATE
            ((LAST_UPDATE ++ SPACE :: timestamp) ++ NL :: post)).
  rewrite (@occurrences_app_nl NL LAST_UPDATE Hne Hnl).
  replace (occurrences LAST_UPDATE (NL :: post)) with 0
    by (vm_compute; reflexivity).
  pose proof (includes_false_occurrences _ _ Hts) as Hocc.
  unfold LAST_UPDATE in *. cbn [app occurrences startsWith char_eqb N.eqb
    Pos.eqb andb]. rewrite Hocc. reflexivity.
Qed.

Lemma occurrences_closed (x' u timestamp : str) :
  includes LAST_UPDATE (x' ++ u) = false ->
  includes LAST_UPDATE timestamp = false ->
  occurrences LAST_UPDATE (x' ++ closing timestamp) = 1.
Proof.
  intros Hx Hnow. unfold closing at 1.
  change ([NL; NL] ++ ?r) with (NL :: ([NL] ++ r)).
  rewrite (@occurrences_app_nl NL LAST_UPDATE);
    [| discriminate | vm_compute; intuition discriminate].
  change (NL :: [NL] ++ ?r) with ([NL; NL] ++ r).
  fold (closing timestamp). rewrite (occurrences_closing _ Hnow).
  rewrite includes_false_occurrences; [reflexivity|].
  apply (@includes_false_prefix LAST_UPDATE x' u); [discriminate|].
  exact Hx.
Qed.

Lemma filter_is_close_closes (timestamp : str) (issues : list Issue) :
  filter is_close
    (flat_map (fun issue =>
                 [CloseIssue (number issue) (closed_body issue timestamp);
                  InfoClosed (number issue)]) issues)
  = map (fun issue => CloseIssue (number issue) (closed_body issue timestamp))
        issues.
Proof.
  induction issues as [|x issues IH]; simpl; [reflexivity|].
  rewrite IH. reflexivity.
Qed.

Lemma hasNoUntranslatedItems_spec (r : report) :
  fst (hasNoUntranslatedItems r) = true <->
  r = Absent \/
  exists data,
    r = Parsed data /\ data <> JNull /\
    (get data (lit "items") = None \/
     exists v, get data (lit "items") = Some v /\
               (falsy v = true \/ length_is_zero v = true)).
Proof.
  split.
  - destruct r as [| |data]; [auto | discriminate |].
    intros H. right. exists data. split; [reflexivity|].
    destruct data as [| b | z t | s | l | props]; try discriminate;
      (split; [discriminate|]); simpl in *; auto.
    destruct (assoc _ props) as [v|]; [|auto]. right. exists v.
    split; [reflexivity|]. simpl in H. apply orb_true_iff in H. exact H.
  - intros [->|(data & -> & Hn & H)]; [reflexivity|].
    destruct data as [| b | z t | s | l | props]; try reflexivity;
      [contradiction|].
    simpl in *. destruct H as [->|(v & -> & H)]; [reflexivity|].
    simpl. apply orb_true_iff. exact H.
Qed.

Lemma hasNoUntranslatedItems_log (r : report) :
  fst (hasNoUntranslatedItems r) = true -> snd (hasNoUntranslatedItems r) = [].
Proof.
  destruct r as [| |data]; [reflexivity | discriminate |].
  destruct data as [| b | z t | s | l | props]; try reflexivity;
    [discriminate|].
  simpl. destruct (assoc _ props); reflexivity.
Qed.

(** *** The closed body, read from left to right *)

(** Removing the footer keeps the text before the first rule line. *)
Lemma replace_first_footerRegex (s : str) :
  replace_first footerRegex s = before_first RULE s.
Proof.
  unfold replace_first.
  induction s as [|c s IH]; cbn [exec before_first];
    rewrite match_here_footerRegex.
  - destruct (startsWith RULE []); reflexivity.
  - destruct (startsWith RULE (c :: s)); [reflexivity|].
    destruct (exec footerRegex s) as [[[pre g] rest]|];
      cbn [app]; rewrite <- IH; reflexivity.
Qed.

Lemma startsWith_split (p : str) :
  forall s, startsWith p s = true -> s = p ++ skipn (length p) s.
Proof.
  induction p as [|x p IH]; intros s H; [reflexivity|].
  destruct s as [|y s]; [discriminate|]. cbn [startsWith] in H.
  apply andb_true_iff in H. destruct H as [Hxy Hp].
  apply N.eqb_eq in Hxy. subst y.
  cbn [length skipn app]. f_equal. apply IH. exact Hp.
Qed.

Lemma length_drop_while (cls : char -> bool) (s : str) :
  length (drop_while cls s) <= length s.
Proof.
  induction s as [|c s IH]; cbn [drop_while length]; [lia|].
  destruct (cls c); cbn [length]; lia.
Qed.

Lemma without_updates_InLine (s : str) :
  without_updates_from InLine s
  = without_updates_from LineBreaks (drop_while (except NL) s).
Proof.
  induction s as [|c s IH]; [reflexivity|].
  cbn [without_updates_from drop_while]. unfold except at 1.
  destruct (char_eqb NL c) eqn:Hc; cbn [negb].
  - cbn [without_updates_from]. rewrite Hc. reflexivity.
  - exact IH.
Qed.

Lemma without_updates_LineBreaks (s : str) :
  without_updates_from LineBreaks s
  = without_updates_from Copying (drop_while (only NL) s).
Proof.
  induction s as [|c s IH]; [reflexivity|].
  cbn [without_updates_from drop_while]. unfold only at 1.
  destruct (char_eqb NL c) eqn:Hc; [exact IH|reflexivity].
Qed.

Lemma without_updates_in_line (m : str) :
  ~ In NL m ->
  forall t, without_updates_from InLine (m ++ t) = without_updates_from InLine t.
Proof.
  induction m as [|c m IH]; intros Hm t; [reflexivity|].
  cbn [app without_updates_from].
  destruct (char_eqb NL c) eqn:Hc.
  - apply N.eqb_eq in Hc. exfalso. apply Hm. left. symmetry. exact Hc.
  - apply IH. intros H. apply Hm. right. exact H.
Qed.

(** Where a last-update line starts, the reading goes on after the line and
    the line breaks that follow it. *)
Lemma without_updates_marker (s : str) :
  startsWith LAST_UPDATE s = true ->
  without_updates s
  = without_updates
      (drop_while (only NL)
         (drop_while (except NL) (skipn (length LAST_UPDATE) s))).
Proof.
  intros Hs. unfold without_updates.
  rewrite <- without_updates_LineBreaks, <- without_updates_InLine.
  pose proof (startsWith_split _ _ Hs) as Hsplit.
  remember (skipn (length LAST_UPDATE) s) as t eqn:Ht. clear Ht.
  subst s. clear Hs.
  assert (Hnl : ~ In NL LAST_UPDATE) by (apply has_char_false; reflexivity).
  pose proof (startsWith_self_app LAST_UPDATE t) as Hc.
  destruct LAST_UPDATE as [|x m] eqn:E; [vm_compute in E; discriminate E|].
  cbn [app without_updates_from]. cbn [app] in Hc. rewrite E, Hc.
  apply without_updates_in_line. intros H. apply Hnl. right. exact H.
Qed.

Lemma exec_lastUpdateRegex_nil : exec lastUpdateRegex [] = None.
Proof. reflexivity. Qed.

(** Removing the last-update lines, as the regular expression does it, is
    the reading from left to right. *)
Lemma replace_all_fuel_lastUpdateRegex :
  forall fuel s, length s <= fuel ->
  replace_all_fuel fuel lastUpdateRegex s = without_updates s.
Proof.
  induction fuel as [|fuel IH]; intros s Hlen.
  - destruct s; [reflexivity|cbn in Hlen; lia].
  - cbn [replace_all_fuel]. destruct s as [|c s]; [reflexivity|].
    cbn [length] in Hlen. cbn [exec]. rewrite match_here_closeRegex.
    destruct (startsWith LAST_UPDATE (c :: s)) eqn:Hs.
    + cbn [app]. rewrite (without_updates_marker _ Hs). apply IH.
      pose proof (length_drop_while (only NL)
                    (drop_while (except NL) (skipn (length LAST_UPDATE) (c :: s)))).
      pose proof (length_drop_while (except NL)
                    (skipn (length LAST_UPDATE) (c :: s))).
      assert (length (skipn (length LAST_UPDATE) (c :: s)) <= length s).
      { rewrite length_skipn. unfold LAST_UPDATE. cbn [length]. lia. }
      lia.
    + assert (Hw : without_updates (c :: s) = c :: without_updates s).
      { unfold without_updates. cbn [without_updates_from]. rewrite Hs.
        reflexivity. }
      rewrite Hw, <- (IH s) by lia.
      destruct (exec lastUpdateRegex s) as [[[pre g] rest]|] eqn:He.
      * cbn [app]. f_equal.
        destruct fuel as [|fuel'].
        { destruct s; [discriminate He|cbn in Hlen; lia]. }
        assert (Hstep : replace_all_fuel (S fuel') lastUpdateRegex s
                        = pre ++ replace_all_fuel fuel' lastUpdateRegex rest)
          by (cbn [replace_all_fuel]; rewrite He; reflexivity).
        rewrite Hstep. f_equal.
        pose proof (exec_shorter (progress_once _ _ _) _ He) as Hsh.
        apply (@replace_all_fuel_enough lastUpdateRegex (progress_once _ _ _)
                 (length rest)); lia.
      * destruct fuel; cbn [replace_all_fuel]; rewrite ?He; reflexivity.
Qed.

Lemma replace_all_lastUpdateRegex (s : str) :
  replace_all lastUpdateRegex s = without_updates s.
Proof. apply replace_all_fuel_lastUpdateRegex. lia. Qed.

(** The closed body of an issue, whatever its body is. *)
Lemma closed_body_reading (issue : Issue) (timestamp : str) :
  closed_body issue timestamp
  = before_first RULE (without_updates (body_or_empty issue))
    ++ closing timestamp.
Proof.
  unfold closed_body, closing.
  rewrite replace_all_lastUpdateRegex, replace_first_footerRegex.
  reflexivity.
Qed.

(** A text without the marker is read as it is. *)
Lemma without_updates_unmarked (s : str) :
  includes LAST_UPDATE s = false -> without_updates s = s.
Proof.
  unfold without_updates.
  induction s as [|c s IH]; intros H; [reflexivity|].
  cbn [includes] in H. apply orb_false_iff in H. destruct H as [Hs Hr].
  cbn [without_updates_from]. rewrite Hs. f_equal. apply IH. exact Hr.
Qed.

(** C7, as stated, fails: a report that is present and has no [items] at all
    closes the open issue; and in the action that creates the issues a
    report that does not parse fails the run. *)
Lemma close_fires_without_items :
  let report := Parsed (JObj [(lit "timestamp", JStr (lit "2024"))]) in
  report <> Absent /\
  (forall data elems, report = Parsed data ->
                      get data (lit "items") <> Some (JArr elems)) /\
  Close.run (example_inputs report [example_issue])
  = [ InfoNothing; ListIssues (lit "ck3");
      CloseIssue 7 (closed_body example_issue (lit "2024-06-01T00:00:00.000Z"));
      InfoClosed 7 ] /\
  Issues.run (Issues.mkInputs (Some (lit "ck3")) (Some (lit "token"))
                              Unparsable [example_issue])
  = [SetFailedParse].
Proof.
  cbv zeta. split; [discriminate|]. split.
  - intros data elems H. inversion H; subst. discriminate.
  - split; vm_compute; reflexivity.
Qed.

(** C7, amended.  With the input game set and the input github-token set to
    more than white space: the close path is taken exactly when the report
    is absent, or parses to a value other than null whose [items] is
    missing, falsy or of length zero; then every open issue listed is
    closed, and otherwise none is.  The body an issue is closed with is its
    old body without the last-update lines, up to the first rule line,
    followed by the closing text: a rule, the banner, the new last-update
    line and the footer.  When the report does not parse, the closing action
    logs an error and does nothing else, and the creating action fails the
    run and makes no request that writes.  For a body that ends as an update wrote it and
    contains the last-update marker nowhere else, the only last-update line
    is the one left out, what is kept is a prefix of the text that preceded
    it, and the closed body contains the marker once; and so for a body, or
    no body, that does not contain the marker at all, where no line is left
    out. *)
Theorem close_path (i : Close.inputs) (value token : str) :
  game i = Some value -> value <> [] ->
  github_token i = Some token -> trim token <> [] ->
  (fst (hasNoUntranslatedItems (report_file i)) = true <->
     report_file i = Absent \/
     exists data,
       report_file i = Parsed data /\ data <> JNull /\
       (get data (lit "items") = None \/
        exists v, get data (lit "items") = Some v /\
                  (falsy v = true \/ length_is_zero v = true))) /\
  (fst (hasNoUntranslatedItems (report_file i)) = true ->
     filter is_close (run i)
     = map (fun issue =>
              CloseIssue (number issue)
                (before_first RULE (without_updates (body_or_empty issue))
                 ++ closing (now i)))
           (open_issues i)) /\
  (fst (hasNoUntranslatedItems (report_file i)) = false ->
     filter is_close (run i) = []) /\
  (report_file i = Unparsable -> run i = [ErrorParse]) /\
  (forall j, Issues.report_file j = Unparsable ->
             forallb (fun e => negb (is_write e)) (Issues.run j) = true) /\
  (forall n t x old,
      includes LAST_UPDATE x = false -> ~ In NL old ->
      includes LAST_UPDATE (now i) = false ->
      exists x' u,
        x = x' ++ u /\
        closed_body (mkIssue n t (Some (x ++ updated_end old))) (now i)
        = x' ++ closing (now i) /\
        occurrences LAST_UPDATE
          (closed_body (mkIssue n t (Some (x ++ updated_end old))) (now i)) = 1) /\
  (forall n t b,
      includes LAST_UPDATE (body_or_empty (mkIssue n t b)) = false ->
      includes LAST_UPDATE (now i) = false ->
      exists x' u,
        body_or_empty (mkIssue n t b) = x' ++ u /\
        closed_body (mkIssue n t b) (now i) = x' ++ closing (now i) /\
        occurrences LAST_UPDATE (closed_body (mkIssue n t b) (now i)) = 1) /\
  (forall issue,
      closed_body issue (now i)
      = before_first RULE (without_updates (body_or_empty issue))
        ++ closing (now i)) /\
  (forall x old,
      includes LAST_UPDATE x = false -> ~ In NL old ->
      without_updates (x ++ updated_end old) = x ++ RULE ++ Issues.FOOTER) /\
  (forall s, includes LAST_UPDATE s = false -> without_updates s = s) /\
  (forall j, Issues.report_file j = Unparsable ->
             exists e, Issues.run j = [e] /\ Issues.is_failure e = true).
Proof.
  intros Hg Hgne Ht Htne.
  assert (Hrun : run i =
    snd (hasNoUntranslatedItems (report_file i)) ++
    if fst (hasNoUntranslatedItems (report_file i)) then
      InfoNothing :: ListIssues (trim value) ::
      flat_map (fun issue =>
                  [CloseIssue (number issue) (closed_body issue (now i));
                   InfoClosed (number issue)]) (open_issues i)
    else []).
  { unfold run. rewrite Hg, Ht.
    destruct value as [|c v]; [contradiction|].
    destruct token as [|c' tk]; [contradiction|]. cbn [getInput].
    destruct (trim (c' :: tk)) as [|y tk']; [contradiction|].
    destruct (hasNoUntranslatedItems (report_file i)) as [b l]. reflexivity. }
  split; [apply hasNoUntranslatedItems_spec|].
  split; [|split; [|split; [|split; [|split; [|split; [|split; [|split; [|split]]]]]]]].
  - intros Hfire. rewrite Hrun, Hfire, (hasNoUntranslatedItems_log _ Hfire).
    cbn [app filter is_close]. rewrite filter_is_close_closes.
    apply map_ext. intros issue. rewrite closed_body_reading. reflexivity.
  - intros Hno. rewrite Hrun, Hno, app_nil_r.
    destruct (report_file i) as [| |data]; try reflexivity.
    destruct data as [| b | z t | s | l | props]; try reflexivity.
    simpl. destruct (assoc _ props); reflexivity.
  - intros Hr. rewrite Hrun, Hr. reflexivity.
  - intros j Hj. unfold Issues.run. rewrite Hj.
    destruct (INPUT_GAME j) as [[|c g]|]; try reflexivity.
    destruct (missing (INPUT_GITHUB_TOKEN j)); reflexivity.
  - intros n t x old Hx Hold Hnow.
    destruct (@closed_body_updated n t x old (now i) Hx Hold) as (x' & u & Hxu & Hc).
    exists x', u. split; [exact Hxu|]. split; [exact Hc|].
    rewrite Hc. apply (@occurrences_closed x' u); [|exact Hnow].
    rewrite <- Hxu. exact Hx.
  - intros n t b Hb Hnow.
    destruct (@closed_body_unmarked n t b (now i) Hb) as (x' & u & Hxu & Hc).
    exists x', u. split; [exact Hxu|]. split; [exact Hc|].
    rewrite Hc. apply (@occurrences_closed x' u); [|exact Hnow].
    rewrite <- Hxu. exact Hb.
  - intros issue. apply closed_body_reading.
  - intros x old Hx Hold. rewrite <- replace_all_lastUpdateRegex.
    apply (@replace_all_updated x old Hx Hold).
  - apply without_updates_unmarked.
  - intros j Hj. unfold Issues.run. rewrite Hj.
    destruct (INPUT_GAME j) as [[|c g]|];
      try (eexists; split; reflexivity).
    destruct (missing (INPUT_GITHUB_TOKEN j)); eexists; split; reflexivity.
Qed.

(** Witness for the amended C7: the report is absent and one issue is open. *)
Lemma close_path_witness :
  let i := example_inputs Absent [example_issue] in
  (fst (hasNoUntranslatedItems (report_file i)) = true <->
     report_file i = Absent \/
     exists data,
       report_file i = Parsed data /\ data <> JNull /\
       (get data (lit "items") = None \/
        exists v, get data (lit "items") = Some v /\
                  (falsy v = true \/ length_is_zero v = true))) /\
  (fst (hasNoUntranslatedItems (report_file i)) = true ->
     filter is_close (run i)
     = map (fun issue =>
              CloseIssue (number issue)
                (before_first RULE (without_updates (body_or_empty issue))
                 ++ closing (now i)))
           (open_issues i)) /\
  (fst (hasNoUntranslatedItems (report_file i)) = false ->
     filter is_close (run i) = []) /\
  (report_file i = Unparsable -> run i = [ErrorParse]) /\
  (forall j, Issues.report_file j = Unparsable ->
             forallb (fun e => negb (is_write e)) (Issues.run j) = true) /\
  (forall n t x old,
      includes LAST_UPDATE x = false -> ~ In NL old ->
      includes LAST_UPDATE (now i) = false ->
      exists x' u,
        x = x' ++ u /\
        closed_body (mkIssue n t (Some (x ++ updated_end old))) (now i)
        = x' ++ closing (now i) /\
        occurrences LAST_UPDATE
          (closed_body (mkIssue n t (Some (x ++ updated_end old))) (now i)) = 1) /\
  (forall n t b,
      includes LAST_UPDATE (body_or_empty (mkIssue n t b)) = false ->
      includes LAST_UPDATE (now i) = false ->
      exists x' u,
        body_or_empty (mkIssue n t b) = x' ++ u /\
        closed_body (mkIssue n t b) (now i) = x' ++ closing (now i) /\
        occurrences LAST_UPDATE (closed_body (mkIssue n t b) (now i)) = 1) /\
  (forall issue,
      closed_body issue (now i)
      = before_first RULE (without_updates (body_or_empty issue))
        ++ closing (now i)) /\
  (forall x old,
      includes LAST_UPDATE x = false -> ~ In NL old ->
      without_updates (x ++ updated_end old) = x ++ RULE ++ Issues.FOOTER) /\
  (forall s, includes LAST_UPDATE s = false -> without_updates s = s) /\
  (forall j, Issues.report_file j = Unparsable ->
             exists e, Issues.run j = [e] /\ Issues.is_failure e = true).
Proof.
  intros i.
  apply (@close_path i (lit "ck3") (lit "token")).
  - reflexivity.
  - discriminate.
  - reflexivity.
  - vm_compute. discriminate.
Defined.

(** The removal of the last-update lines uses all the fuel it needs. *)
Lemma replace_all_enough_fuel (existingBody : str) (fuel : nat) :
  length existingBody <= fuel ->
  replace_all_fuel fuel lastUpdateRegex existingBody
  = replace_all lastUpdateRegex existingBody.
Proof.
  intros H. unfold replace_all.
  apply (@replace_all_fuel_enough lastUpdateRegex (progress_once _ _ _)
           (length existingBody)); lia.
Qed.


(** *** The two actions on the same report *)

Lemma Issues_run_quiet (i : Issues.inputs) (g : str) :
  INPUT_GAME i = Some g -> g <> [] -> missing (INPUT_GITHUB_TOKEN i) = false ->
  (fst (hasNoUntranslatedItems (Issues.report_file i)) = true ->
     Issues.run i = [Issues.InfoNothing]) /\
  (fst (hasNoUntranslatedItems (Issues.report_file i)) = false ->
     (exists e, Issues.run i = [e] /\ Issues.is_failure e = true) \/
     (exists l, Issues.run i = Issues.ListIssues g :: l)).
Proof.
  intros Hg Hne Ht. unfold Issues.run. rewrite Hg, Ht.
  destruct g as [|c g]; [contradiction|].
  destruct (Issues.report_file i) as [| |data]; cbn [hasNoUntranslatedItems fst].
  - split; [reflexivity|discriminate].
  - split; [discriminate|]. intros _. left. eexists. split; reflexivity.
  - destruct data as [| b | z t | s | l | props];
      try (split; [reflexivity|discriminate]).
    + split; [discriminate|]. intros _. left. eexists. split; reflexivity.
    + destruct (get (JObj props) (lit "items")) as [items|]; cbn [fst];
        [|split; [reflexivity|discriminate]].
      destruct (falsy items || length_is_zero items).
      * split; [reflexivity|discriminate].
      * split; [discriminate|]. intros _. right. eexists. reflexivity.
Qed.

Lemma Close_run_quiet (c : Close.inputs) :
  fst (hasNoUntranslatedItems (report_file c)) = false ->
  forall e, In e (run c) -> is_request e = false.
Proof.
  intros Hno e. unfold run.
  destruct (getInput (game c)) as [gameType|]; [|intros [<-|[]]; reflexivity].
  destruct (getInput (github_token c)) as [[|y tk]|];
    try (intros [<-|[]]; reflexivity).
  destruct (hasNoUntranslatedItems (report_file c)) as [b logged] eqn:Hh.
  cbn [fst] in Hno. subst b. rewrite app_nil_r.
  destruct (report_file c) as [| |data]; cbn in Hh.
  - inversion Hh.
  - inversion Hh; subst. intros [<-|[]]; reflexivity.
  - destruct data as [| b | z t | s | l | props]; cbn in Hh;
      try (inversion Hh; subst; intros [<-|[]]; reflexivity);
      try (inversion Hh; subst; intros []).
    destruct (assoc _ props); inversion Hh; subst; intros [].
Qed.

(** X10.  The two actions read the same report in the same way.  With its
    inputs set, the creating action stops with the note that nothing is left
    to translate exactly when the closing action takes its close path.  So
    for one report the two never both send a request: when the creating
    action lists, creates or updates issues, the closing action sends
    nothing, and when the closing action lists or closes issues, the
    creating action sends nothing. *)
Theorem actions_exclude_each_other (i : Issues.inputs) (c : Close.inputs)
    (g : str) :
  Issues.report_file i = report_file c ->
  INPUT_GAME i = Some g -> g <> [] -> missing (INPUT_GITHUB_TOKEN i) = false ->
  (Issues.run i = [Issues.InfoNothing] <->
   fst (hasNoUntranslatedItems (report_file c)) = true) /\
  (existsb Issues.is_request (Issues.run i) = true ->
   forall e, In e (run c) -> is_request e = false) /\
  (existsb is_request (run c) = true ->
   forall e, In e (Issues.run i) -> Issues.is_request e = false).
Proof.
  intros Hr Hg Hne Ht.
  destruct (Issues_run_quiet i Hg Hne Ht) as [Hyes Hno]. rewrite Hr in Hyes, Hno.
  destruct (fst (hasNoUntranslatedItems (report_file c))) eqn:Hh.
  - specialize (Hyes eq_refl). rewrite Hyes. split; [tauto|].
    split; [discriminate|]. intros _ e [<-|[]]. reflexivity.
  - split; [|split].
    + split; [|discriminate]. intros Hrun.
      destruct (Hno eq_refl) as [(e & He & Hf)|(l & Hl)].
      * rewrite He in Hrun. inversion Hrun; subst. discriminate.
      * rewrite Hl in Hrun. discriminate.
    + intros _. apply Close_run_quiet. exact Hh.
    + intros Hreq. apply existsb_exists in Hreq.
      destruct Hreq as (e & He & Hq).
      rewrite (Close_run_quiet c Hh e He) in Hq. discriminate.
Qed.

(** Witness for X10: a report with one item, and one open issue. *)
Lemma actions_exclude_each_other_witness :
  let elems := [Issues.example_item (lit "EVENT.1") (lit "hello")] in
  let i := Issues.example_inputs elems [example_issue] in
  let c := example_inputs (Parsed (example_report elems)) [example_issue] in
  (Issues.run i = [Issues.InfoNothing] <->
   fst (hasNoUntranslatedItems (report_file c)) = true) /\
  (existsb Issues.is_request (Issues.run i) = true ->
   forall e, In e (run c) -> is_request e = false) /\
  (existsb is_request (run c) = true ->
   forall e, In e (Issues.run i) -> Issues.is_request e = false).
Proof.
  intros elems i c.
  apply (@actions_exclude_each_other i c (lit "ck3")).
  - reflexivity.
  - reflexivity.
  - discriminate.
  - reflexivity.
Defined.
End CloseFacts.

(* ================================================================== *)
(** ** Properties of the migrator *)

Module MigratorFacts.
Import Js Issues Migrator ReFacts IssuesFacts.

Lemma set_prop_map (name : str) (v : json) (props : list (str * json)) :
  NoDup (map fst props) ->
  set_prop name v props
  = map (fun p => if str_eqb (fst p) name then (fst p, v) else p) props.
Proof.
  induction props as [|[n x] props IH]; intros Hnd; [reflexivity|].
  cbn [set_prop map fst]. inversion Hnd as [|? ? Hn Hnd']; subst.
  destruct (str_eqb n name) eqn:He.
  - f_equal. rewrite <- (map_id props) at 1. apply map_ext_in.
    intros p Hp. apply str_eqb_eq in He. subst name.
    assert (Hne : str_eqb (fst p) n = false).
    { apply str_eqb_false. intros <-. apply Hn. apply in_map. exact Hp. }
    rewrite Hne. reflexivity.
  - f_equal. apply IH. exact Hnd'.
Qed.

Lemma set_prop_keys (name : str) (v : json) (props : list (str * json)) :
  map fst (set_prop name v props) = map fst props.
Proof.
  induction props as [|[n x] props IH]; [reflexivity|]. cbn [set_prop].
  destruct (str_eqb n name); cbn [map fst]; [reflexivity|].
  rewrite IH. reflexivity.
Qed.

Lemma set_prop_other (name : str) (v : json) (props : list (str * json))
    (p : str * json) :
  fst p <> name -> In p props -> In p (set_prop name v props).
Proof.
  intros Hne. induction props as [|[n x] props IH]; [intros []|].
  cbn [set_prop]. intros [<-|Hin].
  - cbn [fst] in Hne. rewrite (proj2 (str_eqb_false _ _) Hne). left. reflexivity.
  - destruct (str_eqb n name); right; [exact Hin|apply IH; exact Hin].
Qed.

Lemma NoDup_keys_value (props : list (str * json)) (k : str) (v w : json) :
  NoDup (map fst props) -> In (k, v) props -> In (k, w) props -> v = w.
Proof.
  induction props as [|[n x] props IH]; intros Hnd Hv Hw; [destruct Hv|].
  inversion Hnd as [|? ? Hn Hnd']; subst.
  destruct Hv as [Hv|Hv], Hw as [Hw|Hw].
  - congruence.
  - inversion Hv; subst. exfalso. apply Hn. apply (in_map fst) in Hw. exact Hw.
  - inversion Hw; subst. exfalso. apply Hn. apply (in_map fst) in Hv. exact Hv.
  - apply IH; assumption.
Qed.

Lemma translated_value (a b : option json) :
  translated a b = true -> exists value, a = Some value.
Proof.
  unfold translated, truthy. destruct a as [value|]; [eauto|discriminate].
Qed.

(** The loop over the entries of an object. *)
Lemma invalidate_object (es : list (str * json)) :
  forall props n,
    NoDup (map fst es) -> NoDup (map fst props) -> incl es props ->
    Forall (fun p => pair_of (snd p) <> None) es ->
    invalidate (map (fun p => (Name (fst p), snd p)) es) (JObj props) n
    = Some (JObj (map (fun p => if has (map fst es) (fst p)
                                then (fst p, invalidated (snd p)) else p) props),
            n + length (filter (fun p => stale (snd p)) es)).
Proof.
  induction es as [|[k v] es IH]; intros props n Hes Hprops Hincl Hiter.
  - cbn. rewrite map_id, Nat.add_0_r. reflexivity.
  - inversion Hes as [|? ? Hk Hes']; subst.
    inversion Hiter as [|? ? Hv Hiter']; subst. cbn [snd] in Hv.
    assert (Hin : In (k, v) props) by (apply Hincl; left; reflexivity).
    assert (Hincl' : incl es props)
      by (intros p Hp; apply Hincl; right; exact Hp).
    assert (Hhas : has (map fst es) k = false).
    { destruct (has (map fst es) k) eqn:Hh; [|reflexivity].
      apply has_In in Hh. contradiction. }
    cbn [map invalidate fst snd filter].
    unfold stale at 1, invalidated.
    destruct (pair_of v) as [[a b]|] eqn:Hpair; [|contradiction].
    destruct (translated a b) eqn:Htr.
    + destruct (@translated_value a b Htr) as (value & ->).
      cbn [set_entry length].
      rewrite IH; try assumption.
      * f_equal. f_equal; [|lia]. f_equal.
        rewrite set_prop_map by exact Hprops. rewrite map_map.
        apply map_ext_in. intros [k' v'] Hp. cbn [fst snd].
        unfold has. cbn [map existsb fst].
        destruct (str_eqb k' k) eqn:He; cbn [orb fst snd].
        -- apply str_eqb_eq in He. subst k'.
           fold (has (map fst es) k). rewrite Hhas.
           rewrite (@NoDup_keys_value props k v' v Hprops Hp Hin).
           unfold invalidated, stale. rewrite Hpair, Htr. reflexivity.
        -- reflexivity.
      * rewrite set_prop_keys. exact Hprops.
      * intros p Hp. apply set_prop_other; [|apply Hincl'; exact Hp].
        intros He. apply Hk. rewrite <- He. apply in_map. exact Hp.
    + rewrite IH; try assumption. f_equal. f_equal. f_equal.
      apply map_ext_in. intros [k' v'] Hp. cbn [fst snd].
      unfold has. cbn [map existsb fst].
      destruct (str_eqb k' k) eqn:He; cbn [orb]; [|reflexivity].
      apply str_eqb_eq in He. subst k'.
      fold (has (map fst es) k). rewrite Hhas.
      rewrite (@NoDup_keys_value props k v' v Hprops Hp Hin).
      unfold invalidated, stale. rewrite Hpair, Htr.
      destruct a; reflexivity.
Qed.

Lemma insert_index_map (A B : Type) (f : A -> B) (x : N * A) (l : list (N * A)) :
  insert_index (fst x, f (snd x)) (map (fun y => (fst y, f (snd y))) l)
  = map (fun y => (fst y, f (snd y))) (insert_index x l).
Proof.
  induction l as [|y l IH]; [reflexivity|]. cbn [map insert_index fst].
  destruct (fst x <? fst y)%N; [reflexivity|].
  cbn [map]. rewrite IH. reflexivity.
Qed.

(** [Object.entries] lists the names in an order that the names alone
    decide. *)
Lemma entries_map_values (f : str * json -> json) (props : list (str * json)) :
  entries (map (fun p => (fst p, f p)) props)
  = map (fun p => (fst p, f p)) (entries props).
Proof.
  unfold entries. rewrite map_app. f_equal.
  - assert (H : fold_right
        (fun g acc => match array_index (fst g) with
                      | Some n => insert_index (n, g) acc
                      | None => acc
                      end) [] (map (fun p => (fst p, f p)) props)
      = map (fun y => (fst y, (fst (snd y), f (snd y))))
          (fold_right
             (fun g acc => match array_index (fst g) with
                           | Some n => insert_index (n, g) acc
                           | None => acc
                           end) [] props)).
    { induction props as [|p props IH]; [reflexivity|].
      cbn [map fold_right fst]. rewrite IH.
      destruct (array_index (fst p)) as [n|]; [|reflexivity].
      apply (insert_index_map (fun q => (fst q, f q)) (n, p)). }
    rewrite H, !map_map. reflexivity.
  - induction props as [|p props IH]; [reflexivity|].
    cbn [map filter fst]. destruct (array_index (fst p)); cbn [map];
      rewrite IH; reflexivity.
Qed.

Lemma filter_length_perm (A : Type) (f : A -> bool) (l l' : list A) :
  Permutation l l' -> length (filter f l) = length (filter f l').
Proof.
  induction 1 as [|x l l' _ IH|x y l|l l' l'' _ IH1 _ IH2]; cbn [filter].
  - reflexivity.
  - destruct (f x); cbn [length]; rewrite IH; reflexivity.
  - destruct (f x), (f y); reflexivity.
  - rewrite IH1. exact IH2.
Qed.

Lemma assoc_In (props : list (str * json)) (name : str) (v : json) :
  assoc name props = Some v -> In (name, v) props.
Proof.
  induction props as [|[n x] props IH]; [discriminate|]. cbn [assoc].
  destruct (str_eqb n name) eqn:He.
  - intros H. inversion H; subst. apply str_eqb_eq in He. subst. left. reflexivity.
  - intros H. right. apply IH. exact H.
Qed.

(** The call on a file whose language section is an object of entries that
    can be destructured. *)
Lemma migrate_object (props section : list (str * json)) (lang : str) :
  first_name (JObj props) = Some (Some lang) ->
  startsWith (lit "l_") lang = true ->
  assoc lang props = Some (JObj section) ->
  NoDup (map fst section) ->
  Forall (fun p => pair_of (snd p) <> None) section ->
  migrateTranslationFile (Content (Some (JObj props)))
  = match length (filter (fun p => stale (snd p)) section) with
    | O => mkOutcome 0 None DebugUnchanged
    | S n =>
        mkOutcome (S n)
          (Some (JObj (set_prop lang (JObj (invalidated_section section)) props)))
          DebugUpdated
    end.
Proof.
  intros Hfirst Hl Hsec Hnd Hiter. unfold migrateTranslationFile.
  rewrite Hfirst, Hl. cbn [negb get]. rewrite Hsec. cbn [entries_of].
  pose proof (entries_perm section) as Hperm.
  rewrite invalidate_object.
  - cbn [Nat.add]. rewrite (filter_length_perm _ Hperm).
    assert (Hmap : map (fun p => if has (map fst (entries section)) (fst p)
                                 then (fst p, invalidated (snd p)) else p) section
                   = invalidated_section section).
    { unfold invalidated_section. apply map_ext_in. intros p Hp.
      assert (Hh : has (map fst (entries section)) (fst p) = true).
      { apply has_In, in_map. apply (Permutation_in _ (Permutation_sym Hperm)).
        exact Hp. }
      rewrite Hh. reflexivity. }
    rewrite Hmap. destruct (length _) as [|n]; reflexivity.
  - apply (Permutation_NoDup (Permutation_map fst (Permutation_sym Hperm))).
    exact Hnd.
  - exact Hnd.
  - intros p Hp. apply (Permutation_in _ Hperm). exact Hp.
  - rewrite Forall_forall in *. intros p Hp. apply Hiter.
    apply (Permutation_in _ Hperm). exact Hp.
Qed.

Lemma stale_invalidated (v : json) : stale (invalidated v) = false.
Proof.
  unfold invalidated. destruct (pair_of v) as [[[value|] b]|] eqn:Hp.
  - destruct (stale v) eqn:Hs; [|exact Hs].
    unfold stale, translated. cbn. destruct (falsy value); reflexivity.
  - unfold stale. rewrite Hp. reflexivity.
  - unfold stale. rewrite Hp. reflexivity.
Qed.

Lemma pair_of_invalidated (v : json) :
  pair_of v <> None -> pair_of (invalidated v) <> None.
Proof.
  unfold invalidated. intros Hv.
  destruct (pair_of v) as [[[value|] b]|] eqn:Hp; try (rewrite Hp; exact Hv).
  destruct (stale v); [discriminate|rewrite Hp; exact Hv].
Qed.

(** X11.  For a translation file that parses to an object whose first key
    is a language key (it starts with l_) holding an object of entries that
    can each be destructured as a pair: the call returns the number of
    entries whose value and hash are both truthy; when there is none it
    writes nothing; otherwise it writes the file once, with the same keys
    in the same order at both levels, where each of those entries has become
    [value, null] and every other entry, and every other key of the file,
    is as it was. *)
Theorem migrate_invalidates_translated (props section : list (str * json))
    (lang : str) :
  first_name (JObj props) = Some (Some lang) ->
  startsWith (lit "l_") lang = true ->
  assoc lang props = Some (JObj section) ->
  NoDup (map fst props) -> NoDup (map fst section) ->
  Forall (fun p => pair_of (snd p) <> None) section ->
  let out := migrateTranslationFile (Content (Some (JObj props))) in
  let section' := invalidated_section section in
  invalidatedCount out = length (filter (fun p => stale (snd p)) section) /\
  (invalidatedCount out = 0 -> written out = None /\ logged out = DebugUnchanged) /\
  (0 < invalidatedCount out ->
     written out
     = Some (JObj (map (fun p => if str_eqb (fst p) lang
                                 then (lang, JObj section') else p) props)) /\
     logged out = DebugUpdated) /\
  map fst section' = map fst section /\
  (forall k v, In (k, v) section ->
     exists v', In (k, v') section' /\
       if stale v
       then exists value hash,
              pair_of v = Some (Some value, hash) /\ v' = JArr [value; JNull]
       else v' = v).
Proof.
  intros Hfirst Hl Hsec Hprops Hnd Hiter out section'.
  unfold out. rewrite (migrate_object _ Hfirst Hl Hsec Hnd Hiter).
  fold section'. split; [|split; [|split; [|split]]].
  - destruct (length _); reflexivity.
  - destruct (length _); [auto|discriminate].
  - destruct (length _) as [|n]; [cbn; lia|]. intros _. cbn [written logged].
    split; [|reflexivity]. rewrite set_prop_map by exact Hprops.
    do 2 f_equal. apply map_ext. intros p.
    destruct (str_eqb (fst p) lang) eqn:He; [|reflexivity].
    apply str_eqb_eq in He. rewrite He. reflexivity.
  - unfold section', invalidated_section. rewrite map_map. reflexivity.
  - intros k v Hin. exists (invalidated v). split.
    + unfold section', invalidated_section.
      change (k, invalidated v)
        with ((fun p : str * json => (fst p, invalidated (snd p))) (k, v)).
      apply in_map. exact Hin.
    + unfold invalidated. destruct (stale v) eqn:Hs.
      * unfold stale in Hs. destruct (pair_of v) as [[a b]|]; [|discriminate].
        destruct (@translated_value a b Hs) as (value & ->). eauto.
      * destruct (pair_of v) as [[[value|] b]|]; reflexivity.
Qed.

(** Witness for X11: the example file, in which one entry is translated. *)
Lemma migrate_invalidates_translated_witness :
  let out := migrateTranslationFile (Content (Some example_file)) in
  let section' := invalidated_section example_section in
  invalidatedCount out = length (filter (fun p => stale (snd p)) example_section) /\
  (invalidatedCount out = 0 -> written out = None /\ logged out = DebugUnchanged) /\
  (0 < invalidatedCount out ->
     written out
     = Some (JObj (map (fun p => if str_eqb (fst p) (lit "l_korean")
                                 then (lit "l_korean", JObj section') else p)
                       [(lit "l_korean", JObj example_section)])) /\
     logged out = DebugUpdated) /\
  map fst section' = map fst example_section /\
  (forall k v, In (k, v) example_section ->
     exists v', In (k, v') section' /\
       if stale v
       then exists value hash,
              pair_of v = Some (Some value, hash) /\ v' = JArr [value; JNull]
       else v' = v).
Proof.
  apply (@migrate_invalidates_translated
           [(lit "l_korean", JObj example_section)] example_section
           (lit "l_korean")).
  - reflexivity.
  - reflexivity.
  - reflexivity.
  - repeat constructor. intros [].
  - repeat constructor; cbn; intuition discriminate.
  - repeat constructor; discriminate.
Defined.

Lemma assoc_set_prop (name : str) (v x : json) (props : list (str * json)) :
  assoc name props = Some x -> assoc name (set_prop name v props) = Some v.
Proof.
  induction props as [|[n y] props IH]; [discriminate|].
  cbn [assoc set_prop]. destruct (str_eqb n name) eqn:He; cbn [assoc];
    rewrite He; [reflexivity|exact IH].
Qed.

Lemma first_name_set_prop (name : str) (v : json) (props : list (str * json)) :
  NoDup (map fst props) ->
  first_name (JObj (set_prop name v props)) = first_name (JObj props).
Proof.
  intros Hnd. rewrite set_prop_map by exact Hnd.
  unfold first_name, entries_of.
  rewrite (map_ext (fun p : str * json => if str_eqb (fst p) name then (fst p, v) else p)
                   (fun p => (fst p, if str_eqb (fst p) name then v else snd p))).
  - rewrite (entries_map_values
               (fun p => if str_eqb (fst p) name then v else snd p) props).
    destruct (entries props) as [|p r]; reflexivity.
  - intros [n x]. cbn [fst snd]. destruct (str_eqb n name); reflexivity.
Qed.

(** X12.  Migrating is idempotent on the value written: for a translation
    file that parses to an object whose first key is a language key holding
    an object of entries that can each be destructured as a pair, a second
    call on the value that the first call wrote finds nothing to invalidate;
    it returns 0 and writes nothing. *)
Theorem migrate_twice_changes_nothing (props section : list (str * json))
    (lang : str) (y : json) :
  first_name (JObj props) = Some (Some lang) ->
  startsWith (lit "l_") lang = true ->
  assoc lang props = Some (JObj section) ->
  NoDup (map fst props) -> NoDup (map fst section) ->
  Forall (fun p => pair_of (snd p) <> None) section ->
  written (migrateTranslationFile (Content (Some (JObj props)))) = Some y ->
  migrateTranslationFile (Content (Some y)) = mkOutcome 0 None DebugUnchanged.
Proof.
  intros Hfirst Hl Hsec Hprops Hnd Hiter.
  rewrite (migrate_object _ Hfirst Hl Hsec Hnd Hiter).
  destruct (length _) as [|n]; [discriminate|]. cbn [written].
  intros Hy. inversion Hy; subst y; clear Hy.
  rewrite (@migrate_object _ (invalidated_section section) lang).
  - rewrite filter_none; [reflexivity|].
    intros p Hp. unfold invalidated_section in Hp. apply in_map_iff in Hp.
    destruct Hp as (q & <- & _). apply stale_invalidated.
  - rewrite first_name_set_prop by exact Hprops. exact Hfirst.
  - exact Hl.
  - eapply assoc_set_prop. exact Hsec.
  - unfold invalidated_section. rewrite map_map. exact Hnd.
  - unfold invalidated_section. apply Forall_map.
    eapply Forall_impl; [|exact Hiter]. intros p Hp. cbn [snd].
    apply pair_of_invalidated. exact Hp.
Qed.

(** Witness for X12: the example file. *)
Lemma migrate_twice_changes_nothing_witness :
  migrateTranslationFile
    (Content (Some (JObj [(lit "l_korean",
                           JObj (invalidated_section example_section))])))
  = mkOutcome 0 None DebugUnchanged.
Proof.
  apply (@migrate_twice_changes_nothing
           [(lit "l_korean", JObj example_section)] example_section
           (lit "l_korean")).
  - reflexivity.
  - reflexivity.
  - reflexivity.
  - repeat constructor. intros [].
  - repeat constructor; cbn; intuition discriminate.
  - repeat constructor; discriminate.
  - reflexivity.
Defined.

Lemma invalidate_throws (es : list (pkey * json)) :
  (exists p, In p es /\ pair_of (snd p) = None) ->
  forall section n, invalidate es section n = None.
Proof.
  induction es as [|[k v] es IH]; intros (p & Hin & Hp) section n;
    [destruct Hin|].
  cbn [invalidate]. destruct Hin as [<-|Hin].
  - cbn [snd] in Hp. rewrite Hp. reflexivity.
  - destruct (pair_of v) as [[a b]|]; [|reflexivity].
    assert (Hex : exists q, In q es /\ pair_of (snd q) = None) by eauto.
    destruct (translated a b); [destruct a|]; apply IH; exact Hex.
Qed.

(** X13.  The call writes only when it succeeds.  Whatever the file is,
    nothing is written exactly when 0 is returned; a write only happens for
    a file that parses to an object, under its first key, a language key,
    and keeps the keys of the file in their order.  And a language section
    with an entry that cannot be destructured as a pair makes the call fail:
    it logs the error, returns 0 and writes nothing, even if entries before
    that one were to be invalidated. *)
Theorem migrate_writes_only_on_success (f : target_file) :
  (written (migrateTranslationFile f) = None <->
   invalidatedCount (migrateTranslationFile f) = 0) /\
  (forall y, written (migrateTranslationFile f) = Some y ->
     logged (migrateTranslationFile f) = DebugUpdated /\
     exists props lang section',
       f = Content (Some (JObj props)) /\
       first_name (JObj props) = Some (Some lang) /\
       startsWith (lit "l_") lang = true /\
       y = JObj (set_prop lang section' props) /\
       map fst (set_prop lang section' props) = map fst props) /\
  (forall props lang section k v,
     f = Content (Some (JObj props)) ->
     first_name (JObj props) = Some (Some lang) ->
     startsWith (lit "l_") lang = true ->
     assoc lang props = Some (JObj section) ->
     In (k, v) section -> pair_of v = None ->
     migrateTranslationFile f = mkOutcome 0 None ErrorFailed).
Proof.
  split; [|split].
  - unfold migrateTranslationFile.
    destruct f as [| |[targetYaml|]]; try (split; reflexivity).
    destruct (first_name targetYaml) as [[lang|]|]; try (split; reflexivity).
    destruct (negb _); [split; reflexivity|].
    destruct (get targetYaml lang) as [section|]; [|split; reflexivity].
    destruct (entries_of section) as [es|]; [|split; reflexivity].
    destruct (invalidate es section 0) as [[section' [|n]]|];
      try (split; reflexivity).
    split; discriminate.
  - intros y. unfold migrateTranslationFile.
    destruct f as [| |[targetYaml|]]; try discriminate.
    destruct (first_name targetYaml) as [[lang|]|] eqn:Hfirst; try discriminate.
    destruct (startsWith (lit "l_") lang) eqn:Hl; cbn [negb]; [|discriminate].
    destruct (get targetYaml lang) as [section|]; [|discriminate].
    destruct (entries_of section) as [es|]; [|discriminate].
    destruct (invalidate es section 0) as [[section' [|n]]|]; try discriminate.
    cbn [written logged]. intros Hy. inversion Hy; subst y; clear Hy.
    split; [reflexivity|].
    destruct targetYaml as [| b | z t | s | l | props];
      try discriminate.
    + unfold first_name, entries_of in Hfirst.
      destruct s as [|c s]; discriminate.
    + unfold first_name, entries_of in Hfirst.
      destruct l as [|x l]; discriminate.
    + exists props, lang, section'. cbn [set_entry].
      repeat (split; [reflexivity || assumption|]). apply set_prop_keys.
  - intros props lang section k v -> Hfirst Hl Hsec Hin Hv.
    unfold migrateTranslationFile. rewrite Hfirst, Hl. cbn [negb get].
    rewrite Hsec. cbn [entries_of]. rewrite invalidate_throws; [reflexivity|].
    exists (Name k, v). split; [|exact Hv].
    change (Name k, v) with ((fun p : str * json => (Name (fst p), snd p)) (k, v)).
    apply in_map. apply (Permutation_in _ (Permutation_sym (entries_perm section))).
    exact Hin.
Qed.

(** *** The name of the translation file *)

Lemma startsWith_longer (p u w : str) :
  length p <= length u -> startsWith p (u ++ w) = startsWith p u.
Proof.
  revert u. induction p as [|c p IH]; intros u Hlen; [destruct u; reflexivity|].
  destruct u as [|d u]; [cbn in Hlen; lia|]. cbn [app startsWith].
  rewrite IH; [reflexivity|]. cbn in Hlen. lia.
Qed.

Lemma replace_string_first (p r a b : str) :
  p <> [] ->
  includes p (a ++ removelast p) = false ->
  replace_string p r (a ++ p ++ b) = a ++ r ++ b.
Proof.
  intros Hp. induction a as [|c a IH]; intros Hno.
  - cbn [app]. destruct (p ++ b) as [|x s] eqn:Hs.
    + destruct p; [contradiction|discriminate].
    + rewrite <- Hs. cbn [replace_string].
      assert (Hst : startsWith p (p ++ b) = true) by apply startsWith_self_app.
      destruct (p ++ b) as [|y t] eqn:Hs'; [discriminate|].
      cbn [replace_string]. rewrite Hst. rewrite <- Hs'.
      rewrite skipn_length_app. reflexivity.
  - cbn [app includes] in Hno. apply orb_false_iff in Hno.
    destruct Hno as [Hst Hno].
    cbn [app replace_string].
    pose proof (app_removelast_last c Hp) as Hpl.
    assert (Hlen : length p = length (removelast p) + 1).
    { rewrite Hpl at 1. rewrite length_app. reflexivity. }
    assert (E : c :: a ++ p ++ b = (c :: a ++ removelast p) ++ (last p c :: b)).
    { transitivity (c :: a ++ (removelast p ++ [last p c]) ++ b);
        [rewrite <- Hpl; reflexivity|].
      cbn [app]. rewrite <- !app_assoc. reflexivity. }
    assert (Hst' : startsWith p (c :: a ++ p ++ b) = false).
    { rewrite E, startsWith_longer; [exact Hst|].
      cbn [length]. rewrite length_app. lia. }
    rewrite Hst'. f_equal. apply IH. exact Hno.
Qed.

(** X14.  The name of the translation file: for a source file whose base
    name is a stem followed by the language suffix _l_<language>.yml, in
    which the suffix occurs nowhere before, the translation file is named
    ___<stem>_l_korean.yml.  The first occurrence of the suffix is the one
    replaced: what follows it in the base name is kept as it is. *)
Theorem targetFileName_replaces_first_suffix (sourceLanguage stem rest : str) :
  includes (source_suffix sourceLanguage)
           (stem ++ removelast (source_suffix sourceLanguage)) = false ->
  targetFileName sourceLanguage (stem ++ source_suffix sourceLanguage ++ rest)
  = lit "___" ++ stem ++ lit "_l_korean.yml" ++ rest.
Proof.
  intros Hno. unfold targetFileName. f_equal.
  apply replace_string_first; [|exact Hno].
  unfold source_suffix. discriminate.
Qed.

(** Witness for X14: cultures_l_english.yml *)
Lemma targetFileName_replaces_first_suffix_witness :
  targetFileName (lit "english")
    (lit "test_cultures" ++ source_suffix (lit "english") ++ [])
  = lit "___" ++ lit "test_cultures" ++ lit "_l_korean.yml" ++ [].
Proof.
  apply (@targetFileName_replaces_first_suffix (lit "english")
           (lit "test_cultures") []).
  vm_compute. reflexivity.
Defined.

End MigratorFacts.

(* ================================================================== *)
(** ** Properties of the dictionary reader and writer *)

Module SorterFacts.
Import Js Re Issues Sorter ReFacts IssuesFacts.

(** *** The equations of the matcher *)

Lemma m_Eps (fuel : nat) s c k : m fuel Eps s c k = k s c.
Proof. destruct fuel; reflexivity. Qed.

Lemma m_Chr (fuel : nat) cls s c k :
  m fuel (Chr cls) s c k
  = match s with
    | x :: s' => if cls x then k s' c else None
    | [] => None
    end.
Proof. destruct fuel; reflexivity. Qed.

Lemma m_Cat (fuel : nat) a b s c k :
  m fuel (Cat a b) s c k = m fuel a s c (fun s' c' => m fuel b s' c' k).
Proof. destruct fuel; reflexivity. Qed.

Lemma m_Alt (fuel : nat) a b s c k :
  m fuel (Alt a b) s c k
  = match m fuel a s c k with
    | Some res => Some res
    | None => m fuel b s c k
    end.
Proof. destruct fuel; reflexivity. Qed.

Lemma m_Rep (fuel : nat) a s c k :
  m (S fuel) (Rep a) s c k
  = match m (S fuel) a s c
            (fun s' c' =>
               if length s' <? length s then m fuel (Rep a) s' c' k else None) with
    | Some res => Some res
    | None => k s c
    end.
Proof. reflexivity. Qed.

Lemma m_Group (fuel : nat) n a s c k :
  m fuel (Group n a) s c k
  = m fuel a s c (fun s' c' => k s' ((n, firstn (length s - length s') s) :: c')).
Proof. destruct fuel; reflexivity. Qed.

Lemma m_Eos (fuel : nat) s c k :
  m fuel Eos s c k = match s with [] => k [] c | _ :: _ => None end.
Proof. destruct fuel; reflexivity. Qed.

(** A match ends by calling the rest of the expression on a suffix of the
    text. *)
Lemma m_calls (fuel : nat) :
  forall r s c k res,
    m fuel r s c k = Some res ->
    exists pre s' c', s = pre ++ s' /\ k s' c' = Some res.
Proof.
  induction fuel as [|fuel IHf]; induction r as [|cls|a IHa b IHb|a IHa b IHb|a IHa|n a IHa|];
    intros s c k res H;
    try (rewrite m_Eps in H; exists [], s, c; auto; fail);
    try (rewrite m_Chr in H; destruct s as [|x s']; [discriminate|];
         destruct (cls x); [|discriminate]; exists [x], s', c; auto; fail);
    try (rewrite m_Cat in H; apply IHa in H; destruct H as (p1 & s1 & c1 & -> & H);
         apply IHb in H; destruct H as (p2 & s2 & c2 & -> & H);
         exists (p1 ++ p2), s2, c2; rewrite <- app_assoc; auto; fail);
    try (rewrite m_Alt in H; destruct (m _ a s c k) eqn:E;
         [inversion H; subst; apply IHa in E; exact E|apply IHb in H; exact H]; fail);
    try (rewrite m_Group in H; apply IHa in H;
         destruct H as (p1 & s1 & c1 & -> & H); eauto; fail);
    try (rewrite m_Eos in H; destruct s; [|discriminate]; exists [], [], c; auto; fail).
  - discriminate.
  - rewrite m_Rep in H.
    destruct (m (S fuel) a s c _) eqn:E.
    + inversion H; subst. apply IHa in E. destruct E as (p1 & s1 & c1 & -> & E).
      destruct (length s1 <? length (p1 ++ s1)); [|discriminate].
      apply IHf in E. destruct E as (p2 & s2 & c2 & -> & E).
      exists (p1 ++ p2), s2, c2. rewrite <- app_assoc. auto.
    + exists [], s, c. auto.
Qed.

(** [x*] for a class: the longest run is taken when the rest of the
    expression matches after it. *)
Lemma rep_class_run (cls : char -> bool) (rest : str) k res :
  match rest with [] => True | x :: _ => cls x = false end ->
  forall seg fuel c,
    forallb cls seg = true -> length seg < fuel ->
    k rest c = Some res ->
    m fuel (Rep (Chr cls)) (seg ++ rest) c k = Some res.
Proof.
  intros Hrest. induction seg as [|x seg IH]; intros fuel c Hrun Hfuel Hk;
    (destruct fuel as [|fuel]; [cbn in Hfuel; lia|]); rewrite m_Rep, m_Chr.
  - cbn [app]. destruct rest as [|y rest']; [exact Hk|].
    rewrite Hrest. exact Hk.
  - cbn [forallb] in Hrun. apply andb_true_iff in Hrun. destruct Hrun as [Hx Hrun].
    cbn [app]. rewrite Hx.
    assert (Hlt : (length (seg ++ rest) <? length (x :: seg ++ rest)) = true)
      by (apply Nat.ltb_lt; cbn; lia).
    rewrite Hlt. rewrite IH; [reflexivity|exact Hrun|cbn in Hfuel; lia|exact Hk].
Qed.

(** The inside of a quoted string is read in one way only. *)
Lemma rep_token (rest : str) (k : str -> caps -> option caps) :
  forall fuel inside c,
    inside_quotes inside = true -> length inside < fuel ->
    (forall x s c', x <> DQUOTE -> k (x :: s) c' = None) ->
    m fuel (Rep TOKEN) (inside ++ DQUOTE :: rest) c k = k (DQUOTE :: rest) c.
Proof.
  induction fuel as [|fuel IH]; intros inside c Hin Hfuel Hk; [lia|].
  rewrite m_Rep. unfold TOKEN at 1. rewrite m_Alt, m_Chr, m_Cat, m_Chr.
  destruct inside as [|x inside]; cbn [app].
  - cbn. destruct (k (DQUOTE :: rest) c); reflexivity.
  - cbn [inside_quotes] in Hin.
    destruct (char_eqb x DQUOTE) eqn:Hq; [discriminate|].
    destruct (char_eqb x BACKSLASH) eqn:Hb; cbn [orb negb].
    + assert (Hx : only BACKSLASH x = true).
      { unfold only, char_eqb in *. rewrite N.eqb_sym. exact Hb. }
      rewrite Hx. destruct inside as [|d inside]; [discriminate|].
      apply andb_true_iff in Hin. destruct Hin as [Hd Hin].
      cbn [app]. rewrite m_Chr, Hd.
      assert (Hlt : (length (inside ++ DQUOTE :: rest)
                     <? length (x :: d :: inside ++ DQUOTE :: rest)) = true)
        by (apply Nat.ltb_lt; cbn; lia).
      rewrite Hlt, IH; [|exact Hin|cbn in Hfuel; lia|exact Hk].
      destruct (k (DQUOTE :: rest) c); [reflexivity|].
      apply Hk. intros ->. discriminate.
    + assert (Hlt : (length (inside ++ DQUOTE :: rest)
                     <? length (x :: inside ++ DQUOTE :: rest)) = true)
        by (apply Nat.ltb_lt; cbn; lia).
      rewrite Hlt, IH; [|exact Hin|cbn in Hfuel; lia|exact Hk].
      destruct (k (DQUOTE :: rest) c); [reflexivity|].
      assert (Hx : only BACKSLASH x = false).
      { unfold only, char_eqb in *. rewrite N.eqb_sym. exact Hb. }
      rewrite Hx. apply Hk. intros ->. discriminate.
Qed.

(** A quoted string is matched as a whole, or not at all. *)
Lemma quoted_whole (fuel : nat) (inside rest : str) c k :
  inside_quotes inside = true -> length inside < fuel ->
  m fuel quoted (DQUOTE :: inside ++ DQUOTE :: rest) c k = k rest c.
Proof.
  intros Hin Hfuel. unfold quoted. rewrite m_Cat, m_Chr.
  change (only DQUOTE DQUOTE) with true. cbv iota. rewrite m_Cat.
  rewrite rep_token; [|exact Hin|exact Hfuel|].
  - rewrite m_Chr. reflexivity.
  - intros x s c' Hx. rewrite m_Chr.
    assert (H : only DQUOTE x = false).
    { unfold only, char_eqb. apply N.eqb_neq. congruence. }
    rewrite H. reflexivity.
Qed.

Lemma quoted_not (fuel : nat) (x : char) (s : str) c k :
  x <> DQUOTE -> m fuel quoted (x :: s) c k = None.
Proof.
  intros Hx. unfold quoted. rewrite m_Cat, m_Chr.
  assert (H : only DQUOTE x = false).
  { unfold only, char_eqb. apply N.eqb_neq. congruence. }
  rewrite H. reflexivity.
Qed.

(** *** White space at the ends *)

Lemma trim_start_tight (c : char) (s : str) :
  is_space c = false -> trim_start (c :: s) = c :: s.
Proof. intros H. cbn [trim_start]. rewrite H. reflexivity. Qed.

Lemma tight_rev (s : str) : tight s -> tight (rev s).
Proof.
  intros (c & r & -> & Hc & Hl).
  destruct (rev (c :: r)) as [|d u] eqn:Hrev.
  - apply (f_equal (@length _)) in Hrev. rewrite length_rev in Hrev. discriminate.
  - exists d, u. split; [reflexivity|].
    assert (Hd : d = last (c :: r) c).
    { rewrite <- (rev_involutive (c :: r)), Hrev. cbn [rev].
      rewrite last_last. reflexivity. }
    split; [rewrite Hd; exact Hl|].
    assert (Hlast : last (d :: u) d = c).
    { rewrite <- Hrev. cbn [rev]. rewrite last_last. reflexivity. }
    rewrite Hlast. exact Hc.
Qed.

Lemma trim_tight (s : str) : tight s -> trim s = s.
Proof.
  intros Hs. unfold trim. destruct Hs as (c & r & -> & Hc & Hl).
  rewrite trim_start_tight by exact Hc.
  destruct (@tight_rev (c :: r)) as (d & u & Hrev & Hd & _).
  { exists c, r. auto. }
  rewrite Hrev, trim_start_tight by exact Hd.
  rewrite <- Hrev. apply rev_involutive.
Qed.

Lemma trim_tight_space (s : str) : tight s -> trim (s ++ [SPACE]) = s.
Proof.
  intros Hs. unfold trim. pose proof Hs as (c & r & -> & Hc & Hl).
  cbn [app]. rewrite trim_start_tight by exact Hc.
  change (c :: r ++ [SPACE]) with ((c :: r) ++ [SPACE]).
  rewrite rev_app_distr. cbn [rev app]. cbn [trim_start].
  change (is_space SPACE) with true. cbv iota.
  destruct (@tight_rev (c :: r) Hs) as (d & u & Hrev & Hd & _).
  cbn [rev] in Hrev. rewrite Hrev, trim_start_tight by exact Hd.
  rewrite <- Hrev. change (rev r ++ [c]) with (rev (c :: r)).
  apply rev_involutive.
Qed.

(** *** The line of an entry, read back *)

Lemma plus_class_run (cls : char -> bool) (x : char) (seg rest : str) k res
    (fuel : nat) c :
  cls x = true -> forallb cls seg = true ->
  match rest with [] => True | y :: _ => cls y = false end ->
  length seg < fuel ->
  k rest c = Some res ->
  m fuel (Plus (Chr cls)) (x :: seg ++ rest) c k = Some res.
Proof.
  intros Hx Hseg Hrest Hfuel Hk. unfold Plus. rewrite m_Cat, m_Chr, Hx.
  apply rep_class_run; assumption.
Qed.

Lemma tail_none (fuel : nat) (c : caps) :
  m fuel (Cat COMMENT_GROUP Eos) [] c matched = Some c.
Proof.
  unfold COMMENT_GROUP, Opt. rewrite m_Cat, m_Alt, m_Group, m_Cat, m_Chr.
  rewrite m_Eps, m_Eos. reflexivity.
Qed.

Lemma tail_space (fuel : nat) (t : str) (c : caps) :
  m fuel (Cat COMMENT_GROUP Eos) (SPACE :: t) c matched = None.
Proof.
  unfold COMMENT_GROUP, Opt. rewrite m_Cat, m_Alt, m_Group, m_Cat, m_Chr.
  change (only HASH SPACE) with false. cbv iota.
  rewrite m_Eps, m_Eos. reflexivity.
Qed.

Lemma tail_comment (fuel : nat) (text : str) (c : caps) :
  forallb dot text = true -> length text < fuel ->
  m fuel (Cat COMMENT_GROUP Eos) (HASH :: text) c matched
  = Some ((3, HASH :: text) :: c).
Proof.
  intros Hdot Hfuel.
  unfold COMMENT_GROUP, Opt. rewrite m_Cat, m_Alt, m_Group, m_Cat, m_Chr.
  change (only HASH HASH) with true. cbv iota.
  rewrite <- (app_nil_r text) at 1.
  rewrite (@rep_class_run dot [] _ ((3, HASH :: text) :: c) I text fuel c Hdot Hfuel);
    [reflexivity|].
  rewrite m_Eos. cbn [length]. rewrite Nat.sub_0_r.
  change (S (length text)) with (length (HASH :: text)).
  rewrite firstn_all. reflexivity.
Qed.

Lemma quoted_tight (s : str) : is_quoted s -> tight s.
Proof.
  intros (inside & -> & _). exists DQUOTE, (inside ++ [DQUOTE]).
  split; [reflexivity|]. split; [reflexivity|].
  change (DQUOTE :: inside ++ [DQUOTE]) with ((DQUOTE :: inside) ++ [DQUOTE]).
  rewrite last_last. reflexivity.
Qed.

Lemma forallb_except (stop : char) (s : str) :
  ~ In stop s -> forallb (except stop) s = true.
Proof.
  intros H. apply forallb_forall. intros x Hx. apply except_true.
  intros ->. contradiction.
Qed.

(** The value and the comment, read after the second run of white space. *)
Lemma value_part (v : str) (comment : option str) (fuel : nat) (c : caps) :
  is_quoted v \/ bare HASH v ->
  plain_comment v comment ->
  length (v ++ comment_tail comment) < fuel ->
  exists g2,
    trim g2 = v /\
    m fuel (Cat VALUE_GROUP (Cat COMMENT_GROUP Eos)) (v ++ comment_tail comment)
      c matched
    = Some (match comment with Some cm => [(3, cm)] | None => [] end
            ++ (2, g2) :: c).
Proof.
  intros Hv Hc Hfuel.
  assert (Htight : tight v).
  { destruct Hv as [Hq|Hb]; [apply quoted_tight; exact Hq|apply Hb]. }
  rewrite m_Cat. unfold VALUE_GROUP. rewrite m_Group, m_Alt.
  destruct comment as [cm|]; cbn [plain_comment] in Hc.
  - destruct Hc as (Hno & text & -> & Hdot & Hlast).
    cbn [comment_tail] in *. exists (v ++ [SPACE]).
    split; [apply trim_tight_space; exact Htight|].
    assert (Hfirst : m fuel quoted (v ++ SPACE :: HASH :: text) c
                       (fun s' c' =>
                          m fuel (Cat COMMENT_GROUP Eos) s'
                            ((2, firstn (length (v ++ SPACE :: HASH :: text) - length s')
                                        (v ++ SPACE :: HASH :: text)) :: c') matched)
                     = None).
    { destruct Hv as [(inside & -> & Hin)|(_ & _ & _ & Hhead)].
      - cbn [app]. rewrite <- app_assoc. cbn [app].
        rewrite quoted_whole; [apply tail_space|exact Hin|].
        rewrite !length_app in Hfuel. cbn in Hfuel. rewrite length_app in Hfuel. lia.
      - destruct v as [|x r]; [destruct Hhead|]. cbn [app].
        apply quoted_not. apply Hhead. }
    rewrite Hfirst.
    destruct Htight as (x & r & -> & Hx & _). cbn [app].
    change (x :: r ++ SPACE :: HASH :: text)
      with (x :: r ++ [SPACE] ++ HASH :: text).
    rewrite app_assoc.
    erewrite plus_class_run; [reflexivity| | | | |].
    + apply except_true. intros ->. apply Hno. left. reflexivity.
    + rewrite forallb_app. apply andb_true_iff. split; [|reflexivity].
      apply forallb_except. intros H. apply Hno. right. exact H.
    + unfold except, char_eqb. rewrite N.eqb_refl. reflexivity.
    + rewrite !length_app in *. cbn in *. lia.
    + rewrite tail_comment; [|exact Hdot|rewrite !length_app in *; cbn in *; lia].
      cbn [app]. do 3 f_equal.
      replace (length (x :: (r ++ [SPACE]) ++ HASH :: text) - length (HASH :: text))
        with (length (x :: r ++ [SPACE]) + 0)
        by (cbn; rewrite !length_app; cbn; lia).
      change (x :: (r ++ [SPACE]) ++ HASH :: text)
        with ((x :: r ++ [SPACE]) ++ HASH :: text).
      rewrite firstn_app_2. cbn [firstn]. rewrite app_nil_r. reflexivity.
  - cbn [comment_tail app] in *. rewrite app_nil_r in Hfuel. exists v.
    rewrite !app_nil_r.
    split; [apply trim_tight; exact Htight|].
    destruct Hv as [(inside & -> & Hin)|(_ & Hno & _ & Hhead)].
    + change (DQUOTE :: inside ++ [DQUOTE]) with (DQUOTE :: inside ++ DQUOTE :: []).
      rewrite quoted_whole; [|exact Hin|cbn in Hfuel; rewrite length_app in Hfuel; lia].
      rewrite tail_none. cbn [length]. rewrite Nat.sub_0_r.
      change (S (length (inside ++ [DQUOTE])))
        with (length (DQUOTE :: inside ++ [DQUOTE])).
      rewrite firstn_all. reflexivity.
    + destruct v as [|x r]; [destruct Hhead|].
      rewrite quoted_not by apply Hhead.
      rewrite <- (app_nil_r r) at 1.
      erewrite plus_class_run; [reflexivity| | | | |].
      * apply except_true. intros ->. apply Hno. left. reflexivity.
      * apply forallb_except. intros H. apply Hno. right. exact H.
      * exact I.
      * cbn in Hfuel. lia.
      * rewrite tail_none. cbn [length app]. rewrite Nat.sub_0_r.
        change (S (length r)) with (length (x :: r)).
        rewrite firstn_all. reflexivity.
Qed.

Lemma after_key (w s2 : str) (R : rx) (fuel : nat) (c : caps) res :
  forallb is_space w = true -> S (length w) < fuel ->
  match s2 with [] => True | y :: _ => is_space y = false end ->
  m fuel R s2 c matched = Some res ->
  m fuel (Cat SPACES (Cat (Chr (only EQUALS)) (Cat SPACES R)))
    (w ++ EQUALS :: SPACE :: s2) c matched = Some res.
Proof.
  intros Hw Hfuel Hs2 HR. rewrite m_Cat. unfold SPACES at 1.
  apply rep_class_run; [reflexivity|exact Hw|lia|].
  rewrite m_Cat, m_Chr. change (only EQUALS EQUALS) with true. cbv iota.
  rewrite m_Cat. unfold SPACES.
  apply (@rep_class_run is_space s2 _ res Hs2 [SPACE] fuel c);
    [reflexivity|cbn in *; lia|exact HR].
Qed.

(** The key, the white space and the equals sign, read before the value. *)
Lemma key_part (key s2 : str) (R : rx) (fuel : nat) :
  is_quoted key \/ bare EQUALS key ->
  match s2 with [] => True | y :: _ => is_space y = false end ->
  length (key ++ [SPACE; EQUALS; SPACE] ++ s2) < fuel ->
  exists g1,
    trim g1 = key /\
    forall res,
      m fuel R s2 [(1, g1)] matched = Some res ->
      m fuel (Cat KEY_GROUP (Cat SPACES (Cat (Chr (only EQUALS)) (Cat SPACES R))))
        (key ++ [SPACE; EQUALS; SPACE] ++ s2) [] matched = Some res.
Proof.
  intros Hkey Hs2 Hfuel.
  destruct Hkey as [(inside & -> & Hin)|(Htight & Hno & _ & Hhead)].
  - exists (DQUOTE :: inside ++ [DQUOTE]).
    split; [apply trim_tight, quoted_tight; exists inside; auto|].
    intros res HR. rewrite m_Cat. unfold KEY_GROUP. rewrite m_Group, m_Alt.
    cbn [app]. rewrite <- app_assoc. cbn [app].
    rewrite quoted_whole;
      [|exact Hin|cbn in Hfuel; rewrite !length_app in Hfuel; lia].
    assert (Hcap : firstn (length (DQUOTE :: inside ++ DQUOTE :: SPACE :: EQUALS :: SPACE :: s2)
                           - length (SPACE :: EQUALS :: SPACE :: s2))
                     (DQUOTE :: inside ++ DQUOTE :: SPACE :: EQUALS :: SPACE :: s2)
                   = DQUOTE :: inside ++ [DQUOTE]).
    { replace (length (DQUOTE :: inside ++ DQUOTE :: SPACE :: EQUALS :: SPACE :: s2)
               - length (SPACE :: EQUALS :: SPACE :: s2))
        with (length (DQUOTE :: inside ++ [DQUOTE]) + 0)
        by (cbn; rewrite !length_app; cbn; lia).
      change (DQUOTE :: inside ++ DQUOTE :: SPACE :: EQUALS :: SPACE :: s2)
        with ((DQUOTE :: inside) ++ [DQUOTE] ++ SPACE :: EQUALS :: SPACE :: s2).
      rewrite app_assoc. rewrite firstn_app_2. cbn [firstn].
      rewrite app_nil_r. reflexivity. }
    rewrite Hcap.
    rewrite (@after_key [SPACE] s2 R fuel _ res eq_refl); [reflexivity| |exact Hs2|exact HR].
    cbn [app length] in *. rewrite !length_app in Hfuel. cbn [length] in Hfuel. lia.
  - exists (key ++ [SPACE]). split; [apply trim_tight_space; exact Htight|].
    intros res HR. rewrite m_Cat. unfold KEY_GROUP. rewrite m_Group, m_Alt.
    destruct key as [|x r]; [destruct Hhead|]. cbn [app].
    rewrite quoted_not by apply Hhead.
    change (x :: r ++ SPACE :: EQUALS :: SPACE :: s2)
      with (x :: r ++ [SPACE] ++ EQUALS :: SPACE :: s2).
    rewrite app_assoc.
    erewrite plus_class_run; [reflexivity| | | | |].
    + apply except_true. intros ->. apply Hno. left. reflexivity.
    + rewrite forallb_app. apply andb_true_iff. split; [|reflexivity].
      apply forallb_except. intros H. apply Hno. right. exact H.
    + unfold except, char_eqb. rewrite N.eqb_refl. reflexivity.
    + cbn in Hfuel. rewrite !length_app in *. cbn in *. lia.
    + assert (Hcap : firstn (length (x :: (r ++ [SPACE]) ++ EQUALS :: SPACE :: s2)
                             - length (EQUALS :: SPACE :: s2))
                       (x :: (r ++ [SPACE]) ++ EQUALS :: SPACE :: s2)
                     = (x :: r) ++ [SPACE]).
      { replace (length (x :: (r ++ [SPACE]) ++ EQUALS :: SPACE :: s2)
                 - length (EQUALS :: SPACE :: s2))
          with (length ((x :: r) ++ [SPACE]) + 0)
          by (cbn; rewrite !length_app; cbn; lia).
        change (x :: (r ++ [SPACE]) ++ EQUALS :: SPACE :: s2)
          with (((x :: r) ++ [SPACE]) ++ EQUALS :: SPACE :: s2).
        rewrite firstn_app_2. cbn [firstn]. rewrite app_nil_r. reflexivity. }
      rewrite Hcap.
      apply (@after_key [] s2 R fuel _ res eq_refl); [|exact Hs2|exact HR].
      cbn [app length] in *. rewrite !length_app in Hfuel. cbn [length] in Hfuel. lia.
Qed.

Lemma last_default (l : str) (x y : char) : l <> [] -> last l x = last l y.
Proof.
  induction l as [|a l IH]; intros Hl; [contradiction|].
  destruct l as [|b l]; [reflexivity|].
  change (last (b :: l) x = last (b :: l) y). apply IH. discriminate.
Qed.

Lemma last_app_right (p l : str) (x : char) : l <> [] -> last (p ++ l) x = last l x.
Proof.
  intros Hl. induction p as [|a p IH]; [reflexivity|]. cbn [app].
  destruct (p ++ l) as [|b t] eqn:E.
  - destruct p; [contradiction|discriminate].
  - change (last (b :: t) x = last l x). exact IH.
Qed.

Lemma tight_join (a mid b : str) : tight a -> tight b -> tight (a ++ mid ++ b).
Proof.
  intros (c & r & -> & Hc & _) (d & u & -> & _ & Hl).
  exists c, (r ++ mid ++ d :: u). split; [reflexivity|]. split; [exact Hc|].
  change (c :: r ++ mid ++ d :: u) with ((c :: r) ++ mid ++ d :: u).
  rewrite app_assoc, last_app_right by discriminate.
  rewrite (@last_default (d :: u) c d) by discriminate. exact Hl.
Qed.

Lemma entry_line_parts (e : DictionaryEntry) :
  entry_line e
  = key e ++ [SPACE; EQUALS; SPACE] ++ value e ++ comment_tail (inlineComment e).
Proof. reflexivity. Qed.

Lemma plain_comment_tight (v cm : str) :
  plain_comment v (Some cm) -> tight cm /\ ~ In NL cm /\ cm <> [].
Proof.
  intros (_ & text & -> & Hdot & Hlast). split; [|split].
  - exists HASH, text. auto.
  - intros [H|H]; [discriminate|].
    rewrite forallb_forall in Hdot. apply Hdot in H. discriminate.
  - discriminate.
Qed.

(** The line of a plain entry is read back as the entry. *)
Lemma match_entry_line (e : DictionaryEntry) :
  plain_entry e -> match_entry (entry_line e) = Some e.
Proof.
  intros (Hkey & Hval & _ & _ & Hcm).
  assert (Hvt : tight (value e)).
  { destruct Hval as [Hq|Hb]; [apply quoted_tight; exact Hq|apply Hb]. }
  unfold match_entry, match_start, entryRegex. rewrite entry_line_parts.
  set (fuel := S (length (key e ++ [SPACE; EQUALS; SPACE] ++ value e
                          ++ comment_tail (inlineComment e)))).
  destruct (@key_part (key e) (value e ++ comment_tail (inlineComment e))
              (Cat VALUE_GROUP (Cat COMMENT_GROUP Eos)) fuel Hkey)
    as (g1 & Hg1 & Hk).
  { destruct Hvt as (c & r & -> & Hc & _). exact Hc. }
  { unfold fuel. lia. }
  destruct (@value_part (value e) (inlineComment e) fuel [(1, g1)] Hval Hcm)
    as (g2 & Hg2 & Hv).
  { unfold fuel. rewrite !length_app. cbn [length]. lia. }
  rewrite (Hk _ Hv).
  destruct e as [k v [cm|]]; cbn [key value inlineComment] in *.
  - cbn [app group Nat.eqb option_map]. rewrite Hg1, Hg2.
    destruct (plain_comment_tight Hcm) as (Ht & _).
    rewrite (trim_tight Ht). reflexivity.
  - cbn [app group Nat.eqb option_map]. rewrite Hg1, Hg2. reflexivity.
Qed.

Lemma entry_line_tight (e : DictionaryEntry) :
  plain_entry e ->
  trim (entry_line e) = entry_line e /\
  ~ In NL (entry_line e) /\
  exists x r, entry_line e = x :: r /\ x <> HASH /\ is_space x = false.
Proof.
  intros (Hkey & Hval & Hk & Hv & Hcm).
  assert (Hkt : tight (key e)).
  { destruct Hkey as [Hq|Hb]; [apply quoted_tight; exact Hq|apply Hb]. }
  assert (Hvt : tight (value e)).
  { destruct Hval as [Hq|Hb]; [apply quoted_tight; exact Hq|apply Hb]. }
  rewrite entry_line_parts. split; [|split].
  - apply trim_tight. destruct (inlineComment e) as [cm|] eqn:Hi.
    + destruct (plain_comment_tight Hcm) as (Ht & _ & Hne).
      destruct cm as [|c r]; [contradiction|]. cbn [comment_tail].
      assert (E : key e ++ [SPACE; EQUALS; SPACE] ++ value e ++ SPACE :: c :: r
                  = key e ++ ([SPACE; EQUALS; SPACE] ++ value e ++ [SPACE]) ++ c :: r).
      { cbn [app]. rewrite <- app_assoc. reflexivity. }
      rewrite E. apply tight_join; assumption.
    + cbn [comment_tail]. rewrite app_nil_r. apply tight_join; assumption.
  - rewrite !in_app_iff. intros [H|[H|[H|H]]].
    + contradiction.
    + cbn in H. intuition discriminate.
    + contradiction.
    + destruct (inlineComment e) as [cm|]; [|destruct H].
      destruct (plain_comment_tight Hcm) as (_ & Hn & _).
      destruct cm as [|c r]; [destruct H|]. cbn [comment_tail] in H.
      destruct H as [H|H]; [discriminate|contradiction].
  - destruct Hkey as [(inside & Hq & _)|(Ht & _ & _ & Hhead)].
    + rewrite Hq. cbn [app]. eexists _, _. split; [reflexivity|].
      split; [discriminate|reflexivity].
    + destruct Ht as (c & r & Hcr & Hc & _). rewrite Hcr in *. cbn [app].
      eexists _, _. split; [reflexivity|]. split; [apply Hhead|exact Hc].
Qed.

(** *** Reading the lines of a block *)

Lemma parse_comment_lines (ls rest : list str) :
  Forall (fun line => comment_line line = true /\ ~ In NL line) ls ->
  forall blocks cs es,
    parse_lines (ls ++ rest) blocks (mkBlock cs es)
    = parse_lines rest blocks (mkBlock (cs ++ ls) es).
Proof.
  induction 1 as [|l ls [Hl _] _ IH]; intros blocks cs es.
  - rewrite app_nil_r. reflexivity.
  - cbn [app parse_lines comments entries]. unfold comment_line in Hl.
    destruct (trim l) as [|x t] eqn:Ht; [discriminate|].
    rewrite Hl, IH, <- app_assoc. reflexivity.
Qed.

Lemma parse_entry_lines (es' : list DictionaryEntry) (rest : list str) :
  Forall plain_entry es' ->
  forall blocks cs es,
    parse_lines (map entry_line es' ++ rest) blocks (mkBlock cs es)
    = parse_lines rest blocks (mkBlock cs (es ++ es')).
Proof.
  induction 1 as [|e es' He _ IH]; intros blocks cs es.
  - rewrite app_nil_r. reflexivity.
  - cbn [map app parse_lines comments entries].
    destruct (entry_line_tight He) as (Htrim & _ & x & r & Hx & Hhash & _).
    rewrite Htrim, (match_entry_line He). rewrite Hx.
    assert (Hs : startsWith [HASH] (x :: r) = false).
    { cbn [startsWith]. unfold char_eqb.
      destruct (N.eqb_spec HASH x) as [E|_]; [congruence|reflexivity]. }
    rewrite Hs, IH, <- app_assoc. reflexivity.
Qed.

Lemma parse_result_lines (blocks : list CommentBlock) :
  Forall plain_block blocks ->
  forall acc,
    parse_lines (result_lines blocks ++ [[]]) acc no_block = acc ++ blocks.
Proof.
  induction 1 as [|b r (Hs & Hc & He) _ IH]; intros acc.
  - cbn. rewrite app_nil_r. reflexivity.
  - cbn [result_lines]. rewrite <- !app_assoc.
    unfold no_block. rewrite (parse_comment_lines _ Hc).
    rewrite (parse_entry_lines _ He). cbn [app].
    assert (Hb : mkBlock (comments b) (entries b) = b) by (destruct b; reflexivity).
    rewrite Hb. destruct r as [|b' r'].
    + cbn [app parse_lines]. change (trim []) with (@nil char). cbv iota.
      rewrite Hs. cbn [parse_lines started comments entries no_block].
      reflexivity.
    + cbn [app parse_lines]. change (trim []) with (@nil char). cbv iota.
      rewrite Hs. rewrite IH, <- app_assoc. reflexivity.
Qed.

Lemma result_lines_no_break (blocks : list CommentBlock) :
  Forall plain_block blocks -> Forall (fun l => ~ In NL l) (result_lines blocks).
Proof.
  induction 1 as [|b r (Hs & Hc & He) _ IH]; [constructor|].
  cbn [result_lines]. apply Forall_app. split; [|apply Forall_app; split].
  - eapply Forall_impl; [|exact Hc]. intros l [_ Hl]. exact Hl.
  - apply Forall_map. eapply Forall_impl; [|exact He].
    intros e Hp. apply (entry_line_tight Hp).
  - destruct r; [constructor|]. constructor; [intros []|exact IH].
Qed.

(** X16.  What blocksToToml writes, parseTomlWithComments reads back: for
    blocks that are not empty, whose comments are lines that start with #
    after white space, and whose entries are plain (a key and a value that
    are each a string in quotes or a bare text without white space at its
    ends, without = in a bare key and # in a bare value; a comment that
    starts with # and does not end with white space, after a value without
    #), reading the text written for the blocks gives the blocks again. *)
Theorem read_back_what_is_written (blocks : list CommentBlock) :
  Forall plain_block blocks ->
  parseTomlWithComments (blocksToToml blocks) = blocks.
Proof.
  intros Hb. unfold parseTomlWithComments, blocksToToml.
  destruct blocks as [|b r]; [reflexivity|].
  assert (Hne : result_lines (b :: r) <> []).
  { inversion Hb as [|? ? (Hs & _ & _) _]; subst. cbn [result_lines].
    unfold started in Hs. destruct (comments b); [|discriminate].
    destruct (entries b); [discriminate|]. discriminate. }
  rewrite (join_nl_unlines Hne).
  rewrite (split_lines_unlines (result_lines_no_break Hb)).
  apply (parse_result_lines Hb []).
Qed.

Ltac not_there := cbn; intuition discriminate.
Ltac is_tight := eexists _, _; split; [reflexivity|split; reflexivity].
Ltac is_bare := split; [is_tight|split; [not_there|split; [not_there|cbn; split; discriminate]]].
Ltac in_quotes := eexists; split; [reflexivity|reflexivity].

(** Witness for X16: two blocks, with quoted and bare keys and values and
    a comment after a value. *)
Lemma read_back_what_is_written_witness :
  parseTomlWithComments (blocksToToml example_blocks) = example_blocks.
Proof.
  apply (@read_back_what_is_written example_blocks).
  apply Forall_cons; [|apply Forall_cons; [|apply Forall_nil]].
  - split; [reflexivity|split].
    + constructor; [split; [reflexivity|not_there]|constructor].
    + constructor; [|constructor; [|constructor]].
      * split; [left; in_quotes|].
        split; [left; in_quotes|].
        split; [not_there|]. split; [not_there|exact I].
      * split; [right; is_bare|].
        split; [left; in_quotes|].
        split; [not_there|]. split; [not_there|].
        split; [not_there|].
        exists (lit " noun"). split; [reflexivity|split; reflexivity].
  - split; [reflexivity|split; [constructor|]].
    constructor; [|constructor].
    split; [right; is_bare|].
    split; [right; is_bare|].
    split; [not_there|]. split; [not_there|exact I].
Defined.

(** *** What is read from any text *)

Lemma match_start_equals (s : str) (c : caps) :
  match_start entryRegex s = Some c -> In EQUALS s.
Proof.
  unfold match_start, entryRegex. intros H.
  rewrite m_Cat in H. apply m_calls in H. destruct H as (p1 & s1 & c1 & -> & H).
  rewrite m_Cat in H. apply m_calls in H. destruct H as (p2 & s2 & c2 & -> & H).
  rewrite m_Cat, m_Chr in H. destruct s2 as [|x s3]; [discriminate|].
  destruct (only EQUALS x) eqn:Hx; [|discriminate].
  unfold only, char_eqb in Hx. apply N.eqb_eq in Hx. subst x.
  rewrite !in_app_iff. right. right. left. reflexivity.
Qed.

Lemma match_entry_equals (s : str) (e : DictionaryEntry) :
  match_entry s = Some e -> In EQUALS s.
Proof.
  unfold match_entry. destruct (match_start entryRegex s) as [c|] eqn:H;
    [|discriminate].
  intros _. apply (match_start_equals _ H).
Qed.

(** X17.  A line that is not blank, is no comment and holds no = is
    dropped: the blocks read from a text are those read from the text
    without that line.  So a table header, or the continuation line of a
    value, is lost when a dictionary is read and written back. *)
Theorem line_without_equals_is_dropped (content content' : str)
    (before after : list str) (line : str) :
  split_lines content = before ++ line :: after ->
  split_lines content' = before ++ after ->
  blank_line line = false -> comment_line line = false ->
  ~ In EQUALS line ->
  parseTomlWithComments content = parseTomlWithComments content'.
Proof.
  intros Hc Hc' Hblank Hcomment Hno. unfold parseTomlWithComments.
  rewrite Hc, Hc'. clear Hc Hc'. generalize (@nil CommentBlock) no_block.
  induction before as [|l ls IH]; intros blocks cur.
  - cbn [app parse_lines]. unfold blank_line, comment_line in *.
    destruct (trim line) as [|x t] eqn:Ht; [discriminate|].
    rewrite Hcomment.
    destruct (match_entry (x :: t)) as [e|] eqn:He; [|reflexivity].
    exfalso. apply Hno. apply trim_incl. rewrite Ht.
    apply (match_entry_equals _ He).
  - cbn [app parse_lines].
    destruct (trim l) as [|x t]; [destruct (started cur); apply IH|].
    destruct (startsWith [HASH] (x :: t)); [apply IH|].
    destruct (match_entry (x :: t)); apply IH.
Qed.

(** Witness for X17: a table header between two entries. *)
Lemma line_without_equals_is_dropped_witness :
  parseTomlWithComments (lit "a = b" ++ [NL] ++ lit "[titles]" ++ [NL] ++ lit "c = d")
  = parseTomlWithComments (lit "a = b" ++ [NL] ++ lit "c = d").
Proof.
  apply (@line_without_equals_is_dropped _ _ [lit "a = b"] [lit "c = d"]
           (lit "[titles]")).
  - reflexivity.
  - reflexivity.
  - reflexivity.
  - reflexivity.
  - not_there.
Defined.

Lemma parse_lines_blocks (ls : list str) :
  forall blocks cur,
    Forall (fun b => started b = true) blocks ->
    Forall (fun b => started b = true) (parse_lines ls blocks cur) /\
    flat_map comments (parse_lines ls blocks cur)
    = flat_map comments blocks ++ comments cur ++ filter comment_line ls /\
    length (flat_map entries (parse_lines ls blocks cur))
    <= length (flat_map entries blocks) + length (entries cur)
       + length (filter has_equals ls).
Proof.
  induction ls as [|l ls IH]; intros blocks cur Hb.
  - cbn [parse_lines filter]. rewrite app_nil_r.
    destruct (started cur) eqn:Hs.
    + split; [apply Forall_app; split; [exact Hb|repeat constructor; exact Hs]|].
      rewrite !flat_map_app. cbn [flat_map]. rewrite !app_nil_r, length_app.
      split; [reflexivity|lia].
    + unfold started in Hs. destruct (comments cur); [|discriminate].
      destruct (entries cur); [|discriminate].
      split; [exact Hb|]. rewrite app_nil_r. split; [reflexivity|cbn [length flat_map]; lia].
  - cbn [parse_lines filter]. unfold comment_line.
    destruct (trim l) as [|x t] eqn:Ht.
    + cbn [startsWith].
      assert (Hskip : length (filter has_equals ls)
                      <= length (if has_equals l
                                 then l :: filter has_equals ls
                                 else filter has_equals ls)).
      { destruct (has_equals l); cbn [length]; lia. }
      destruct (started cur) eqn:Hs.
      * destruct (IH (blocks ++ [cur]) no_block) as (H1 & H2 & H3).
        { apply Forall_app. split; [exact Hb|repeat constructor; exact Hs]. }
        split; [exact H1|]. rewrite H2, !flat_map_app in *. cbn [flat_map] in *.
        rewrite !app_nil_r in *. rewrite length_app in H3. cbn in H3.
        rewrite <- app_assoc. split; [reflexivity|lia].
      * destruct (IH blocks cur Hb) as (H1 & H2 & H3).
        split; [exact H1|]. split; [exact H2|lia].
    + destruct (startsWith [HASH] (x :: t)) eqn:Hh.
      * destruct (IH blocks (mkBlock (comments cur ++ [l]) (entries cur)) Hb)
          as (H1 & H2 & H3).
        split; [exact H1|]. cbn [comments entries] in *. rewrite H2.
        rewrite <- !app_assoc. split; [reflexivity|].
        destruct (has_equals l); cbn [length]; lia.
      * destruct (match_entry (x :: t)) as [e|] eqn:He.
        -- destruct (IH blocks (mkBlock (comments cur) (entries cur ++ [e])) Hb)
             as (H1 & H2 & H3).
           split; [exact H1|]. cbn [comments entries] in *.
           split; [exact H2|].
           assert (Hin : has_equals l = true).
           { apply existsb_exists. exists EQUALS. split; [|apply N.eqb_refl].
             apply trim_incl. rewrite Ht. apply (match_entry_equals _ He). }
           rewrite Hin. rewrite length_app in H3. cbn [length] in *. lia.
        -- destruct (IH blocks cur Hb) as (H1 & H2 & H3).
           split; [exact H1|]. split; [exact H2|].
           destruct (has_equals l); cbn [length]; lia.
Qed.

(** X18.  Whatever the text is, no block that parseTomlWithComments
    returns is empty; the comments of the blocks, in order, are exactly the
    lines of the text that start with # after white space, as they stand in
    the text; and there are at most as many entries as lines that hold
    an =. *)
Theorem parse_keeps_every_comment (content : str) :
  let blocks := parseTomlWithComments content in
  Forall (fun b => comments b <> [] \/ entries b <> []) blocks /\
  flat_map comments blocks = filter comment_line (split_lines content) /\
  length (flat_map entries blocks)
  <= length (filter has_equals (split_lines content)).
Proof.
  cbv zeta. unfold parseTomlWithComments.
  destruct (parse_lines_blocks (split_lines content) no_block (Forall_nil _))
    as (H1 & H2 & H3).
  split; [|split; [exact H2|exact H3]].
  eapply Forall_impl; [|exact H1]. intros b Hs. unfold started in Hs.
  destruct (comments b); [|left; discriminate].
  destruct (entries b); [discriminate|right; discriminate].
Qed.

End SorterFacts.
